(** * The coordination bot (bot.js): territory map, players and war state

    A shallow embedding of [bot.js] and the proofs of its properties: the
    territory pipeline first, then the player data, the war state and the
    commands on them:

    - [convexHull] (bot.js 232-270), the monotone-chain hull behind the
      faction borders;
    - [Render]: the coordinate mapping, bounding box, hull-point collection,
      borders and markers of [generateMapImage] (bot.js 275-500);
    - [Summary]: the per-faction grouping of the embed built by
      [updateTerritoryMap] (bot.js 561-628);
    - [Ingestion]: the handlers of POST and GET /api/territory
      (bot.js 1469-1516) over an explicit server state;
    - [Roles], [Guild]: the nationality and rank read from a member's roles
      ([getPlayerDataFromMember], bot.js 116-126) and [ensureRolesExist]
      (bot.js 716-746);
    - [Storage]: [loadData], [saveData] and [syncAllPlayers]
      (bot.js 79-113 and 211-228) over the module state and its files;
    - [Commands]: the slash commands declarewar, declarepeace and
      linkidentity (bot.js 1094-1269);
    - [Api]: GET /api/player/:identifier (bot.js 1402-1456);
    - [Embed]: the text of the embed's fields (bot.js 585-628), added
      through the builder of discord.js;
    - [Double]: [convexHull], the coordinate mapping and the borders of
      [generateMapImage] over IEEE 754 doubles.

    The environment.  Calls into discord.js, canvas and the file system are
    taken to return unless the model says otherwise: a file operation of
    [saveData] and a call of [guild.roles.create] can fail, a file can be
    unreadable, a member can be missing from the guild, and the builder of
    discord.js can refuse a field of the embed.

    Numbers.  A JavaScript number is an IEEE 754 double.  Where rounding
    decides what the code returns (the turns of the hull, the canvas
    coordinates, the borders drawn from them) the code is embedded over
    doubles, in [Double], with the binary64 operations of [SpecFloat].  The
    other definitions read a number as the exact rational ([Q]) it stands
    for, with comparison by [Qle_bool] / [Qeq_bool]: they carry the
    properties that no rounding touches (which bases are placed, grouped or
    skipped, what is thrown, the order of things), and the exact hull that
    the hull over doubles is compared with.  NaN and the infinities are
    outside of that reading, except the [Infinity] start values of the
    bounding box.

    Arrays used as stacks.  The arrays [lower] and [upper] of [convexHull]
    are only pushed to and popped from at their end; they are kept as lists
    whose head is the LAST array element. *)

From Stdlib Require Import QArith Qpower Lqa Lia Bool Arith NArith ZArith String Ascii DecimalString.
From Stdlib Require Import List Sorting.Sorted Sorting.Permutation SpecFloat.
Import ListNotations.

(* ================================================================== *)
(** * Part I.  The program                                             *)
(* ================================================================== *)

(** ** Exceptions *)

Inductive exn : Type := TypeError | SyntaxError | IOError.

Inductive outcome (A : Type) : Type :=
| Return (a : A)
| Throw (e : exn).
Arguments Return {A} a.
Arguments Throw {A} e.

(** The own property names of [Object.prototype]: a plain object literal
    answers a lookup of any of them with an inherited, truthy member. *)
Definition Object_prototype_keys : list string :=
  ["constructor"; "__defineGetter__"; "__defineSetter__"; "hasOwnProperty";
   "__lookupGetter__"; "__lookupSetter__"; "isPrototypeOf";
   "propertyIsEnumerable"; "toString"; "valueOf"; "__proto__";
   "toLocaleString"]%string.

Definition inherited (key : string) : bool :=
  existsb (String.eqb key) Object_prototype_keys.

(** Own-property lookup and update of an object kept as an association list
    in property order. *)
Fixpoint own {A : Type} (key : string) (obj : list (string * A)) : option A :=
  match obj with
  | [] => None
  | (k, v) :: rest => if String.eqb k key then Some v else own key rest
  end.

Fixpoint update {A : Type} (key : string) (f : A -> A) (obj : list (string * A))
  : list (string * A) :=
  match obj with
  | [] => []
  | (k, v) :: rest =>
      if String.eqb k key then (k, f v) :: rest else (k, v) :: update key f rest
  end.

(** ** Hull Builder: [convexHull] (bot.js 232-270) *)

Record point : Type := mkPoint { x : Q; y : Q }.

(** [cross(o, a, b)], bot.js 242-244. *)
Definition cross (o a b : point) : Q :=
  (x a - x o) * (y b - y o) - (y a - y o) * (x b - x o).

(** The comparator handed to [sort], bot.js 236-239. *)
Definition compareFn (a b : point) : Q :=
  if Qeq_bool (x a) (x b) then y a - y b else x a - x b.

(** [points.slice().sort(compareFn)]: [Array.prototype.sort] is stable, and
    for a consistent comparator its result is the stable sorted permutation;
    insertion from the right builds exactly that one. *)
Fixpoint insert_sorted (p : point) (l : list point) : list point :=
  match l with
  | [] => [p]
  | h :: t => if Qle_bool (compareFn p h) 0 then p :: l else h :: insert_sorted p t
  end.

Fixpoint sort (l : list point) : list point :=
  match l with
  | [] => []
  | h :: t => insert_sorted h (sort t)
  end.

(** The inner [while] of both loops (bot.js 249-251 and 259-261): the stack
    is held with its last element first, so [t] is [lower[lower.length - 1]]
    and [u] is [lower[lower.length - 2]]. *)
Fixpoint pop_while (stack : list point) (p : point) : list point :=
  match stack with
  | t :: ((u :: _) as rest) =>
      if Qle_bool (cross u t p) 0 then pop_while rest p else stack
  | _ => stack
  end.

(** One round of a [for] loop: pop, then [push(point)]. *)
Definition scan_step (stack : list point) (p : point) : list point :=
  p :: pop_while stack p.

Definition half_hull (pts : list point) : list point :=
  fold_left scan_step pts [].

Definition convexHull (points : list point) : list point :=
  if Nat.ltb (List.length points) 3 then points
  else
    let sorted := sort points in
    let lower := half_hull sorted in
    let upper := half_hull (rev sorted) in
    (* lower.pop(); upper.pop(); return lower.concat(upper) *)
    rev (tl lower) ++ rev (tl upper).

(** ** Bases *)

(** A base as it arrives in [territoryData.bases].  A field is [None] when
    the property is missing ([undefined]) or [null]. *)
Module Base.
Record t : Type := mk {
  name : option string;
  x : option Q;
  z : option Q;
  faction : option string;
  type : option string;
  poiType : option string
}.
End Base.

(** JavaScript truthiness of a numeric field: [truthy v] is [Some q] exactly
    when the field holds a number other than 0. *)
Definition truthy (v : option Q) : option Q :=
  match v with
  | Some q => if Qeq_bool q 0 then None else Some q
  | None => None
  end.

(** [v || dflt] on a string field: [undefined], [null] and the empty string
    are falsy. *)
Definition or_default (v : option string) (dflt : string) : string :=
  match v with
  | Some s => if String.eqb s "" then dflt else s
  | None => dflt
  end.

(** [v === s] and [v !== s] against a string literal. *)
Definition is_str (v : option string) (s : string) : bool :=
  match v with
  | Some s' => String.eqb s' s
  | None => false
  end.

(** ** Coordinate Mapper and Map Renderer: [generateMapImage] (bot.js 275-500) *)

Module Render.

Definition MAP_SIZE : Q := 12800.
Definition CANVAS_SIZE : Q := 1200.
Definition SCALE : Q := CANVAS_SIZE / MAP_SIZE.

(** The running minimum or maximum of the bounding box starts at an
    infinity (bot.js 277-278). *)
Inductive bound : Type := NegInfinity | Finite (q : Q) | Infinity.

Definition Math_min (a : bound) (b : Q) : bound :=
  match a with
  | Infinity => Finite b
  | Finite q => Finite (if Qle_bool q b then q else b)
  | NegInfinity => NegInfinity
  end.

Definition Math_max (a : bound) (b : Q) : bound :=
  match a with
  | NegInfinity => Finite b
  | Finite q => Finite (if Qle_bool b q then q else b)
  | Infinity => Infinity
  end.

Record bounds : Type := mkBounds {
  minX : bound; maxX : bound; minZ : bound; maxZ : bound
}.

Definition bounds0 : bounds := mkBounds Infinity NegInfinity Infinity NegInfinity.

(** bot.js 280-287. *)
Definition bounds_step (bd : bounds) (base : Base.t) : bounds :=
  match truthy (Base.x base), truthy (Base.z base) with
  | Some bx, Some bz =>
      mkBounds (Math_min (minX bd) bx) (Math_max (maxX bd) bx)
               (Math_min (minZ bd) bz) (Math_max (maxZ bd) bz)
  | _, _ => bd
  end.

(** [{...base, canvasX: x, canvasY: y}] *)
Record baseData : Type := mkBaseData {
  base : Base.t;
  canvasX : Q;
  canvasY : Q
}.

(** The two collections the placement loop fills (bot.js 345-352). *)
Record placement : Type := mkPlacement {
  basePositions : list baseData;
  factionBases : list (string * list point)
}.

Definition placement0 : placement :=
  mkPlacement [] [("US", []); ("USSR", []); ("FIA", [])]%string.

(** One round of the loop of bot.js 354-373.  [factionBases[base.faction]]
    is the faction's own array, an inherited member of [Object.prototype]
    (truthy, and without [push]: the call throws a TypeError), or
    [undefined]. *)
Definition place_step (st : placement) (b : Base.t) : outcome placement :=
  match truthy (Base.x b), truthy (Base.z b) with
  | Some bx, Some bz =>
      let x := bx * SCALE in
      let y := (MAP_SIZE - bz) * SCALE in
      let positions := (basePositions st ++ [mkBaseData b x y])%list in
      if negb (is_str (Base.faction b) "Neutral") && negb (is_str (Base.type b) "HQ")
      then
        match Base.faction b with
        | Some f =>
            match own f (factionBases st) with
            | Some _ =>
                Return (mkPlacement positions
                          (update f (fun pts => pts ++ [mkPoint x y])%list
                                  (factionBases st)))
            | None =>
                if inherited f then Throw TypeError
                else Return (mkPlacement positions (factionBases st))
            end
        | None => Return (mkPlacement positions (factionBases st))
        end
      else Return (mkPlacement positions (factionBases st))
  | _, _ => Return st (* continue *)
  end.

Fixpoint place_all (st : placement) (bases : list Base.t) : outcome placement :=
  match bases with
  | [] => Return st
  | b :: rest =>
      match place_step st b with
      | Return st' => place_all st' rest
      | Throw e => Throw e
      end
  end.

(** The border of one faction (bot.js 377-381): none below three points, and
    none when the hull has fewer than three vertices. *)
Definition border (points : list point) : option (list point) :=
  if Nat.ltb (List.length points) 3 then None
  else
    let hull := convexHull points in
    if Nat.ltb (List.length hull) 3 then None else Some hull.

Definition borders (fb : list (string * list point)) : list (string * list point) :=
  flat_map (fun entry =>
              match border (snd entry) with
              | Some hull => [(fst entry, hull)]
              | None => []
              end) fb.

(** Marker shapes (bot.js 413-425). *)
Inductive shape : Type := Star | Diamond | Circle.

Definition marker_shape (b : Base.t) : shape :=
  if is_str (Base.type b) "HQ" then Star
  else if is_str (Base.type b) "POI" then Diamond
  else Circle.

Record marker : Type := mkMarker {
  m_shape : shape;
  m_x : Q;
  m_y : Q;
  m_label : string
}.

Definition draw_marker (bp : baseData) : marker :=
  mkMarker (marker_shape (base bp)) (canvasX bp) (canvasY bp)
           (or_default (Base.name (base bp)) "Unknown").

(** What [generateMapImage] puts on the canvas, besides the background and
    the legend: the logged bounding box, the dashed borders in the order of
    [Object.entries(factionBases)], and one marker per placed base. *)
Record scene : Type := mkScene {
  logged : bounds;
  drawn_borders : list (string * list point);
  markers : list marker
}.

Definition generateMapImage (bases : list Base.t) : outcome scene :=
  let bd := fold_left bounds_step bases bounds0 in
  match place_all placement0 bases with
  | Return st =>
      Return (mkScene bd (borders (factionBases st))
                      (map draw_marker (basePositions st)))
  | Throw e => Throw e
  end.

End Render.

(** ** Territory Publisher: the summary of [updateTerritoryMap] (bot.js 561-628) *)

Module Summary.

(** One value of the local object [factionBases] (bot.js 562-567); its field
    [bases] is never written and is left out. *)
Record factionData : Type := mkFactionData {
  name : string;
  hq : list Base.t;
  fobs : list Base.t;
  pois : list Base.t
}.

Definition factionBases0 : list (string * factionData) :=
  [("US", mkFactionData "Meridian Federation 🔵" [] [] []);
   ("USSR", mkFactionData "Kharsovian Republic 🔴" [] [] []);
   ("FIA", mkFactionData "Khorasan Covenant 🟢" [] [] []);
   ("Neutral", mkFactionData "Neutral ⚪" [] [] [])]%string.

(** [factionBases[faction] || factionBases['Neutral']] (bot.js 572-573): the
    entry of a known faction, an inherited member of [Object.prototype]
    (truthy, so it is taken as it is), or the Neutral entry. *)
Inductive target : Type := Entry (key : string) | Prototype_member.

Definition resolve (fb : list (string * factionData)) (b : Base.t) : target :=
  let faction := or_default (Base.faction b) "Neutral" in
  match own faction fb with
  | Some _ => Entry faction
  | None => if inherited faction then Prototype_member else Entry "Neutral"
  end.

Definition push_hq (b : Base.t) (d : factionData) : factionData :=
  mkFactionData (name d) (hq d ++ [b]) (fobs d) (pois d).
Definition push_fob (b : Base.t) (d : factionData) : factionData :=
  mkFactionData (name d) (hq d) (fobs d ++ [b]) (pois d).
Definition push_poi (b : Base.t) (d : factionData) : factionData :=
  mkFactionData (name d) (hq d) (fobs d) (pois d ++ [b]).

(** One round of the loop of bot.js 571-582.  A member of
    [Object.prototype] has no [hq], [fobs] or [pois]: pushing to one throws a
    TypeError.  A type that is none of the three reaches no branch. *)
Definition categorize_step (fb : list (string * factionData)) (b : Base.t)
  : outcome (list (string * factionData)) :=
  let push :=
    if is_str (Base.type b) "HQ" then Some (push_hq b)
    else if is_str (Base.type b) "FOB" then Some (push_fob b)
    else if is_str (Base.type b) "POI" then Some (push_poi b)
    else None in
  match push with
  | None => Return fb
  | Some f =>
      match resolve fb b with
      | Entry key => Return (update key f fb)
      | Prototype_member => Throw TypeError
      end
  end.

Fixpoint categorize (fb : list (string * factionData)) (bases : list Base.t)
  : outcome (list (string * factionData)) :=
  match bases with
  | [] => Return fb
  | b :: rest =>
      match categorize_step fb b with
      | Return fb' => categorize fb' rest
      | Throw e => Throw e
      end
  end.

Definition nat_to_string (n : nat) : string :=
  NilZero.string_of_uint (Nat.to_uint n).

(** A field of the embed.  A faction's field carries its key, its title
    [`${data.name} - ${totalBases} bases`], the count and the three
    sub-lists its text is written from (names of the HQs and FOBs, and the
    POIs with the [poiType || 'Other'] they are grouped under); the layout of
    that text is not modelled. *)
Inductive field : Type :=
| NoData
| FactionField (key : string) (title : string) (totalBases : nat)
               (hqNames fobNames : list (option string))
               (poiNames : list (string * option string)).

Definition totalBases (d : factionData) : nat :=
  List.length (hq d) + List.length (fobs d) + List.length (pois d).

(** bot.js 585-621: a faction whose count is 0 is skipped. *)
Definition addFields (fb : list (string * factionData)) : list field :=
  flat_map (fun entry =>
              let d := snd entry in
              if Nat.eqb (totalBases d) 0 then []
              else [FactionField (fst entry)
                      (name d ++ " - " ++ nat_to_string (totalBases d) ++ " bases")
                      (totalBases d)
                      (map Base.name (hq d))
                      (map Base.name (fobs d))
                      (map (fun p => (or_default (Base.poiType p) "Other", Base.name p))
                           (pois d))]) fb.

(** bot.js 569-628: the fields of the embed for [territoryData.bases]. *)
Definition summary (bases : list Base.t) : outcome (list field) :=
  match bases with
  | [] => Return [NoData]
  | _ =>
      match categorize factionBases0 bases with
      | Return fb => Return (addFields fb)
      | Throw e => Throw e
      end
  end.

End Summary.

(** ** Ingestion Adapter: POST and GET /api/territory (bot.js 1469-1516) *)

Module Ingestion.

Local Open Scope string_scope.

(** A JavaScript value as the body parsers and [JSON.parse] produce them; an
    object is the list of its own properties in enumeration order. *)
#[local] Unset Elimination Schemes.
Inductive jsval : Type :=
| JUndefined
| JNull
| JBool (b : bool)
| JNum (q : Q)
| JStr (s : string)
| JArr (items : list jsval)
| JObj (props : list (string * jsval)).
#[local] Set Elimination Schemes.

(** The double quote, and the literal ['{"bases":['] of bot.js 1481. *)
Definition dquote : string := String "034"%char EmptyString.
Definition bases_open : string := "{" ++ dquote ++ "bases" ++ dquote ++ ":[".

Definition index_keys (n : nat) : list string :=
  map Summary.nat_to_string (seq 0 n).

(** [Object.keys(v)]. *)
Definition Object_keys (v : jsval) : outcome (list string) :=
  match v with
  | JObj props => Return (map fst props)
  | JArr items => Return (index_keys (List.length items))
  | JStr s => Return (index_keys (String.length s))
  | JNum _ | JBool _ => Return []
  | JNull | JUndefined => Throw TypeError
  end.

(** [v[key]] for a string key that is no array index. *)
Definition get_prop (v : jsval) (key : string) : jsval :=
  match v with
  | JObj props =>
      match own key props with
      | Some w => w
      | None => JUndefined
      end
  | _ => JUndefined
  end.

(** [props[key] = w] on the own properties of an object: an existing
    property keeps its place, a new one goes last. *)
Fixpoint set_prop (props : list (string * jsval)) (key : string) (w : jsval)
  : list (string * jsval) :=
  match props with
  | [] => [(key, w)]
  | (k, v) :: rest =>
      if String.eqb k key then (k, w) :: rest else (k, v) :: set_prop rest key w
  end.

(** String concatenation with a value that may be [undefined]. *)
Definition to_text (s : option string) : string :=
  match s with
  | Some t => t
  | None => "undefined"
  end.

(** The module state the handlers share, and the file behind it.  The file
    [TERRITORY_FILE] is represented by the value whose JSON text it holds:
    [JSON.stringify] followed by [JSON.parse] gives back what the body
    parsers and [JSON.parse] can produce. *)
Record server : Type := mkServer {
  territoryData : jsval;
  territoryFile : option jsval
}.

(** One request: the decoded [req.body], the result of
    [new Date().toISOString()], whether [fs.writeFileSync] succeeds, and
    whether the guild and its territory channel are found, so that
    [updateTerritoryMap] runs up to its reload of the file. *)
Record request : Type := mkRequest {
  body : jsval;
  now : string;
  disk_ok : bool;
  publisher_ready : bool
}.

Inductive response : Type := Response (status : nat) (json : jsval).

Definition status_of (r : response) : nat :=
  match r with Response s _ => s end.

(** Statements of a handler: a state transformer that returns or throws;
    what was assigned before a throw stays assigned. *)
Definition M (A : Type) : Type := server -> outcome A * server.

Definition ret {A : Type} (a : A) : M A := fun st => (Return a, st).
Definition throw {A : Type} (e : exn) : M A := fun st => (Throw e, st).
Definition lift {A : Type} (o : outcome A) : M A := fun st => (o, st).
Definition bind {A B : Type} (c : M A) (k : A -> M B) : M B :=
  fun st =>
    match c st with
    | (Return a, st') => k a st'
    | (Throw e, st') => (Throw e, st')
    end.
Definition try_catch {A : Type} (c : M A) (handler : exn -> M A) : M A :=
  fun st =>
    match c st with
    | (Return a, st') => (Return a, st')
    | (Throw e, st') => handler e st'
    end.

Notation "x <- c ;; k" := (bind c (fun x => k))
  (at level 61, c at next level, right associativity).
Notation "c ;;; k" := (bind c (fun _ => k))
  (at level 61, right associativity).

Section Handlers.

(** [JSON.parse]: [None] is a SyntaxError. *)
Variable JSON_parse : string -> option jsval.

Definition parse (text : string) : outcome jsval :=
  match JSON_parse text with
  | Some v => Return v
  | None => Throw SyntaxError
  end.

(** bot.js 1474-1491: from [req.body] to [parsedData]. *)
Definition parse_payload (body : jsval) : outcome jsval :=
  match body with
  | JObj _ | JNull =>
      (* typeof req.body === 'object' && !Array.isArray(req.body) *)
      match Object_keys body with
      | Throw e => Throw e
      | Return keys =>
          match hd_error keys with
          | Some firstKey =>
              if negb (String.eqb firstKey "") && String.prefix "{" firstKey then
                match Object_keys (get_prop body firstKey) with
                | Throw e => Throw e
                | Return keys' =>
                    let arrayContent := hd_error keys' in
                    let jsonString := bases_open ++ to_text arrayContent ++ "]}" in
                    parse jsonString
                end
              else Return body
          | None => Return body
          end
      end
  | JStr text => parse text
  | _ => Return body
  end.

(** [territoryData = parsedData] *)
Definition assign_territoryData (v : jsval) : M unit :=
  fun st => (Return tt, mkServer v (territoryFile st)).

(** [territoryData.lastUpdate = ...] (bot.js 1494): a property of an
    object; a TypeError on [null] and [undefined]; without effect on a
    primitive (the script is not in strict mode) and, as far as JSON shows
    it, on an array. *)
Definition stamp (v : jsval) (time : string) : outcome jsval :=
  match v with
  | JObj props => Return (JObj (set_prop props "lastUpdate" (JStr time)))
  | JNull | JUndefined => Throw TypeError
  | _ => Return v
  end.

Definition stamp_lastUpdate (time : string) : M unit :=
  fun st =>
    match stamp (territoryData st) time with
    | Return v => (Return tt, mkServer v (territoryFile st))
    | Throw e => (Throw e, st)
    end.

(** [fs.writeFileSync(TERRITORY_FILE, JSON.stringify(territoryData, null, 2))] *)
Definition write_territory_file (ok : bool) : M unit :=
  fun st =>
    if ok then (Return tt, mkServer (territoryData st) (Some (territoryData st)))
    else (Throw IOError, st).

(** What the call of [updateTerritoryMap] does to this state before it first
    yields: it reloads [territoryData] from the file (bot.js 544-546). *)
Definition reload : M unit :=
  fun st =>
    match territoryFile st with
    | Some v => (Return tt, mkServer v (territoryFile st))
    | None => (Return tt, st)
    end.

Definition success_body : jsval :=
  JObj [("success", JBool true); ("message", JStr "Territory data received")].
Definition failure_body : jsval :=
  JObj [("error", JStr "Failed to process territory data")].

(** [app.post('/api/territory', ...)], bot.js 1469-1511. *)
Definition post_territory (req : request) : M response :=
  try_catch
    (parsedData <- lift (parse_payload (body req)) ;;
     assign_territoryData parsedData ;;;
     stamp_lastUpdate (now req) ;;;
     write_territory_file (disk_ok req) ;;;
     (if publisher_ready req then reload else ret tt) ;;;
     ret (Response 200 success_body))
    (fun _ => ret (Response 500 failure_body)).

End Handlers.

(** [app.get('/api/territory', ...)], bot.js 1514-1516. *)
Definition get_territory (st : server) : response :=
  Response 200 (territoryData st).

(** What a render started after the request draws from: the publisher
    reloads the file when there is one (bot.js 544-546). *)
Definition publisher_view (st : server) : jsval :=
  match territoryFile st with
  | Some v => v
  | None => territoryData st
  end.

End Ingestion.

(** ** Text *)

Module Text.

Local Open Scope string_scope.

(** The line feed of ['\n']. *)
Definition nl : string := String "010"%char EmptyString.

(** [s.replace(/_/g, ' ')] *)
Fixpoint replace_underscores (s : string) : string :=
  match s with
  | EmptyString => EmptyString
  | String c rest =>
      String (if Ascii.eqb c "_"%char then " "%char else c) (replace_underscores rest)
  end.

(** [list.join(sep)] on an array of strings. *)
Fixpoint join (sep : string) (l : list string) : string :=
  match l with
  | [] => ""
  | [a] => a
  | a :: rest => a ++ sep ++ join sep rest
  end.

(** [list.map(n => n.replace(/_/g, ' ')).join(sep)] *)
Definition display (sep : string) (l : list string) : string :=
  join sep (map replace_underscores l).

(** [list.includes(t)] *)
Definition includes (l : list string) (t : string) : bool :=
  existsb (String.eqb t) l.

(** [[...new Set(list)]]: the first occurrence of every element, in order. *)
Fixpoint unique (l : list string) : list string :=
  match l with
  | [] => []
  | a :: rest => a :: filter (fun b => negb (String.eqb b a)) (unique rest)
  end.

(** [list.filter(t => t !== null)] *)
Definition non_null (l : list (option string)) : list string :=
  flat_map (fun t => match t with Some s => [s] | None => [] end) l.

End Text.

(** ** Nationalities and ranks: [getPlayerDataFromMember] (bot.js 27-28, 116-126) *)

Module Roles.

Local Open Scope string_scope.

Definition NATIONALITIES : list string := ["USSR"; "US"; "FIA"].

Definition RANKS : list string :=
  ["Private"; "Sergeant"; "Lieutenant"; "Captain"; "General"; "Politician";
   "Head_of_State"].

(** A guild member as the handlers read it: [member.id],
    [member.user.username], [member.user.bot] and the names of the roles in
    [member.roles.cache], in the order of that collection. *)
Record guildMember : Type := mkMember {
  id : string;
  username : string;
  bot : bool;
  roles : list string
}.

(** [member.roles.cache.some(role => role.name === n)] *)
Definition has_role (m : guildMember) (n : string) : bool :=
  existsb (fun role => String.eqb role n) (roles m).

Record playerRoles : Type := mkRoles { nationality : string; rank : string }.

(** [NATIONALITIES.find(...) || 'USSR'] and [RANKS.find(...) || 'Private']. *)
Definition getPlayerDataFromMember (m : guildMember) : playerRoles :=
  mkRoles (or_default (find (has_role m) NATIONALITIES) "USSR")
          (or_default (find (has_role m) RANKS) "Private").

End Roles.

(** ** The roles of the guild: [ensureRolesExist] (bot.js 716-746) *)

Module Guild.

Local Open Scope string_scope.

(** A role of [guild.roles.cache]: its name and its color. *)
Record role : Type := mkRole { name : string; color : string }.

(** [guild.roles.cache.find(r => r.name === n)] *)
Definition find_role (cache : list role) (n : string) : option role :=
  find (fun r => String.eqb (name r) n) cache.

(** One of the two loops (bot.js 720-730 and 733-743).  [budget] is the
    number of calls of [guild.roles.create] that succeed before one rejects;
    a created role joins the cache.  The result is the budget left, or
    [None] when a call rejected and the function was left, and the cache. *)
Fixpoint create_missing (color : string) (names : list string) (budget : nat)
  (cache : list role) : option nat * list role :=
  match names with
  | [] => (Some budget, cache)
  | n :: rest =>
      match find_role cache n with
      | Some _ => create_missing color rest budget cache
      | None =>
          match budget with
          | O => (None, cache)
          | S budget' => create_missing color rest budget' (cache ++ [mkRole n color])
          end
      end
  end.

(** [ensureRolesExist]: whether it resolved, and the cache it leaves. *)
Definition ensureRolesExist (budget : nat) (cache : list role) : bool * list role :=
  match create_missing "Blue" Roles.NATIONALITIES budget cache with
  | (None, cache') => (false, cache')
  | (Some budget', cache') =>
      match create_missing "Green" Roles.RANKS budget' cache' with
      | (None, cache'') => (false, cache'')
      | (Some _, cache'') => (true, cache'')
      end
  end.

End Guild.

(** ** The module state: [playerData], [warState] and their files
       (bot.js 56-113) *)

Module Players.

(** One value of [playerData]; a field is [None] when it is missing or
    [null]. *)
Record player : Type := mkPlayer {
  discordId : option string;
  username : option string;
  nationality : option string;
  rank : option string;
  steamId : option string
}.

(** [{}] *)
Definition empty : player := mkPlayer None None None None None.

Definition set_discordId (v : option string) (p : player) : player :=
  mkPlayer v (username p) (nationality p) (rank p) (steamId p).
Definition set_username (v : option string) (p : player) : player :=
  mkPlayer (discordId p) v (nationality p) (rank p) (steamId p).
Definition set_nationality (v : option string) (p : player) : player :=
  mkPlayer (discordId p) (username p) v (rank p) (steamId p).
Definition set_rank (v : option string) (p : player) : player :=
  mkPlayer (discordId p) (username p) (nationality p) v (steamId p).
Definition set_steamId (v : option string) (p : player) : player :=
  mkPlayer (discordId p) (username p) (nationality p) (rank p) v.

(** [playerData]: the players by Discord id, in the enumeration order of the
    object.  The ids are Discord snowflakes: strings of decimal digits, too
    long for an array index, so the object lists them in the order they
    were first assigned, and none names a member of [Object.prototype]. *)
Definition t : Type := list (string * player).

(** [playerData[key] = v]: an existing key keeps its place, a new one goes
    last. *)
Fixpoint assign (key : string) (v : player) (pd : t) : t :=
  match pd with
  | [] => [(key, v)]
  | (k, p) :: rest =>
      if String.eqb k key then (k, v) :: rest else (k, p) :: assign key v rest
  end.

(** [if (!playerData[key]) playerData[key] = {}] *)
Definition ensure (key : string) (pd : t) : t :=
  match own key pd with
  | Some _ => pd
  | None => assign key empty pd
  end.

End Players.

Module War.

(** [warState], bot.js 57-64. *)
Record warState : Type := mk {
  active : bool;
  declaredBy : option string;
  declaredAt : option string;
  declaredByNation : option string;
  targetNations : list string;
  participants : list string
}.

Definition warState0 : warState := mk false None None None [] [].

End War.

Module Storage.

(** A file of the bot: absent, present with a text that is no JSON (on
    which [JSON.parse] throws a SyntaxError), or present with the JSON text
    of a value.
    The files are written by [JSON.stringify] only; on the values of this
    model, [JSON.parse] gives back what [JSON.stringify] wrote. *)
Inductive file (V : Type) : Type :=
| Missing
| Unreadable
| Holds (v : V).
Arguments Missing {V}.
Arguments Unreadable {V}.
Arguments Holds {V} v.

(** The three files beside the script and the game directory, which is
    absent ([None]) or holds its two copies. *)
Record disk : Type := mkDisk {
  DATA_FILE : file Players.t;
  WAR_FILE : file War.warState;
  TERRITORY_FILE : file Ingestion.jsval;
  GAME_SYNC_DIR : option (file Players.t * file War.warState)
}.

Record store : Type := mkStore {
  playerData : Players.t;
  warState : War.warState;
  territoryData : Ingestion.jsval;
  fs : disk
}.

Definition set_playerData (pd : Players.t) (st : store) : store :=
  mkStore pd (warState st) (territoryData st) (fs st).
Definition set_warState (ws : War.warState) (st : store) : store :=
  mkStore (playerData st) ws (territoryData st) (fs st).
Definition set_territoryData (v : Ingestion.jsval) (st : store) : store :=
  mkStore (playerData st) (warState st) v (fs st).
Definition set_fs (d : disk) (st : store) : store :=
  mkStore (playerData st) (warState st) (territoryData st) d.

(** [loadData], bot.js 79-93: the three files are read in one [try]; the
    first one that throws ends the loading, and what was assigned before
    stays assigned. *)
Definition loadData (st : store) : store :=
  match DATA_FILE (fs st) with
  | Unreadable => st
  | f1 =>
      let st1 := match f1 with Holds pd => set_playerData pd st | _ => st end in
      match WAR_FILE (fs st) with
      | Unreadable => st1
      | f2 =>
          let st2 := match f2 with Holds ws => set_warState ws st1 | _ => st1 end in
          match TERRITORY_FILE (fs st) with
          | Holds v => set_territoryData v st2
          | _ => st2
          end
      end
  end.

(** One call of [fs.writeFileSync] or [fs.mkdirSync] inside the [try] of
    [saveData]: [budget] is the number of such calls that succeed before the
    first one throws.  A call that throws leaves the disk as it was, and
    the rest of the block is skipped. *)
Definition fs_try (budget : nat) (d : disk) (op : disk -> disk)
  (rest : nat -> disk -> disk) : disk :=
  match budget with
  | O => d
  | S budget' => rest budget' (op d)
  end.

Definition write_DATA_FILE (pd : Players.t) (d : disk) : disk :=
  mkDisk (Holds pd) (WAR_FILE d) (TERRITORY_FILE d) (GAME_SYNC_DIR d).
Definition write_WAR_FILE (ws : War.warState) (d : disk) : disk :=
  mkDisk (DATA_FILE d) (Holds ws) (TERRITORY_FILE d) (GAME_SYNC_DIR d).
Definition mkdir_GAME_SYNC_DIR (d : disk) : disk :=
  mkDisk (DATA_FILE d) (WAR_FILE d) (TERRITORY_FILE d) (Some (Missing, Missing)).
Definition write_sync_player_data (pd : Players.t) (d : disk) : disk :=
  mkDisk (DATA_FILE d) (WAR_FILE d) (TERRITORY_FILE d)
         (option_map (fun dir => (Holds pd, snd dir)) (GAME_SYNC_DIR d)).
Definition write_sync_war_state (ws : War.warState) (d : disk) : disk :=
  mkDisk (DATA_FILE d) (WAR_FILE d) (TERRITORY_FILE d)
         (option_map (fun dir => (fst dir, Holds ws)) (GAME_SYNC_DIR d)).

(** [saveData], bot.js 96-113.  [CONFIG.GAME_SYNC_DIR] is never empty
    (bot.js 20), so the copy to the game directory is always attempted. *)
Definition saveData (budget : nat) (st : store) : store :=
  let pd := playerData st in
  let ws := warState st in
  let copies n d :=
    fs_try n d (write_sync_player_data pd) (fun n d =>
    fs_try n d (write_sync_war_state ws) (fun _ d => d)) in
  set_fs
    (fs_try budget (fs st) (write_DATA_FILE pd) (fun n d =>
     fs_try n d (write_WAR_FILE ws) (fun n d =>
     match GAME_SYNC_DIR d with
     | None => fs_try n d mkdir_GAME_SYNC_DIR copies
     | Some _ => copies n d
     end)))
    st.

(** The callback of [syncAllPlayers] for one fetched member
    (bot.js 213-224). *)
Definition sync_member (pd : Players.t) (m : Roles.guildMember) : Players.t :=
  if Roles.bot m then pd
  else
    let data := Roles.getPlayerDataFromMember m in
    let kept :=
      (* playerData[member.id]?.steamId || null *)
      match own (Roles.id m) pd with
      | Some p =>
          match Players.steamId p with
          | Some s => if String.eqb s "" then None else Some s
          | None => None
          end
      | None => None
      end in
    Players.assign (Roles.id m)
      (Players.mkPlayer (Some (Roles.id m)) (Some (Roles.username m))
                        (Some (Roles.nationality data)) (Some (Roles.rank data)) kept)
      pd.

(** [syncAllPlayers], bot.js 211-228, once [guild.members.fetch()] has
    delivered [members]. *)
Definition syncAllPlayers (members : list Roles.guildMember) (budget : nat)
  (st : store) : store :=
  saveData budget (set_playerData (fold_left sync_member members (playerData st)) st).

End Storage.

(** ** Slash commands (bot.js 899-1383) *)

Module Commands.

Import Text.
Local Open Scope string_scope.

(** What a command handler reads from its interaction: the calling member
    ([interaction.member], whose user is [interaction.user]), the three
    [target] options ([null] when not given), the result of
    [new Date().toISOString()], and the number of file operations of
    [saveData] that succeed. *)
Record interaction : Type := mkInteraction {
  member : Roles.guildMember;
  target1 : option string;
  target2 : option string;
  target3 : option string;
  now : string;
  fs_ok : nat
}.

(** The body of a [case]: a reply, or an exception on the way to it. *)
Inductive completion : Type :=
| Replied (text : string)
| ReferenceError (name : string).

(** [case 'declarewar'], bot.js 1112-1194. *)
Definition declarewar (i : interaction) (st : Storage.store)
  : completion * Storage.store :=
  let data := Roles.getPlayerDataFromMember (member i) in
  if negb (String.eqb (Roles.rank data) "Head_of_State") then
    (Replied "Only Heads of State can declare war!", st)
  else
    let targetNations := non_null [target1 i; target2 i; target3 i] in
    let targetNations := unique targetNations in
    let targetNations :=
      filter (fun t => negb (String.eqb t (Roles.nationality data))) targetNations in
    if Nat.eqb (List.length targetNations) 0 then
      (Replied "❌ You cannot declare war on your own nation! Please select at least one other nation.", st)
    else
      let ws := Storage.warState st in
      if War.active ws then
        let alreadyAtWar := filter (fun t => includes (War.targetNations ws) t) targetNations in
        let newTargets :=
          filter (fun t => negb (includes (War.targetNations ws) t)) targetNations in
        if Nat.eqb (List.length newTargets) 0 then
          (Replied ("❌ You are already at war with: " ++ display ", " alreadyAtWar), st)
        else
          let ws' :=
            War.mk (War.active ws) (War.declaredBy ws) (War.declaredAt ws)
                   (War.declaredByNation ws)
                   (War.targetNations ws ++ newTargets)
                   (War.participants ws ++ newTargets) in
          let st' := Storage.saveData (fs_ok i) (Storage.set_warState ws' st) in
          let response :=
            "🔴 **WAR EXPANDED**" ++ nl ++
            "**" ++ replace_underscores (Roles.nationality data)
                 ++ "** (Head of State: " ++ Roles.username (member i) ++ ")" ++ nl ++
            "declares war on:" ++ nl ++
            "  • " ++ display (nl ++ "  • ") newTargets ++ nl ++ nl ++
            "**All enemies:**" ++ nl ++
            "  • " ++ display (nl ++ "  • ") (War.targetNations ws') ++ nl ++ nl ++
            "POI capture and full PvP remain enabled!" in
          let response :=
            if Nat.ltb 0 (List.length alreadyAtWar) then
              response ++ nl ++ nl ++ "*Already at war with: "
                       ++ display ", " alreadyAtWar ++ "*"
            else response in
          (Replied response, st')
      else
        let ws' :=
          War.mk true (Some (Roles.username (member i))) (Some (now i))
                 (Some (Roles.nationality data))
                 targetNations
                 (Roles.nationality data :: targetNations) in
        let st' := Storage.saveData (fs_ok i) (Storage.set_warState ws' st) in
        (Replied
           ("🔴 **WAR DECLARED**" ++ nl ++
            "**" ++ replace_underscores (Roles.nationality data)
                 ++ "** (Head of State: " ++ Roles.username (member i) ++ ")" ++ nl ++
            "declares war on:" ++ nl ++
            "  • " ++ display (nl ++ "  • ") targetNations ++ nl ++ nl ++
            "POI capture and full PvP are now enabled!"),
         st').

(** [case 'declarepeace'], bot.js 1196-1269. *)
Definition declarepeace (i : interaction) (st : Storage.store)
  : completion * Storage.store :=
  let data := Roles.getPlayerDataFromMember (member i) in
  let ws := Storage.warState st in
  if negb (String.eqb (Roles.rank data) "Head_of_State") then
    (Replied "Only Heads of State can declare peace!", st)
  else if negb (War.active ws) then
    (Replied "There is no active war!", st)
  else
    let peaceTargets := non_null [target1 i; target2 i; target3 i] in
    let peaceTargets := unique peaceTargets in
    let invalidTargets :=
      filter (fun t => negb (includes (War.targetNations ws) t)
                       && negb (is_str (War.declaredByNation ws) t)) peaceTargets in
    if Nat.ltb 0 (List.length invalidTargets) then
      (Replied ("❌ You are not at war with: " ++ display ", " invalidTargets), st)
    else
      let validPeaceTargets :=
        filter (fun t => includes (War.targetNations ws) t
                         || is_str (War.declaredByNation ws) t) peaceTargets in
      if Nat.eqb (List.length validPeaceTargets) 0 then
        (Replied "❌ You must specify at least one nation you are currently at war with!", st)
      else
        let targetNations :=
          filter (fun t => negb (includes validPeaceTargets t)) (War.targetNations ws) in
        let participants :=
          filter (fun p => negb (includes validPeaceTargets p)
                           || is_str (War.declaredByNation ws) p) (War.participants ws) in
        let peaceDisplay := display ", " validPeaceTargets in
        if Nat.eqb (List.length targetNations) 0 then
          let ws' := War.mk false None None None targetNations [] in
          let st' := Storage.saveData (fs_ok i) (Storage.set_warState ws' st) in
          (Replied
             ("🟢 **PEACE DECLARED**" ++ nl ++
              replace_underscores (Roles.nationality data)
                ++ " has made peace with: " ++ peaceDisplay ++ nl ++ nl ++
              "The war has ended." ++ nl ++
              "POI capture disabled. Movement still allowed."),
           st')
        else
          let ws' :=
            War.mk (War.active ws) (War.declaredBy ws) (War.declaredAt ws)
                   (War.declaredByNation ws) targetNations participants in
          let st' := Storage.saveData (fs_ok i) (Storage.set_warState ws' st) in
          (Replied
             ("🟡 **PARTIAL PEACE DECLARED**" ++ nl ++
              replace_underscores (Roles.nationality data)
                ++ " has made peace with: " ++ peaceDisplay ++ nl ++ nl ++
              "War continues with: " ++ display ", " targetNations ++ nl ++
              "POI capture still enabled."),
           st').

(** [case 'linkidentity'], bot.js 1094-1110.  The template of the reply
    reads [s_mNationalityToFaction], an identifier the script never
    declares: evaluating it throws a ReferenceError before
    [interaction.reply] is called. *)
Definition linkidentity (identityId : string) (i : interaction) (st : Storage.store)
  : completion * Storage.store :=
  let m := member i in
  let pd := Players.ensure (Roles.id m) (Storage.playerData st) in
  let pd := update (Roles.id m) (Players.set_steamId (Some identityId)) pd in
  let pd := update (Roles.id m) (Players.set_discordId (Some (Roles.id m))) pd in
  let pd := update (Roles.id m) (Players.set_username (Some (Roles.username m))) pd in
  let data := Roles.getPlayerDataFromMember m in
  let pd := update (Roles.id m) (Players.set_nationality (Some (Roles.nationality data))) pd in
  let pd := update (Roles.id m) (Players.set_rank (Some (Roles.rank data))) pd in
  let st' := Storage.saveData (fs_ok i) (Storage.set_playerData pd st) in
  (ReferenceError "s_mNationalityToFaction", st').

Inductive command : Type :=
| Declarewar
| Declarepeace
| Linkidentity (identityid : string).

(** The handler of [interactionCreate] for these commands (bot.js 899-906
    and 1379-1382): the text the user is answered with, and the state
    left. *)
Definition interactionCreate (c : command) (i : interaction) (st : Storage.store)
  : string * Storage.store :=
  let (done, st') :=
    match c with
    | Declarewar => declarewar i st
    | Declarepeace => declarepeace i st
    | Linkidentity identityid => linkidentity identityid i st
    end in
  match done with
  | Replied text => (text, st')
  | ReferenceError _ => ("An error occurred!", st')
  end.

End Commands.

(** ** GET /api/player/:identifier (bot.js 1402-1456) *)

Module Api.

Inductive response : Type :=
| NotFound (searchedFor : string)   (* status 404 *)
| Json (p : Players.player).        (* status 200 *)

(** [Object.entries(playerData).find(([discordId, p]) => p.steamId === id)] *)
Definition find_entry (id : string) (pd : Players.t) : option (string * Players.player) :=
  find (fun entry => is_str (Players.steamId (snd entry)) id) pd.

(** The handler.  [guild] is [None] when the guild is not in the client's
    cache, and else the members [guild.members.fetch] finds: a member that
    is not among them makes the fetch reject.  Nothing inside the [try] of
    bot.js 1423-1450 throws on these values, so its [catch] is not
    reached. *)
Definition get_player (guild : option (list Roles.guildMember)) (id : string)
  (pd : Players.t) : response :=
  match find_entry id pd with
  | None => NotFound id
  | Some (discordId, storedData) =>
      match guild with
      | None => Json storedData
      | Some members =>
          match find (fun m => String.eqb (Roles.id m) discordId) members with
          | None => Json storedData
          | Some m =>
              let freshData := Roles.getPlayerDataFromMember m in
              Json (Players.mkPlayer (Some discordId) (Some (Roles.username m))
                      (Some (Roles.nationality freshData))
                      (Some (Roles.rank freshData))
                      (Players.steamId storedData))
          end
      end
  end.

End Api.

(** ** The fields of the embed, with their text (bot.js 585-628) *)

Module Embed.

Import Text.
Local Open Scope string_scope.

(** An argument of [embed.addFields]. *)
Record field : Type := mkField { name : string; value : string; inline : bool }.

(** The array index a property key stands for: a canonical decimal numeral
    below 2^32 - 1.  An object lists such keys first, in ascending order,
    and its other string keys after them in the order of their creation. *)
Definition array_index (key : string) : option N :=
  match NilZero.uint_of_string key with
  | Some digits =>
      let n := N.of_uint digits in
      if String.eqb (NilZero.string_of_uint (N.to_uint n)) key && N.ltb n 4294967295
      then Some n
      else None
  | None => None
  end.

(** [obj[key] = v] for a key the object does not have yet. *)
Fixpoint add_prop {A : Type} (key : string) (v : A) (obj : list (string * A))
  : list (string * A) :=
  match obj with
  | [] => [(key, v)]
  | (k, w) :: rest =>
      match array_index key, array_index k with
      | Some n, Some m =>
          if N.ltb n m then (key, v) :: obj else (k, w) :: add_prop key v rest
      | Some _, None => (key, v) :: obj
      | None, _ => (k, w) :: add_prop key v rest
      end
  end.

(** One round of the loop of bot.js 605-609.  [poiGroups] starts as [{}]:
    a type that names a member of [Object.prototype] finds that member,
    which is truthy and has no [push]. *)
Definition group_step (poiGroups : list (string * list (option string))) (poi : Base.t)
  : outcome (list (string * list (option string))) :=
  let type := or_default (Base.poiType poi) "Other" in
  match own type poiGroups with
  | Some _ =>
      Return (update type (fun names => names ++ [Base.name poi])%list poiGroups)
  | None =>
      if inherited type then Throw TypeError
      else Return (add_prop type [Base.name poi] poiGroups)
  end.

Fixpoint group_all (poiGroups : list (string * list (option string)))
  (pois : list Base.t) : outcome (list (string * list (option string))) :=
  match pois with
  | [] => Return poiGroups
  | poi :: rest =>
      match group_step poiGroups poi with
      | Return poiGroups' => group_all poiGroups' rest
      | Throw e => Throw e
      end
  end.

(** [poiGroups] after the loop of bot.js 604-609. *)
Definition poiGroups (pois : list Base.t)
  : outcome (list (string * list (option string))) :=
  group_all [] pois.

(** [names.join(', ')]: a name that is [undefined] or [null] is joined as
    the empty string. *)
Definition join_names (names : list (option string)) : string :=
  join ", " (map (fun n => match n with Some s => s | None => "" end) names).

(** [`**${label} (${names.length}):** ${names.join(', ')}\n`] *)
Definition line (label : string) (names : list (option string)) : string :=
  "**" ++ label ++ " (" ++ Summary.nat_to_string (List.length names) ++ "):** "
       ++ join_names names ++ nl.

(** [fieldValue], bot.js 590-614. *)
Definition fieldValue (data : Summary.factionData) : outcome string :=
  let fieldValue := "" in
  let fieldValue :=
    if Nat.ltb 0 (List.length (Summary.hq data))
    then fieldValue ++ line "HQ" (map Base.name (Summary.hq data))
    else fieldValue in
  let fieldValue :=
    if Nat.ltb 0 (List.length (Summary.fobs data))
    then fieldValue ++ line "FOBs" (map Base.name (Summary.fobs data))
    else fieldValue in
  if Nat.ltb 0 (List.length (Summary.pois data)) then
    match poiGroups (Summary.pois data) with
    | Throw e => Throw e
    | Return poiGroups =>
        Return (fold_left (fun text group => text ++ line (fst group ++ "s") (snd group))
                          poiGroups fieldValue)
    end
  else Return fieldValue.

(** [embed.addFields(field)].  The builder of discord.js checks the field
    against those the embed holds and throws when it refuses it, leaving the
    embed as it was.  The builder is no code of this repository: its test
    is the parameter [accepts]. *)
Inductive stop : Type :=
| Thrown (e : exn)
| Refused (f : field).

Inductive built : Type :=
| Fields (fs : list field)
| Stopped (why : stop).

Section Builder.

Variable accepts : list field -> field -> bool.

(** The loop of bot.js 585-621; [held] are the fields of the embed so
    far. *)
Fixpoint addFields (held : list field)
  (factionBases : list (string * Summary.factionData)) : built :=
  match factionBases with
  | [] => Fields held
  | (_, data) :: rest =>
      let totalBases := Summary.totalBases data in
      if Nat.eqb totalBases 0 then addFields held rest
      else
        match fieldValue data with
        | Throw e => Stopped (Thrown e)
        | Return text =>
            let f := mkField (Summary.name data ++ " - "
                                ++ Summary.nat_to_string totalBases ++ " bases")
                             (if String.eqb text "" then "No bases" else text)
                             false in
            if accepts held f then addFields (held ++ [f]) rest
            else Stopped (Refused f)
        end
  end.

(** bot.js 569-628: the fields for [territoryData.bases], added to the new
    embed. *)
Definition fields (bases : list Base.t) : built :=
  match bases with
  | [] =>
      let f := mkField "No Data" "Waiting for game server to send territory data..."
                       false in
      if accepts [] f then Fields [f] else Stopped (Refused f)
  | _ =>
      match Summary.categorize Summary.factionBases0 bases with
      | Return factionBases => addFields [] factionBases
      | Throw e => Stopped (Thrown e)
      end
  end.

End Builder.

End Embed.

(** ** The hull and the coordinate mapping over doubles
       (bot.js 232-270 and 291-381) *)

(** A JavaScript number is an IEEE 754 binary64 value: a [spec_float] with
    53 bits of precision and exponents up to 1024, signed zeros, the two
    infinities and NaN.  [-], [*] and [/] round to nearest, ties to even.
    This module holds the code whose result depends on that rounding: the
    hull, and the placement loop with the borders drawn from it. *)
Module Double.

Definition prec : Z := 53.
Definition emax : Z := 1024.

Definition number : Type := spec_float.

Definition sub : number -> number -> number := SFsub prec emax.
Definition mul : number -> number -> number := SFmul prec emax.
Definition div : number -> number -> number := SFdiv prec emax.

(** [a === b], [a <= b] and [a < b] on numbers: false when one is NaN, and
    the two zeros are equal. *)
Definition eqb : number -> number -> bool := SFeqb.
Definition leb : number -> number -> bool := SFleb.
Definition ltb : number -> number -> bool := SFltb.

Definition zero : number := S754_zero false.

(** The double nearest to [m * 2^e]; an integer literal [n] is
    [dyadic n 0]. *)
Definition dyadic (m e : Z) : number := binary_normalize prec emax m e false.

(** A number is falsy when it is [0], [-0] or NaN. *)
Definition falsy (v : number) : bool :=
  match v with
  | S754_zero _ | S754_nan => true
  | _ => false
  end.

(** *** [convexHull] (bot.js 232-270) *)

Record point : Type := mkPoint { x : number; y : number }.

(** [cross(o, a, b)], bot.js 242-244. *)
Definition cross (o a b : point) : number :=
  sub (mul (sub (x a) (x o)) (sub (y b) (y o)))
      (mul (sub (y a) (y o)) (sub (x b) (x o))).

(** The comparator handed to [sort], bot.js 236-239. *)
Definition compareFn (a b : point) : number :=
  if eqb (x a) (x b) then sub (y a) (y b) else sub (x a) (x b).

(** [points.slice().sort(compareFn)].  [sort] puts [a] after [b] when the
    comparator gives a number above 0, and takes NaN for 0.  Without a NaN
    among the coordinates the comparator is consistent, and the result is
    the stable sorted permutation, which insertion from the right builds;
    with one, the order is the engine's choice, and this model's is one
    of them. *)
Fixpoint insert_sorted (p : point) (l : list point) : list point :=
  match l with
  | [] => [p]
  | h :: t => if ltb zero (compareFn p h) then h :: insert_sorted p t else p :: l
  end.

Fixpoint sort (l : list point) : list point :=
  match l with
  | [] => []
  | h :: t => insert_sorted h (sort t)
  end.

(** The inner [while] of both loops (bot.js 249-251 and 259-261); the stack
    has its last element first. *)
Fixpoint pop_while (stack : list point) (p : point) : list point :=
  match stack with
  | t :: ((u :: _) as rest) =>
      if leb (cross u t p) zero then pop_while rest p else stack
  | _ => stack
  end.

Definition scan_step (stack : list point) (p : point) : list point :=
  p :: pop_while stack p.

Definition half_hull (pts : list point) : list point :=
  fold_left scan_step pts [].

Definition convexHull (points : list point) : list point :=
  if Nat.ltb (List.length points) 3 then points
  else
    let sorted := sort points in
    let lower := half_hull sorted in
    let upper := half_hull (rev sorted) in
    (* lower.pop(); upper.pop(); return lower.concat(upper) *)
    rev (tl lower) ++ rev (tl upper).

(** *** The placement loop and the borders of [generateMapImage]
        (bot.js 291-294 and 344-381) *)

(** A base as it arrives in [bases], with the numbers it carries.  A field
    is [None] when the property is missing ([undefined]) or [null]. *)
Module Base.
Record t : Type := mk {
  name : option string;
  x : option number;
  z : option number;
  faction : option string;
  type : option string;
  poiType : option string
}.
End Base.

Definition truthy (v : option number) : option number :=
  match v with
  | Some q => if falsy q then None else Some q
  | None => None
  end.

Definition MAP_SIZE : number := dyadic 12800 0.
Definition CANVAS_SIZE : number := dyadic 1200 0.
Definition SCALE : number := div CANVAS_SIZE MAP_SIZE.

(** [{...base, canvasX: x, canvasY: y}] *)
Record baseData : Type := mkBaseData {
  base : Base.t;
  canvasX : number;
  canvasY : number
}.

Record placement : Type := mkPlacement {
  basePositions : list baseData;
  factionBases : list (string * list point)
}.

Definition placement0 : placement :=
  mkPlacement [] [("US", []); ("USSR", []); ("FIA", [])]%string.

(** One round of the loop of bot.js 354-373. *)
Definition place_step (st : placement) (b : Base.t) : outcome placement :=
  match truthy (Base.x b), truthy (Base.z b) with
  | Some bx, Some bz =>
      let x := mul bx SCALE in
      let y := mul (sub MAP_SIZE bz) SCALE in
      let positions := (basePositions st ++ [mkBaseData b x y])%list in
      if negb (is_str (Base.faction b) "Neutral") && negb (is_str (Base.type b) "HQ")
      then
        match Base.faction b with
        | Some f =>
            match own f (factionBases st) with
            | Some _ =>
                Return (mkPlacement positions
                          (update f (fun pts => pts ++ [mkPoint x y])%list
                                  (factionBases st)))
            | None =>
                if inherited f then Throw TypeError
                else Return (mkPlacement positions (factionBases st))
            end
        | None => Return (mkPlacement positions (factionBases st))
        end
      else Return (mkPlacement positions (factionBases st))
  | _, _ => Return st (* continue *)
  end.

Fixpoint place_all (st : placement) (bases : list Base.t) : outcome placement :=
  match bases with
  | [] => Return st
  | b :: rest =>
      match place_step st b with
      | Return st' => place_all st' rest
      | Throw e => Throw e
      end
  end.

(** The border of one faction (bot.js 377-381). *)
Definition border (points : list point) : option (list point) :=
  if Nat.ltb (List.length points) 3 then None
  else
    let hull := convexHull points in
    if Nat.ltb (List.length hull) 3 then None else Some hull.

Definition borders (fb : list (string * list point)) : list (string * list point) :=
  flat_map (fun entry =>
              match border (snd entry) with
              | Some hull => [(fst entry, hull)]
              | None => []
              end) fb.

(** The borders [generateMapImage] draws, in the order of
    [Object.entries(factionBases)]. *)
Definition drawn_borders (bases : list Base.t) : outcome (list (string * list point)) :=
  match place_all placement0 bases with
  | Return st => Return (borders (factionBases st))
  | Throw e => Throw e
  end.

End Double.

(* ================================================================== *)
(** * Part II.  The vocabulary of the specification                    *)
(* ================================================================== *)

(** ** Planar geometry *)

(** Two points are the same point when their coordinates are equal
    numbers. *)
Definition peq (a b : point) : Prop := x a == x b /\ y a == y b.

(** The order the comparator sorts by: [x] first, then [y]. *)
Definition lex_le (a b : point) : Prop :=
  x a < x b \/ (x a == x b /\ y a <= y b).

(** The order a scan meets its points in: ascending for the lower chain
    ([d = true]), descending for the upper chain. *)
Definition dle (d : bool) (a b : point) : Prop :=
  if d then lex_le a b else lex_le b a.

Definition dlt (d : bool) (a b : point) : Prop := dle d a b /\ ~ peq a b.

(** All points on one line (or all the same point). *)
Definition collinear (pts : list point) : Prop :=
  forall p q r, In p pts -> In q pts -> In r pts -> cross p q r == 0.

(** [v] lies on the segment from [p] to [q], strictly inside it. *)
Definition between (p v q : point) : Prop :=
  cross p q v == 0 /\
  (x p - x v) * (x q - x v) + (y p - y v) * (y q - y v) < 0.

(** Neighbours and consecutive triples of a list. *)
Fixpoint pairs {A : Type} (l : list A) : list (A * A) :=
  match l with
  | a :: ((b :: _) as r) => (a, b) :: pairs r
  | _ => []
  end.

Fixpoint triples {A : Type} (l : list A) : list (A * A * A) :=
  match l with
  | a :: ((b :: c :: _) as r) => (a, b, c) :: triples r
  | _ => []
  end.

(** The consecutive triples of a polygon given by its vertex list, around
    the closing edge too: one triple starts at every vertex. *)
Definition cyc_triples (h : list point) : list (point * point * point) :=
  triples (h ++ firstn 2 h).

Definition pairwise_distinct (h : list point) : Prop :=
  ForallOrdPairs (fun a b => ~ peq a b) h.

(** [h] is a simple, strictly convex polygon around [pts], walked
    counter-clockwise: at least three vertices, all of them input points and
    no two the same point; a strict left turn at every vertex; every input
    point on or to the left of every edge, the closing edge included; and no
    vertex strictly inside the segment between two input points. *)
Record hull_polygon (pts h : list point) : Prop := {
  hp_size : (3 <= List.length h)%nat;
  hp_vertices : forall v, In v h -> In v pts;
  hp_distinct : pairwise_distinct h;
  hp_turns : forall a b c, In (a, b, c) (cyc_triples h) -> 0 < cross a b c;
  hp_contains : forall a b c, In (a, b, c) (cyc_triples h) ->
                forall q, In q pts -> 0 <= cross a b q;
  hp_extreme : forall v p q, In v h -> In p pts -> In q pts -> ~ between p v q
}.

(** The invariant of one scan after the points [P], in the order [d], with
    first point [p1]; the stack [st] has its top first. *)
Record scan_inv (d : bool) (p1 : point) (P st : list point) : Prop := {
  inv_sub : forall s, In s st -> In s P;
  inv_turns : forall c b a, In (c, b, a) (triples st) -> 0 < cross a b c;
  inv_edges : forall b a, In (b, a) (pairs st) ->
              forall q, In q P -> 0 <= cross a b q;
  inv_sorted : forall b a, In (b, a) (pairs st) -> dle d a b;
  inv_bottom : st <> [] /\ last st p1 = p1;
  inv_min : forall q, In q P -> dle d p1 q;
  inv_top : forall q, In q P -> dle d q (hd p1 st)
}.

(** A finished chain [W] from [f] to [l], first vertex first. *)
Record chain (d : bool) (pts : list point) (f l : point) (W : list point) : Prop := {
  ch_in : forall s, In s W -> In s pts;
  ch_turns : forall a b c, In (a, b, c) (triples W) -> 0 < cross a b c;
  ch_edges : forall a b, In (a, b) (pairs W) -> forall q, In q pts -> 0 <= cross a b q;
  ch_sorted : forall a b, In (a, b) (pairs W) -> dle d a b;
  ch_min : forall q, In q pts -> dle d f q;
  ch_max : forall q, In q pts -> dle d q l
}.

(** ** Hull-point eligibility, as the specification words it *)

(** The canvas points of the bases of [bases] that have both coordinates,
    belong to faction [f] and are no HQ, in the order of [bases]. *)
Definition eligible_points (f : string) (bases : list Base.t) : list point :=
  flat_map (fun b =>
              match truthy (Base.x b), truthy (Base.z b) with
              | Some bx, Some bz =>
                  if is_str (Base.faction b) f && negb (is_str (Base.type b) "HQ")
                  then [mkPoint (bx * Render.SCALE)
                                ((Render.MAP_SIZE - bz) * Render.SCALE)]
                  else []
              | _, _ => []
              end) bases.

Definition outcome_map {A B : Type} (f : A -> B) (o : outcome A) : outcome B :=
  match o with
  | Return a => Return (f a)
  | Throw e => Throw e
  end.

(** ** The summary *)

Definition recognized (b : Base.t) : bool :=
  is_str (Base.type b) "HQ" || is_str (Base.type b) "FOB"
  || is_str (Base.type b) "POI".


Definition field_key (fld : Summary.field) : option string :=
  match fld with
  | Summary.NoData => None
  | Summary.FactionField key _ _ _ _ _ => Some key
  end.

(** The entry a base is filed under. *)
Definition filed_under (b : Base.t) (key : string) : Prop :=
  Summary.resolve Summary.factionBases0 b = Summary.Entry key.

(** ** Snapshots *)

(** [snapshot.bases] *)
Definition bases_of (v : Ingestion.jsval) : Ingestion.jsval :=
  Ingestion.get_prop v "bases".

(** The decoded body a form parser hands over for a JSON text it could not
    read as JSON: one key, the text up to the array, whose value has one
    key, the text of the array body. *)
Definition mangled (arrayContent : string) (inner : Ingestion.jsval) : Ingestion.jsval :=
  Ingestion.JObj
    [(("{" ++ Ingestion.dquote ++ "bases" ++ Ingestion.dquote ++ ":")%string,
      Ingestion.JObj [(arrayContent, inner)])].

(** The JSON text [{"bases":[ arrayContent ]}]. *)
Definition plain_json (arrayContent : string) : string :=
  ("{" ++ Ingestion.dquote ++ "bases" ++ Ingestion.dquote ++ ":["
   ++ arrayContent ++ "]}")%string.

(** The object [factionBases] of the renderer with the three lists given. *)
Definition faction_lists (us ussr fia : list point) : list (string * list point) :=
  [("US"%string, us); ("USSR"%string, ussr); ("FIA"%string, fia)].


Definition base_at (bx bz : Q) : Base.t :=
  Base.mk (Some "Alpha"%string) (Some bx) (Some bz) (Some "US"%string)
          (Some "FOB"%string) None.

Definition unplaced_fob : Base.t :=
  Base.mk (Some "Bravo"%string) None (Some 300) (Some "US"%string)
          (Some "FOB"%string) None.

Definition neutral_poi : Base.t :=
  Base.mk (Some "Crossroads"%string) (Some 3200) (Some 4800) (Some "Neutral"%string)
          (Some "POI"%string) (Some "Town"%string).

Definition us_hq : Base.t :=
  Base.mk (Some "Main"%string) (Some 9600) (Some 1600) (Some "US"%string)
          (Some "HQ"%string) None.

Definition radio_tower : Base.t :=
  Base.mk (Some "Tower"%string) (Some 6400) (Some 6400) (Some "FIA"%string)
          (Some "Radio"%string) None.

(** The array body of the specification's example, the snapshot its JSON
    text stands for, and a stand-in for [JSON.parse] that knows this one
    text. *)
Definition alpha_body : string :=
  let q := Ingestion.dquote in
  ("{" ++ q ++ "name" ++ q ++ ":" ++ q ++ "Alpha" ++ q ++ ","
   ++ q ++ "x" ++ q ++ ":100," ++ q ++ "z" ++ q ++ ":200}")%string.

Definition alpha_snapshot : Ingestion.jsval :=
  Ingestion.JObj
    [("bases"%string,
      Ingestion.JArr
        [Ingestion.JObj [("name"%string, Ingestion.JStr "Alpha");
                         ("x"%string, Ingestion.JNum 100);
                         ("z"%string, Ingestion.JNum 200)]])].

Definition alpha_parse (text : string) : option Ingestion.jsval :=
  if String.eqb text (plain_json alpha_body) then Some alpha_snapshot else None.

Definition snapshot_A : Ingestion.jsval :=
  Ingestion.JObj
    [("bases"%string,
      Ingestion.JArr
        [Ingestion.JObj [("name"%string, Ingestion.JStr "Zulu");
                         ("x"%string, Ingestion.JNum 5);
                         ("z"%string, Ingestion.JNum 7)];
         Ingestion.JObj [("name"%string, Ingestion.JStr "Yankee")]])].

(** ** Grouping invariant of the summary *)

(** [b] is in one of the sub-lists of [d]. *)
Definition member (b : Base.t) (d : Summary.factionData) : Prop :=
  In b (Summary.hq d) \/ In b (Summary.fobs d) \/ In b (Summary.pois d).

Definition same_keys (fb : list (string * Summary.factionData)) : Prop :=
  forall k, own k fb = None <-> own k Summary.factionBases0 = None.

(** What holds of the grouping after the bases [P]: every filed base is one
    of [P], has a recognised type, and sits under the entry it resolves
    to. *)
Record grouped (P : list Base.t) (fb : list (string * Summary.factionData)) : Prop := {
  gr_keys : same_keys fb;
  gr_members : forall k d b, In (k, d) fb -> member b d ->
               In b P /\ recognized b = true /\ filed_under b k
}.

(** ** Commands and the war state *)

(** A run of commands, each with its interaction. *)
Definition run_commands (cmds : list (Commands.command * Commands.interaction))
  (st : Storage.store) : Storage.store :=
  fold_left (fun st ci => snd (Commands.interactionCreate (fst ci) (snd ci) st)) cmds st.

(** The caller of [i] is taken for a Head of State. *)
Definition head_of_state (i : Commands.interaction) : Prop :=
  Roles.rank (Roles.getPlayerDataFromMember (Commands.member i)) = "Head_of_State"%string.

(** The nations an interaction names: its non-null targets, each once. *)
Definition named (i : Commands.interaction) : list string :=
  Text.unique (Text.non_null [Commands.target1 i; Commands.target2 i; Commands.target3 i]).

(** What holds of [warState] between commands: no nation is a target twice;
    at peace the state is the initial one; at war there is a target, the
    declaring nation, user and time are set; and the participants are the
    declaring nation and the targets. *)
Record war_inv (ws : War.warState) : Prop := {
  wi_nodup : NoDup (War.targetNations ws);
  wi_peace : War.active ws = false -> ws = War.warState0;
  wi_war : War.active ws = true ->
           War.targetNations ws <> []
           /\ War.declaredBy ws <> None /\ War.declaredAt ws <> None
           /\ exists n, War.declaredByNation ws = Some n /\ In n Roles.NATIONALITIES;
  wi_participants : forall p, In p (War.participants ws) <->
                    (War.declaredByNation ws = Some p \/ In p (War.targetNations ws))
}.

(** The keys of [playerData], in order. *)
Definition player_ids (pd : Players.t) : list string := map fst pd.

(** The entry [linkidentity] leaves for its caller. *)
Definition linked (identityId : string) (m : Roles.guildMember) : Players.player :=
  let data := Roles.getPlayerDataFromMember m in
  Players.mkPlayer (Some (Roles.id m)) (Some (Roles.username m))
                   (Some (Roles.nationality data)) (Some (Roles.rank data))
                   (Some identityId).

(** ** Sample members *)

Definition president : Roles.guildMember :=
  Roles.mkMember "200000000000000001" "ike" false ["US"; "Head_of_State"]%string.

Definition premier : Roles.guildMember :=
  Roles.mkMember "200000000000000002" "nikita" false ["Head_of_State"; "USSR"]%string.

Definition recruit : Roles.guildMember :=
  Roles.mkMember "200000000000000003" "joe" false ["Private"; "Head_of_State"; "FIA"]%string.

Definition disk0 : Storage.disk :=
  Storage.mkDisk Storage.Missing Storage.Missing Storage.Missing None.

Definition store0 : Storage.store :=
  Storage.mkStore [] War.warState0 (Ingestion.JObj []) disk0.

(** ** What makes the publisher throw *)


(** The type a POI is grouped under, and whether it names a member of
    [Object.prototype]. *)
Definition poi_type (poi : Base.t) : string := or_default (Base.poiType poi) "Other".

Definition breaks_poi_type (poi : Base.t) : bool := inherited (poi_type poi).



(** A builder that refuses a field whose value is longer than 1024
    characters, and [n] FOBs of faction US. *)
Definition short_values (held : list Embed.field) (f : Embed.field) : bool :=
  Nat.leb (String.length (Embed.value f)) 1024.

Definition fobs_of_US (n : nat) : list Base.t :=
  map (fun i => Base.mk (Some ("Checkpoint " ++ Summary.nat_to_string i)%string)
                        None None (Some "US"%string) (Some "FOB"%string) None)
      (seq 1 n).

(** The base makes the render throw: it is placed, counts for a border, and
    its faction names a member of [Object.prototype]. *)
Definition breaks_render (b : Base.t) : bool :=
  match truthy (Base.x b), truthy (Base.z b), Base.faction b with
  | Some _, Some _, Some f =>
      negb (String.eqb f "Neutral") && negb (is_str (Base.type b) "HQ") && inherited f
  | _, _, _ => false
  end.

(** The faction keys of the renderer's [factionBases] are those it starts
    with. *)
Definition render_keys (st : Render.placement) : Prop :=
  forall k, own k (Render.factionBases st) = None
            <-> own k (Render.factionBases Render.placement0) = None.


(** The names of the POIs of one type, in their order. *)
Definition names_of_type (type : string) (pois : list Base.t) : list (option string) :=
  map Base.name (filter (fun poi => String.eqb (poi_type poi) type) pois).

(** No own key of [poiGroups] names a member of [Object.prototype]. *)
Definition plain_keys (groups : list (string * list (option string))) : Prop :=
  forall k, inherited k = true -> own k groups = None.

(** A bounding box with four finite sides. *)
Definition box_started (bd : Render.bounds) : Prop :=
  exists a b c d,
    bd = Render.mkBounds (Render.Finite a) (Render.Finite b) (Render.Finite c)
                         (Render.Finite d).

(** ** What the renderer draws *)

(** The marker of a base: none unless both coordinates are truthy. *)
Definition marker_of (b : Base.t) : list Render.marker :=
  match truthy (Base.x b), truthy (Base.z b) with
  | Some bx, Some bz =>
      [Render.mkMarker (Render.marker_shape b) (bx * Render.SCALE)
         ((Render.MAP_SIZE - bz) * Render.SCALE) (or_default (Base.name b) "Unknown")]
  | _, _ => []
  end.

(** [q] lies between a lower and an upper bound, both finite. *)
Definition within (lo hi : Render.bound) (q : Q) : Prop :=
  match lo, hi with
  | Render.Finite a, Render.Finite b => a <= q /\ q <= b
  | _, _ => False
  end.

(** ** Doubles and the numbers they stand for *)

(** The rational a finite double stands for. *)
Definition val (v : Double.number) : Q :=
  match v with
  | S754_finite s m e => inject_Z (cond_Zopp s (Zpos m)) * 2 ^ e
  | _ => 0
  end.

Definition pointQ (p : Double.point) : point :=
  mkPoint (val (Double.x p)) (val (Double.y p)).

(** [n * 2^e] is a double: [n] has at most 53 bits and [e] is in the range
    of the exponents. *)
Definition representable (n e : Z) : Prop :=
  (Z.abs n < 2 ^ 53 /\ -1074 <= e <= 971)%Z.

(** The exponent and the form in which that double is kept. *)
Definition fexp (k : Z) : Z := SpecFloat.fexp Double.prec Double.emax k.

Definition canon_exponent (n e : Z) : Z := fexp (Z.log2 (Z.abs n) + 1 + e).

Definition canon (n e : Z) : Double.number :=
  match n with
  | 0%Z => S754_zero false
  | _ => S754_finite (n <? 0)%Z
           (Z.to_pos (Z.abs n * 2 ^ (e - canon_exponent n e))) (canon_exponent n e)
  end.

(** [v] is the double of [n * 2^e], up to the sign of a zero. *)
Definition approx (v : Double.number) (n e : Z) : Prop :=
  match n with
  | 0%Z => exists s, v = S754_zero s
  | _ => v = canon n e
  end.

(** A mantissa on its way through the shifts of a rounding, with no bit
    lost so far. *)
Definition kept (m : Z) : shr_record :=
  {| shr_m := m; shr_r := false; shr_s := false |}.

(** *** Fixed-point coordinates *)

(** The numbers [n * 2^e] with [n] an integer of at most 25 bits: on them
    the differences, the products and the cross product of [convexHull]
    are computed without rounding. *)
Definition on_grid (e : Z) (c : Double.number) : Prop :=
  exists n : Z, (Z.abs n < 2 ^ 25)%Z /\ c = Double.dyadic n e.

Definition grid_exponent (e : Z) : Prop := (-537 <= e <= 485)%Z.

Definition grid_point (e : Z) (p : Double.point) : Prop :=
  on_grid e (Double.x p) /\ on_grid e (Double.y p).

(** The integer literal [n], and the point with integer coordinates. *)
Definition int (n : Z) : Double.number := Double.dyadic n 0.

Definition int_point (a b : Z) : Double.point := Double.mkPoint (int a) (int b).

(** Sample inputs: three points of one line, and five points around a
    triangle. *)
Definition three_on_a_line : list Double.point :=
  [int_point 0 0; int_point 1 1; int_point 2 2].


(** The decimal literal [n / 10^k], for instance [22.2] as
    [decimal 222 1]: the double nearest to it ([n] and [10^k] are below
    2^53 and so doubles themselves, and the division rounds once). *)
Definition decimal (n : Z) (k : Z) : Double.number :=
  Double.div (int n) (int (10 ^ k)).

(** Three points off a line whose hull has two vertices, and three points
    of one line whose hull has four. *)
Definition flat_triangle : list Double.point :=
  [Double.mkPoint (decimal 15 1) (decimal 375 2);
   Double.mkPoint (int 20) (int 50);
   Double.mkPoint (decimal 222 1) (decimal 555 1)].

Definition bent_line : list Double.point :=
  [Double.mkPoint (int 6) (decimal 362 1);
   Double.mkPoint (decimal 135 1) (decimal 812 1);
   Double.mkPoint (decimal 321 1) (decimal 1928 1)].

(** ** Coordinate mapping, as the specification words it *)

Definition mapper_spec (mapSize canvasSize : Double.number) (wx wz : Double.number)
  : Double.number * Double.number :=
  let scale := Double.div canvasSize mapSize in
  (Double.mul wx scale, Double.mul (Double.sub mapSize wz) scale).

(** The round of the placement loop for [b] records it at the position
    the mapping gives for [(wx, wz)]; the one way out is the TypeError of a
    faction that names a member of [Object.prototype]. *)
Definition mapped (st : Double.placement) (b : Double.Base.t) (wx wz : Double.number)
  : Prop :=
  match Double.place_step st b with
  | Return st' =>
      exists bp,
        Double.basePositions st' = (Double.basePositions st ++ [bp])%list
        /\ Double.base bp = b
        /\ (Double.canvasX bp, Double.canvasY bp)
           = mapper_spec Double.MAP_SIZE Double.CANVAS_SIZE wx wz
  | Throw _ => exists f, Double.Base.faction b = Some f /\ inherited f = true
  end.

(** The slope [canvasSize / mapSize], as the rational it is. *)
Definition slope : Q := val Double.CANVAS_SIZE / val Double.MAP_SIZE.

(** A coordinate [n * 2^-g] with at most 30 binary places and [n] of
    magnitude below 2^50: the mapping multiplies and subtracts it without
    rounding. *)
Definition fixed_point (c : Double.number) : Prop :=
  exists g n : Z, (0 <= g <= 30)%Z /\ (Z.abs n < 2 ^ 50)%Z /\ c = Double.dyadic n (- g).

(** A FOB of faction US at the integer coordinates [(bx, bz)]. *)
Definition fob_at (bx bz : Z) : Double.Base.t :=
  Double.Base.mk (Some "Alpha"%string) (Some (int bx)) (Some (int bz))
                 (Some "US"%string) (Some "FOB"%string) None.

(** ** Borders *)

Definition border_lists (us ussr fia : list Double.point)
  : list (string * list Double.point) :=
  [("US"%string, us); ("USSR"%string, ussr); ("FIA"%string, fia)].

(** The canvas points of the bases that have both coordinates, belong to
    faction [f] and are no HQ, in the order of [bases]. *)
Definition border_points (f : string) (bases : list Double.Base.t) : list Double.point :=
  flat_map (fun b =>
              match Double.truthy (Double.Base.x b), Double.truthy (Double.Base.z b) with
              | Some bx, Some bz =>
                  if is_str (Double.Base.faction b) f && negb (is_str (Double.Base.type b) "HQ")
                  then [Double.mkPoint (Double.mul bx Double.SCALE)
                          (Double.mul (Double.sub Double.MAP_SIZE bz) Double.SCALE)]
                  else []
              | _, _ => []
              end) bases.

(** A coordinate of the map given in steps of 1/512: [n / 512] with
    [0 <= n <= 12800 * 512]. *)
Definition map_coordinate (c : Double.number) : Prop :=
  exists n : Z, (0 <= n <= 6553600)%Z /\ c = Double.dyadic n (-9).

(** Every coordinate the base carries is one. *)
Definition on_the_map (b : Double.Base.t) : Prop :=
  (forall c, Double.Base.x b = Some c -> map_coordinate c)
  /\ (forall c, Double.Base.z b = Some c -> map_coordinate c).

(** Three US bases that span a triangle. *)
Definition triangle_bases : list Double.Base.t :=
  [fob_at 100 200; fob_at 6400 200; fob_at 100 6400].

(** Three US bases at (5829.9, 9517), (5873.2, 9564.6) and
    (6869.1, 10659.4). *)
Definition flat_bases : list Double.Base.t :=
  map (fun c => Double.Base.mk (Some "Alpha"%string) (Some (fst c)) (Some (snd c))
                               (Some "US"%string) (Some "FOB"%string) None)
      [(decimal 58299 1, int 9517); (decimal 58732 1, decimal 95646 1);
       (decimal 68691 1, decimal 106594 1)].

(** *** Rounding *)

(** [k] is the integer nearest to [N / T], the even one of the two when
    both are as near. *)
Definition nearest (k N T : Z) : Prop :=
  ((2 * k - 1) * T <= 2 * N <= (2 * k + 1) * T)%Z
  /\ (2 * N = (2 * k + 1) * T -> Z.even k = true)%Z
  /\ (2 * N = (2 * k - 1) * T -> Z.even k = true)%Z.

(** A finite double in the form the operations return: a zero, or a
    mantissa with the exponent that belongs to it. *)
Definition regular (v : Double.number) : Prop :=
  match v with
  | S754_zero _ => True
  | S754_finite _ m e => bounded Double.prec Double.emax m e = true
  | _ => False
  end.

(** The integer [n] and the exponent [e] with [v = n * 2^e]. *)
Definition signed_mantissa (v : Double.number) : Z :=
  match v with
  | S754_finite s m _ => cond_Zopp s (Zpos m)
  | _ => 0%Z
  end.

Definition exponent (v : Double.number) : Z :=
  match v with
  | S754_finite _ _ e => e
  | _ => 0%Z
  end.

(** The double nearest to [n * 2^e]. *)
Definition rounded (n e : Z) : Double.number :=
  binary_normalize Double.prec Double.emax n e false.

(** [M * 2^E] is below the overflow: under 2^1024 - 2^970, half-way from
    the largest double to 2^1024. *)
Definition below (M E : Z) : Prop :=
  (Z.log2 M + 1 + E <= 1023
   \/ (Z.log2 M + 1 + E = 1024
       /\ 2 * (M * 2 ^ (E - Z.min E 971)) < (2 ^ 54 - 1) * 2 ^ (971 - Z.min E 971)))%Z.

(** ** Proof automation *)

Ltac geo := unfold dle, lex_le, peq, cross in *.

Ltac split_lex :=
  repeat match goal with
  | H : _ \/ _ |- _ => destruct H as [H|H]
  | H : _ /\ _ |- _ => destruct H
  end.

(* ================================================================== *)
(** * Part III.  Proofs                                                *)
(* ================================================================== *)

(** ** The hull *)

Lemma dle_refl d a : dle d a a.
Proof. destruct d; geo; right; split; lra. Qed.

Lemma dle_total d a b : dle d a b \/ dle d b a.
Proof.
  destruct d; geo;
  (destruct (Qlt_le_dec (x a) (x b)); [tauto|];
   destruct (Qlt_le_dec (x b) (x a)); [tauto|];
   destruct (Qlt_le_dec (y a) (y b));
     first [left; right; split; lra | right; right; split; lra]).
Qed.

Lemma dle_trans d a b c : dle d a b -> dle d b c -> dle d a c.
Proof.
  destruct d; geo; intros; split_lex;
    first [left; lra | right; split; lra].
Qed.

Lemma dle_antisym d a b : dle d a b -> dle d b a -> peq a b.
Proof. destruct d; geo; intros; split_lex; split; lra. Qed.

Lemma dle_peq_l d a a' b : peq a a' -> dle d a b -> dle d a' b.
Proof.
  destruct d; geo; intros; split_lex;
    first [left; lra | right; split; lra].
Qed.

Lemma compareFn_le a b : Qle_bool (compareFn a b) 0 = true <-> lex_le a b.
Proof.
  unfold compareFn, lex_le. rewrite Qle_bool_iff.
  destruct (Qeq_bool (x a) (x b)) eqn:E.
  - apply Qeq_bool_iff in E. split; intros; [right; split; lra | split_lex; lra].
  - apply Qeq_bool_neq in E. split; intros.
    + left. destruct (Qlt_le_dec (x a) (x b)); [assumption|]. exfalso. apply E. lra.
    + split_lex; lra.
Qed.

Lemma insert_sorted_In p l q : In q (insert_sorted p l) <-> q = p \/ In q l.
Proof.
  induction l as [|h t IH]; simpl.
  - intuition.
  - destruct (Qle_bool (compareFn p h) 0); simpl; rewrite ?IH; intuition.
Qed.

Lemma sort_In l q : In q (sort l) <-> In q l.
Proof.
  induction l as [|h t IH]; simpl; [tauto|].
  rewrite insert_sorted_In, IH. intuition.
Qed.

Lemma insert_sorted_length p l : length (insert_sorted p l) = S (length l).
Proof.
  induction l as [|h t IH]; simpl; [reflexivity|].
  destruct (Qle_bool (compareFn p h) 0); simpl; congruence.
Qed.

Lemma sort_length l : length (sort l) = length l.
Proof.
  induction l as [|h t IH]; simpl; [reflexivity|].
  rewrite insert_sorted_length. congruence.
Qed.

Lemma insert_sorted_sorted p l :
  StronglySorted lex_le l -> StronglySorted lex_le (insert_sorted p l).
Proof.
  induction 1 as [|h t Ht IH Hh]; simpl.
  - constructor; constructor.
  - destruct (Qle_bool (compareFn p h) 0) eqn:E.
    + apply compareFn_le in E. constructor.
      * constructor; assumption.
      * constructor; [assumption|].
        rewrite Forall_forall in *. intros q Hq.
        apply (dle_trans true p h q E (Hh q Hq)).
    + constructor; [assumption|].
      rewrite Forall_forall in *. intros q Hq.
      apply insert_sorted_In in Hq. destruct Hq as [->|Hq]; [|auto].
      destruct (dle_total true p h) as [H|H]; [|exact H].
      apply compareFn_le in H. congruence.
Qed.

Lemma sort_sorted l : StronglySorted lex_le (sort l).
Proof.
  induction l; simpl; [constructor|]. now apply insert_sorted_sorted.
Qed.

(* ---------- windows ---------- *)
Section Windows.
Context {A : Type}.
Implicit Types l : list A.

Lemma pairs_mid l1 a b l2 : In (a, b) (pairs (l1 ++ a :: b :: l2)).
Proof.
  induction l1 as [|h t IH]; simpl; [now left|].
  destruct (t ++ a :: b :: l2) eqn:E; [destruct t; discriminate|].
  right. exact IH.
Qed.

Lemma pairs_In l a b : In (a, b) (pairs l) -> exists l1 l2, l = l1 ++ a :: b :: l2.
Proof.
  induction l as [|h t IH]; simpl; [tauto|].
  destruct t as [|h' t']; [simpl; tauto|].
  intros [E|H].
  - inversion E; subst. now exists [], t'.
  - destruct (IH H) as (l1 & l2 & ->). now exists (h :: l1), l2.
Qed.

Lemma triples_mid l1 a b c l2 : In (a, b, c) (triples (l1 ++ a :: b :: c :: l2)).
Proof.
  induction l1 as [|h t IH]; simpl; [now left|].
  destruct (t ++ a :: b :: c :: l2) as [|h1 [|h2 r]] eqn:E.
  - destruct t; discriminate.
  - destruct t as [|? [|? ?]]; discriminate.
  - right. exact IH.
Qed.

Lemma triples_In l a b c :
  In (a, b, c) (triples l) -> exists l1 l2, l = l1 ++ a :: b :: c :: l2.
Proof.
  induction l as [|h t IH]; simpl; [tauto|].
  destruct t as [|h1 [|h2 t']]; [simpl; tauto..|].
  intros [E|H].
  - inversion E; subst. now exists [], t'.
  - destruct (IH H) as (l1 & l2 & ->). now exists (h :: l1), l2.
Qed.

Lemma pairs_app_r l1 l2 w : In w (pairs l2) -> In w (pairs (l1 ++ l2)).
Proof.
  destruct w as [a b]. intros H. apply pairs_In in H as (k1 & k2 & ->).
  rewrite app_assoc. apply pairs_mid.
Qed.

Lemma triples_app_r l1 l2 w : In w (triples l2) -> In w (triples (l1 ++ l2)).
Proof.
  destruct w as [[a b] c]. intros H. apply triples_In in H as (k1 & k2 & ->).
  rewrite app_assoc. apply triples_mid.
Qed.

Lemma pairs_rev l a b : In (a, b) (pairs (rev l)) -> In (b, a) (pairs l).
Proof.
  intros H. apply pairs_In in H as (k1 & k2 & E).
  apply (f_equal (@rev A)) in E. rewrite rev_involutive in E. subst l.
  rewrite rev_app_distr. simpl. rewrite <- !app_assoc. simpl. apply pairs_mid.
Qed.

Lemma triples_rev l a b c : In (a, b, c) (triples (rev l)) -> In (c, b, a) (triples l).
Proof.
  intros H. apply triples_In in H as (k1 & k2 & E).
  apply (f_equal (@rev A)) in E. rewrite rev_involutive in E. subst l.
  rewrite rev_app_distr. simpl. rewrite <- !app_assoc. simpl. apply triples_mid.
Qed.

Lemma pairs_In_l l a b : In (a, b) (pairs l) -> In a l.
Proof. intros H. apply pairs_In in H as (k1 & k2 & ->). apply in_elt. Qed.

Lemma pairs_In_r l a b : In (a, b) (pairs l) -> In b l.
Proof.
  intros H. apply pairs_In in H as (k1 & k2 & ->).
  apply in_or_app. right. simpl. tauto.
Qed.
End Windows.

(* ---------- the pop loop ---------- *)
Lemma pop_while_suffix st p : exists popped, st = popped ++ pop_while st p.
Proof.
  induction st as [|t r IH]; [now exists []|].
  simpl. destruct r as [|u r']; [now exists []|].
  destruct (Qle_bool (cross u t p) 0).
  - destruct IH as [k E]. exists (t :: k). simpl. now f_equal.
  - now exists [].
Qed.

Lemma pop_while_nonempty st p : st <> [] -> pop_while st p <> [].
Proof.
  induction st as [|t r IH]; [congruence|].
  intros _. simpl. destruct r as [|u r']; [discriminate|].
  destruct (Qle_bool (cross u t p) 0); [apply IH|]; discriminate.
Qed.

Lemma pop_while_last st p d : last (pop_while st p) d = last st d.
Proof.
  induction st as [|t r IH]; [reflexivity|].
  simpl pop_while. destruct r as [|u r']; [reflexivity|].
  destruct (Qle_bool (cross u t p) 0); [|reflexivity].
  rewrite IH. reflexivity.
Qed.

Lemma pop_while_exit st p t u r :
  pop_while st p = t :: u :: r -> 0 < cross u t p.
Proof.
  induction st as [|t0 r0 IH]; [discriminate|].
  simpl. destruct r0 as [|u0 r0']; [discriminate|].
  destruct (Qle_bool (cross u0 t0 p) 0) eqn:E; [exact IH|].
  intros H; inversion H; subst.
  destruct (Qlt_le_dec 0 (cross u t p)) as [L|L]; [exact L|].
  apply Qle_bool_iff in L. congruence.
Qed.

(* ---------- geometry of turns ---------- *)
Lemma turn_extend d a b c e :
  dle d a b -> dle d b c -> dle d c e ->
  0 < cross a b c -> 0 < cross b c e -> 0 < cross a b e.
Proof. destruct d; geo; intros; split_lex; nra. Qed.

Lemma edge_back d u t p q :
  dle d u t -> dle d t p -> dle d q t ->
  0 <= cross u t q -> 0 < cross u t p -> 0 <= cross t p q.
Proof. destruct d; geo; intros; split_lex; nra. Qed.

Lemma edge_pop d u t p q :
  dle d u t -> dle d u q -> dle d t p ->
  0 <= cross u t q -> cross u t p <= 0 ->
  (dle d t q -> 0 <= cross t p q) ->
  0 <= cross u p q.
Proof.
  intros Hut Huq Htp H1 H2 HJ.
  destruct (Qeq_dec (x u) (x t)) as [Ex|Ex]; [destruct (Qeq_dec (y u) (y t)) as [Ey|Ey]|].
  - assert (dle d t q) as Htq
      by (destruct d; geo; split_lex; first [left; nra | right; split; nra]).
    specialize (HJ Htq). geo. nra.
  - clear HJ. destruct d; geo; split_lex; nra.
  - clear HJ. destruct d; geo; split_lex; nra.
Qed.

Lemma cross_self_r a p : cross a p p == 0.
Proof. unfold cross. ring. Qed.

(* ---------- the scan invariant ---------- *)

Lemma scan_inv_init d p1 : scan_inv d p1 [p1] [p1].
Proof.
  constructor; simpl; try tauto.
  - split; [discriminate|reflexivity].
  - intros q [<-|[]]. apply dle_refl.
  - intros q [<-|[]]. apply dle_refl.
Qed.

Lemma pop_while_front d P st p :
  (forall b a, In (b, a) (pairs st) -> forall q, In q P -> 0 <= cross a b q) ->
  (forall b a, In (b, a) (pairs st) -> dle d a b) ->
  (forall s, In s st -> dle d s p) ->
  (forall q, In q P -> dle d (hd p st) q -> 0 <= cross (hd p st) p q) ->
  forall q, In q P -> dle d (hd p (pop_while st p)) q ->
            0 <= cross (hd p (pop_while st p)) p q.
Proof.
  induction st as [|t r IH]; intros He Hs Hp HJ; [exact HJ|].
  simpl pop_while. destruct r as [|u r']; [exact HJ|].
  destruct (Qle_bool (cross u t p) 0) eqn:E; [|exact HJ].
  apply Qle_bool_iff in E.
  apply IH.
  - intros b a Hin. apply He. simpl. right. exact Hin.
  - intros b a Hin. apply Hs. simpl. right. exact Hin.
  - intros s Hin. apply Hp. now right.
  - simpl. intros q Hq Huq.
    apply (edge_pop d u t p q); [ | exact Huq | | | exact E | ].
    + apply Hs. simpl. now left.
    + apply Hp. now left.
    + apply He; [simpl; now left|exact Hq].
    + intros Htq. apply (HJ q Hq Htq).
Qed.

Lemma chain_left d st p :
  (forall c b a, In (c, b, a) (triples st) -> 0 < cross a b c) ->
  (forall b a, In (b, a) (pairs st) -> dle d a b) ->
  (forall s, In s st -> dle d s p) ->
  (forall t u r, st = t :: u :: r -> 0 < cross u t p) ->
  forall b a, In (b, a) (pairs st) -> 0 < cross a b p.
Proof.
  induction st as [|t r IH]; intros Ht Hs Hp Hx b a Hin; [destruct Hin|].
  destruct r as [|u r']; [destruct Hin|].
  simpl in Hin. destruct Hin as [E|Hin].
  - inversion E; subst. eapply Hx; reflexivity.
  - apply IH; [ | | | | exact Hin].
    + intros c b' a' H. apply Ht. apply (triples_app_r [t]). exact H.
    + intros b' a' H. apply Hs. simpl. right. exact H.
    + intros s H. apply Hp. now right.
    + intros u0 v r0 E. inversion E; subst.
      apply (turn_extend d v u0 t p).
      * apply Hs. simpl. right. now left.
      * apply Hs. simpl. now left.
      * apply Hp. now left.
      * apply Ht. simpl. now left.
      * eapply Hx; reflexivity.
Qed.

Lemma scan_inv_step d p1 P st p :
  scan_inv d p1 P st -> (forall q, In q P -> dle d q p) ->
  scan_inv d p1 (P ++ [p]) (scan_step st p).
Proof.
  intros I Hp. unfold scan_step.
  destruct (pop_while_suffix st p) as [popped Est].
  pose proof (pop_while_nonempty st p (proj1 (inv_bottom _ _ _ _ I))) as Hne.
  pose proof (pop_while_last st p p1) as Hlast.
  pose proof (pop_while_exit st p) as Hexit.
  assert (Hsub : forall s, In s (pop_while st p) -> In s st)
    by (intros s Hs; rewrite Est; apply in_or_app; now right).
  assert (Hpairs : forall w, In w (pairs (pop_while st p)) -> In w (pairs st))
    by (intros w Hw; rewrite Est; now apply pairs_app_r).
  assert (Htriples : forall w, In w (triples (pop_while st p)) -> In w (triples st))
    by (intros w Hw; rewrite Est; now apply triples_app_r).
  assert (Hstp : forall s, In s st -> dle d s p)
    by (intros s Hs; apply Hp; apply (inv_sub _ _ _ _ I); exact Hs).
  assert (HJ : forall q, In q P -> dle d (hd p (pop_while st p)) q ->
                         0 <= cross (hd p (pop_while st p)) p q).
  { apply (pop_while_front d P st p).
    - apply (inv_edges _ _ _ _ I).
    - apply (inv_sorted _ _ _ _ I).
    - exact Hstp.
    - intros q Hq Hle.
      assert (peq (hd p st) q) as [E1 E2].
      { apply (dle_antisym d); [exact Hle|].
        destruct st as [|t r]; [destruct (proj1 (inv_bottom _ _ _ _ I)); reflexivity|].
        simpl. apply (inv_top _ _ _ _ I q Hq). }
      unfold cross. nra. }
  assert (Hleft : forall b a, In (b, a) (pairs (pop_while st p)) -> 0 < cross a b p).
  { apply (chain_left d).
    - intros c b a H. apply (inv_turns _ _ _ _ I). now apply Htriples.
    - intros b a H. apply (inv_sorted _ _ _ _ I). now apply Hpairs.
    - intros s H. apply Hstp. now apply Hsub.
    - intros t u r E. apply (Hexit t u r E). }
  destruct (pop_while st p) as [|t r] eqn:Epop; [congruence|].
  constructor.
  - intros s [<-|Hs]; apply in_or_app; [right; now left|left].
    apply (inv_sub _ _ _ _ I). now apply Hsub.
  - intros c b a Hin. destruct r as [|u r']; [destruct Hin|].
    simpl in Hin. destruct Hin as [E|Hin].
    + inversion E; subst. apply (Hexit b a r'). reflexivity.
    + apply (inv_turns _ _ _ _ I). apply Htriples. exact Hin.
  - intros b a Hin q Hq. simpl in Hin. destruct Hin as [E|Hin].
    + inversion E; subst b a. apply in_app_or in Hq. destruct Hq as [Hq|[<-|[]]].
      * destruct (dle_total d t q) as [Htq|Hqt]; [apply (HJ q Hq Htq)|].
        destruct r as [|u r'].
        -- apply (HJ q Hq). simpl in Hlast. simpl.
           rewrite Hlast, (proj2 (inv_bottom _ _ _ _ I)).
           apply (inv_min _ _ _ _ I q Hq).
        -- apply (edge_back d u t p q).
           ++ apply (inv_sorted _ _ _ _ I). apply Hpairs. simpl. now left.
           ++ apply Hstp. apply Hsub. now left.
           ++ exact Hqt.
           ++ apply (inv_edges _ _ _ _ I); [apply Hpairs; simpl; now left|exact Hq].
           ++ apply (Hexit t u r'). reflexivity.
      * rewrite cross_self_r. lra.
    + apply in_app_or in Hq. destruct Hq as [Hq|[<-|[]]].
      * apply (inv_edges _ _ _ _ I); [apply Hpairs; exact Hin|exact Hq].
      * apply Qlt_le_weak. apply Hleft. exact Hin.
  - intros b a Hin. simpl in Hin. destruct Hin as [E|Hin].
    + inversion E; subst b a. apply Hstp. apply Hsub. now left.
    + apply (inv_sorted _ _ _ _ I). apply Hpairs. exact Hin.
  - split; [discriminate|].
    change (last (p :: t :: r) p1) with (last (t :: r) p1).
    rewrite Hlast. apply (proj2 (inv_bottom _ _ _ _ I)).
  - intros q Hq. apply in_app_or in Hq. destruct Hq as [Hq|[<-|[]]].
    + apply (inv_min _ _ _ _ I q Hq).
    + apply Hp. apply (inv_sub _ _ _ _ I).
      rewrite <- (proj2 (inv_bottom _ _ _ _ I)).
      clear - I. destruct I as [_ _ _ _ [Hn _] _ _].
      induction st as [|s0 [|s1 st0] IH]; [congruence|now left|].
      right. apply IH. discriminate.
  - simpl. intros q Hq. apply in_app_or in Hq. destruct Hq as [Hq|[<-|[]]].
    + now apply Hp.
    + apply dle_refl.
Qed.

Lemma cross_peq_zero a b c : peq a b -> cross c a b == 0 /\ cross a b c == 0 /\ cross a c b == 0.
Proof. geo. intros [? ?]. repeat split; nra. Qed.

(* points on one line through two distinct points *)
Lemma line_collinear a m p q r :
  ~ peq a m -> cross a m p == 0 -> cross a m q == 0 -> cross a m r == 0 ->
  cross p q r == 0.
Proof.
  geo. intros Hn Hp Hq Hr.
  set (T := (x q - x p) * (y r - y p) - (y q - y p) * (x r - x p)).
  assert (E1 : (x m - x a) * (y r - y p) == (y m - y a) * (x r - x p)) by lra.
  assert (E2 : (x m - x a) * (y q - y p) == (y m - y a) * (x q - x p)) by lra.
  assert (Ex : (x m - x a) * T == 0).
  { transitivity ((x q - x p) * ((x m - x a) * (y r - y p))
                  - ((x m - x a) * (y q - y p)) * (x r - x p)); [unfold T; ring|].
    rewrite E1, E2. ring. }
  assert (Ey : (y m - y a) * T == 0).
  { transitivity (((y m - y a) * (x q - x p)) * (y r - y p)
                  - (y q - y p) * ((y m - y a) * (x r - x p))); [unfold T; ring|].
    rewrite <- E1, <- E2. ring. }
  apply Qmult_integral in Ex. apply Qmult_integral in Ey.
  destruct Ex as [Ex|Ex]; [|exact Ex]. destruct Ey as [Ey|Ey]; [|exact Ey].
  exfalso. apply Hn. split; lra.
Qed.

Lemma junction_flat d a m c q :
  dle d a m -> dle d c m -> ~ peq a m -> ~ peq c m ->
  cross a m c == 0 -> 0 <= cross a m q -> 0 <= cross m c q ->
  cross a m q == 0.
Proof.
  intros H1 H2 N1 N2 H0 Ha Hc.
  assert (I1 : (x m - x a) * cross m c q
               == (x c - x m) * cross a m q - (x q - x m) * cross a m c)
    by (unfold cross; ring).
  assert (I2 : (y m - y a) * cross m c q
               == (y c - y m) * cross a m q - (y q - y m) * cross a m c)
    by (unfold cross; ring).
  rewrite H0 in I1, I2.
  remember (cross a m q) as A. remember (cross m c q) as C.
  unfold cross in H0. clear HeqA HeqC.
  destruct d; unfold dle, lex_le, peq in *; split_lex; try nra.
Qed.

Lemma corner_extreme a v c p q :
  0 < cross a v c ->
  0 <= cross a v p -> 0 <= cross a v q ->
  0 <= cross v c p -> 0 <= cross v c q ->
  ~ between p v q.
Proof.
  unfold between. intros T Hap Haq Hcp Hcq [Hl Hd].
  set (N := (x p - x v) * (x p - x v) + (y p - y v) * (y p - y v)).
  remember ((x p - x v) * (x q - x v) + (y p - y v) * (y q - y v)) as D eqn:ED.
  assert (IA : cross a v q * N
               == cross a v p * D
                  + ((x v - x a) * (x p - x v) + (y v - y a) * (y p - y v)) * cross p q v)
    by (subst D; unfold N, cross; ring).
  assert (IC : cross v c q * N
               == cross v c p * D
                  + ((x c - x v) * (x p - x v) + (y c - y v) * (y p - y v)) * cross p q v)
    by (subst D; unfold N, cross; ring).
  assert (IX : cross a v c * (x p - x v)
               == cross a v p * (x c - x v) - cross v c p * (x v - x a))
    by (unfold cross; ring).
  assert (IY : cross a v c * (y p - y v)
               == cross a v p * (y c - y v) - cross v c p * (y v - y a))
    by (unfold cross; ring).
  rewrite Hl in IA, IC.
  assert (HN : 0 <= N)
    by (unfold N; generalize (x p - x v) (y p - y v); intros; nra).
  assert (A0 : cross a v p == 0) by nra.
  assert (C0 : cross v c p == 0) by nra.
  rewrite A0, C0 in IX, IY.
  assert (X0 : x p - x v == 0) by nra.
  assert (Y0 : y p - y v == 0) by nra.
  assert (D0 : D == 0) by (subst D; rewrite X0, Y0; ring).
  lra.
Qed.

Lemma mul_same_sign u w :
  (0 <= u /\ 0 <= w) \/ (u <= 0 /\ w <= 0) -> 0 <= u * w.
Proof. intros [[? ?]|[? ?]]; nra. Qed.

Lemma mul_opposite_sign u w :
  (0 < u /\ w < 0) \/ (u < 0 /\ 0 < w) -> u * w < 0.
Proof. intros [[? ?]|[? ?]]; nra. Qed.

Lemma corner_right d f l a v c :
  dle d a v -> dle d v c -> dle d f v -> dle d v l ->
  ~ peq f v -> ~ peq v l ->
  0 < cross a v c ->
  0 <= cross a v f -> 0 <= cross a v l ->
  0 <= cross v c f -> 0 <= cross v c l ->
  cross f l v < 0.
Proof.
  intros Hav Hvc Hfv Hvl Nf Nl T Haf Hal Hcf Hcl.
  assert (ID : (x c - x v) * (x l - x v) * cross a v f
               + (x a - x v) * (x f - x v) * cross v c l
               == (x c - x v) * (x a - x v) * cross f l v
                  + (x l - x v) * (x f - x v) * cross a v c)
    by (unfold cross; ring).
  assert (S1 : 0 <= (x c - x v) * (x l - x v))
    by (apply mul_same_sign; destruct d; unfold dle, lex_le in *; split_lex;
        first [left; split; lra | right; split; lra]).
  assert (S2 : 0 <= (x a - x v) * (x f - x v))
    by (apply mul_same_sign; destruct d; unfold dle, lex_le in *; split_lex;
        first [left; split; lra | right; split; lra]).
  pose proof (Qmult_le_0_compat _ _ S1 Haf) as P1.
  pose proof (Qmult_le_0_compat _ _ S2 Hcl) as P2.
  destruct d; unfold dle, lex_le, peq in *; split_lex;
    first
      [ (* the four neighbours differ in x: the products decide *)
        lazymatch type of Hav with (_ < _) => idtac end;
        lazymatch type of Hvc with (_ < _) => idtac end;
        lazymatch type of Hfv with (_ < _) => idtac end;
        lazymatch type of Hvl with (_ < _) => idtac end;
        assert (K1 : (x c - x v) * (x a - x v) < 0)
          by (apply mul_opposite_sign; first [left; split; lra | right; split; lra]);
        assert (K2 : (x l - x v) * (x f - x v) < 0)
          by (apply mul_opposite_sign; first [left; split; lra | right; split; lra]);
        clear - ID P1 P2 T K1 K2;
        generalize dependent (cross f l v); generalize dependent (cross a v c);
        generalize dependent (cross a v f); generalize dependent (cross v c l);
        generalize dependent ((x c - x v) * (x a - x v));
        generalize dependent ((x l - x v) * (x f - x v));
        generalize dependent ((x c - x v) * (x l - x v));
        generalize dependent ((x a - x v) * (x f - x v));
        intros; nra
      | (* a vertical edge or a vertical sight line *)
        clear ID S1 S2 P1 P2; unfold cross in *; nra ].
Qed.

(* ---------- sorted lists ---------- *)
Section SortedLists.
Context {A : Type} (R : A -> A -> Prop).

Lemma ss_app_mid l1 a l2 :
  StronglySorted R (l1 ++ a :: l2) -> forall q, In q l1 -> R q a.
Proof.
  induction l1 as [|h t IH]; simpl; intros H q Hq; [destruct Hq|].
  apply StronglySorted_inv in H as [Ht Hh].
  destruct Hq as [<-|Hq]; [|now apply IH].
  rewrite Forall_forall in Hh. apply Hh. apply in_elt.
Qed.

Lemma ss_app_l l1 l2 : StronglySorted R (l1 ++ l2) -> StronglySorted R l1.
Proof.
  induction l1 as [|h t IH]; simpl; intros H; [constructor|].
  apply StronglySorted_inv in H as [Ht Hh]. constructor; [now apply IH|].
  rewrite Forall_forall in *. intros q Hq. apply Hh. apply in_or_app. now left.
Qed.

Lemma ss_snoc l a :
  StronglySorted R l -> (forall q, In q l -> R q a) -> StronglySorted R (l ++ [a]).
Proof.
  induction 1 as [|h t Ht IH Hh]; simpl; intros Ha.
  - constructor; constructor.
  - constructor; [apply IH; intros; apply Ha; now right|].
    rewrite Forall_forall in *. intros q Hq. apply in_app_or in Hq.
    destruct Hq as [Hq|[<-|[]]]; [now apply Hh|apply Ha; now left].
Qed.

Lemma pairs_ss l :
  (forall a b c, R a b -> R b c -> R a c) ->
  (forall a b, In (a, b) (pairs l) -> R a b) -> StronglySorted R l.
Proof.
  intros Tr. induction l as [|h t IH]; intros H; [constructor|].
  assert (St : StronglySorted R t).
  { apply IH. intros a b Hab. apply H. now apply (pairs_app_r [h]). }
  constructor; [exact St|].
  destruct t as [|h' t']; [constructor|].
  assert (Hhh : R h h') by (apply H; simpl; now left).
  apply StronglySorted_inv in St as [_ Hh'].
  constructor; [exact Hhh|].
  rewrite Forall_forall in *. intros q Hq. apply (Tr h h' q Hhh). now apply Hh'.
Qed.

Lemma ss_fop l : StronglySorted R l -> ForallOrdPairs R l.
Proof. induction 1; constructor; assumption. Qed.

Lemma fop_app l1 l2 :
  ForallOrdPairs R l1 -> ForallOrdPairs R l2 ->
  (forall a b, In a l1 -> In b l2 -> R a b) -> ForallOrdPairs R (l1 ++ l2).
Proof.
  induction 1 as [|h t Hh Ht IH]; simpl; intros H2 Hc; [exact H2|].
  constructor.
  - rewrite Forall_forall in *. intros q Hq. apply in_app_or in Hq.
    destruct Hq as [Hq|Hq]; [now apply Hh|apply Hc; [now left|exact Hq]].
  - apply IH; [exact H2|]. intros a b Ha Hb. apply Hc; [now right|exact Hb].
Qed.

Lemma fop_impl (S : A -> A -> Prop) l :
  (forall a b, R a b -> S a b) -> ForallOrdPairs R l -> ForallOrdPairs S l.
Proof.
  intros HRS. induction 1 as [|h t Hh Ht IH]; constructor; [|exact IH].
  rewrite Forall_forall in *. auto.
Qed.
End SortedLists.

Lemma ss_rev {A : Type} (R : A -> A -> Prop) l :
  StronglySorted R l -> StronglySorted (fun a b => R b a) (rev l).
Proof.
  induction 1 as [|h t Ht IH Hh]; simpl; [constructor|].
  apply ss_snoc; [exact IH|].
  rewrite Forall_forall in Hh. intros q Hq. apply Hh. now apply in_rev.
Qed.

(* ---------- folding the scan ---------- *)
Lemma scan_inv_fold d p1 rest : forall P st,
  scan_inv d p1 P st -> StronglySorted (dle d) (P ++ rest) ->
  scan_inv d p1 (P ++ rest) (fold_left scan_step rest st).
Proof.
  induction rest as [|p rest IH]; intros P st I S; simpl.
  - rewrite app_nil_r. exact I.
  - replace (P ++ p :: rest) with ((P ++ [p]) ++ rest) in *
      by (rewrite <- app_assoc; reflexivity).
    apply IH; [|exact S].
    apply scan_inv_step; [exact I|].
    apply (ss_app_mid (dle d) P p rest).
    rewrite <- app_assoc in S. exact S.
Qed.

Lemma half_hull_inv d p1 rest :
  StronglySorted (dle d) (p1 :: rest) ->
  scan_inv d p1 (p1 :: rest) (half_hull (p1 :: rest)).
Proof.
  intros S. unfold half_hull. simpl.
  apply (scan_inv_fold d p1 rest [p1] [p1]); [apply scan_inv_init|exact S].
Qed.

Lemma fold_scan_top rest : forall st p,
  exists r, fold_left scan_step (rest ++ [p]) st = p :: r /\
            (st <> [] \/ rest <> [] -> r <> []).
Proof.
  intros st p. rewrite fold_left_app. simpl. unfold scan_step at 1.
  eexists; split; [reflexivity|].
  intros H. apply pop_while_nonempty.
  destruct rest as [|q rest' _] using rev_ind.
  - simpl. destruct H; congruence.
  - rewrite fold_left_app. simpl. discriminate.
Qed.

(* ---------- a finished chain, first vertex first ---------- *)

Lemma rev_last_cons (r : list point) d p1 :
  r <> [] -> last r d = p1 -> exists M, rev r = p1 :: M.
Proof.
  intros Hne Hl. rewrite (app_removelast_last d Hne), Hl, rev_app_distr.
  simpl. eauto.
Qed.

Lemma half_hull_chain d pts p1 mid pn :
  StronglySorted (dle d) (p1 :: mid ++ [pn]) ->
  (forall q, In q pts <-> In q (p1 :: mid ++ [pn])) ->
  exists M, rev (tl (half_hull (p1 :: mid ++ [pn]))) = p1 :: M /\
            chain d pts p1 pn (p1 :: M ++ [pn]).
Proof.
  intros S Hpts.
  pose proof (half_hull_inv d p1 (mid ++ [pn]) S) as I.
  destruct (fold_scan_top (p1 :: mid) [] pn) as (r & Er & Hr).
  change (fold_left scan_step ((p1 :: mid) ++ [pn]) [])
    with (half_hull (p1 :: mid ++ [pn])) in Er.
  rewrite Er in *. simpl tl.
  assert (Hne : r <> []) by (apply Hr; right; discriminate).
  destruct (inv_bottom _ _ _ _ I) as [_ Hl].
  assert (Hl' : last r p1 = p1) by (destruct r; [congruence|exact Hl]).
  destruct (rev_last_cons r p1 p1 Hne Hl') as [M EM].
  exists M. split; [exact EM|].
  assert (EW : p1 :: M ++ [pn] = rev (pn :: r)) by (simpl; rewrite EM; reflexivity).
  rewrite EW. constructor.
  - intros s Hs. apply Hpts. apply (inv_sub _ _ _ _ I). now apply in_rev.
  - intros a b c H. apply (inv_turns _ _ _ _ I). now apply triples_rev.
  - intros a b H q Hq. apply (inv_edges _ _ _ _ I); [now apply pairs_rev|now apply Hpts].
  - intros a b H. apply (inv_sorted _ _ _ _ I). now apply pairs_rev.
  - intros q Hq. apply (inv_min _ _ _ _ I). now apply Hpts.
  - intros q Hq. apply (inv_top _ _ _ _ I q). now apply Hpts.
Qed.

Lemma dlt_trans d a b c : dlt d a b -> dlt d b c -> dlt d a c.
Proof.
  unfold dlt. intros [H1 N1] [H2 N2]. split; [eapply dle_trans; eauto|].
  intros E. apply N1. apply (dle_antisym d); [exact H1|].
  apply (dle_trans d b c a H2).
  destruct E as [E1 E2]. destruct d; geo; right; split; lra.
Qed.

Lemma dle_negb d a b : dle (negb d) a b <-> dle d b a.
Proof. destruct d; simpl; tauto. Qed.

Lemma dle_peq_r d a b b' : peq b b' -> dle d a b -> dle d a b'.
Proof.
  destruct d; geo; intros; split_lex;
    first [left; lra | right; split; lra].
Qed.

Lemma triples_pairs {A : Type} (l : list A) a b c :
  In (a, b, c) (triples l) -> In (a, b) (pairs l) /\ In (b, c) (pairs l).
Proof.
  intros H. apply triples_In in H as (l1 & l2 & ->). split.
  - apply pairs_mid.
  - replace (l1 ++ a :: b :: c :: l2) with ((l1 ++ [a]) ++ b :: c :: l2)
      by (rewrite <- app_assoc; reflexivity).
    apply pairs_mid.
Qed.

Lemma peq_sym a b : peq a b -> peq b a.
Proof. unfold peq. intros [? ?]; split; lra. Qed.

Lemma all_peq_collinear pts a :
  (forall q, In q pts -> peq a q) -> collinear pts.
Proof.
  intros H p q r Hp Hq Hr.
  destruct (H p Hp), (H q Hq), (H r Hr). unfold cross. nra.
Qed.

Section Chain.
Variables (d : bool) (pts : list point) (f l : point) (M : list point).
Hypothesis C : chain d pts f l (f :: M ++ [l]).
Hypothesis NC : ~ collinear pts.

Lemma chain_strict a b : In (a, b) (pairs (f :: M ++ [l])) -> ~ peq a b.
Proof.
  intros Hin E.
  destruct (pairs_In _ _ _ Hin) as (l1 & l2 & EW).
  destruct l2 as [|c l2].
  - destruct l1 as [|z l1 _] using rev_ind.
    + (* the chain is [a; b] *)
      simpl in EW. injection EW as Ef EM.
      assert (b = l) as El.
      { destruct M as [|m M']; simpl in EM; [now inversion EM|].
        inversion EM. destruct M'; discriminate. }
      subst a b. apply NC. apply (all_peq_collinear pts f).
      intros q Hq. apply (dle_antisym d); [apply (ch_min _ _ _ _ _ C q Hq)|].
      apply (dle_peq_r d q l f); [now apply peq_sym|].
      apply (ch_max _ _ _ _ _ C q Hq).
    + assert (T : 0 < cross z a b).
      { apply (ch_turns _ _ _ _ _ C). rewrite EW, <- app_assoc. apply triples_mid. }
      destruct (cross_peq_zero a b z E) as (Z & _). lra.
  - assert (T : 0 < cross a b c).
    { apply (ch_turns _ _ _ _ _ C). rewrite EW. apply triples_mid. }
    destruct (cross_peq_zero a b c E) as (_ & Z & _). lra.
Qed.

Lemma chain_lt a b : In (a, b) (pairs (f :: M ++ [l])) -> dlt d a b.
Proof.
  intros H. split; [apply (ch_sorted _ _ _ _ _ C a b H)|apply chain_strict, H].
Qed.

Lemma chain_ss : StronglySorted (dlt d) (f :: M ++ [l]).
Proof. apply pairs_ss; [apply dlt_trans|apply chain_lt]. Qed.

Lemma chain_before_last v : In v (f :: M) -> dlt d v l.
Proof.
  intros Hv. apply (ss_app_mid (dlt d) (f :: M) l []); [|exact Hv].
  simpl. apply chain_ss.
Qed.

Lemma chain_after_first v : In v (M ++ [l]) -> dlt d f v.
Proof.
  intros Hv. pose proof chain_ss as S.
  apply StronglySorted_inv in S as [_ S]. rewrite Forall_forall in S. now apply S.
Qed.

Lemma chain_interior v : In v M -> cross f l v < 0.
Proof.
  intros Hv.
  destruct (in_split _ _ Hv) as (m1 & m2 & EM).
  assert (exists a c, In (a, v, c) (triples (f :: M ++ [l]))) as (a & c & Ht).
  { destruct m1 as [|z m1 _] using rev_ind.
    - exists f. destruct m2 as [|c m2]; subst M; simpl; eauto.
    - exists z. subst M.
      destruct m2 as [|c m2]; [exists l|exists c];
        rewrite <- !app_assoc; simpl;
        apply (triples_mid (f :: m1)). }
  destruct (triples_pairs _ _ _ _ Ht) as [Hav Hvc].
  assert (Hf : In f pts) by (apply (ch_in _ _ _ _ _ C); now left).
  assert (Hl : In l pts)
    by (apply (ch_in _ _ _ _ _ C); right; apply in_or_app; right; now left).
  assert (Hvp : In v pts)
    by (apply (ch_in _ _ _ _ _ C); right; apply in_or_app; now left).
  destruct (chain_before_last v (or_intror Hv)) as [_ Nvl].
  destruct (chain_after_first v (in_or_app _ _ _ (or_introl Hv))) as [_ Nfv].
  apply (corner_right d f l a v c).
  - apply (ch_sorted _ _ _ _ _ C _ _ Hav).
  - apply (ch_sorted _ _ _ _ _ C _ _ Hvc).
  - apply (ch_min _ _ _ _ _ C _ Hvp).
  - apply (ch_max _ _ _ _ _ C _ Hvp).
  - exact Nfv.
  - exact Nvl.
  - apply (ch_turns _ _ _ _ _ C _ _ _ Ht).
  - apply (ch_edges _ _ _ _ _ C _ _ Hav _ Hf).
  - apply (ch_edges _ _ _ _ _ C _ _ Hav _ Hl).
  - apply (ch_edges _ _ _ _ _ C _ _ Hvc _ Hf).
  - apply (ch_edges _ _ _ _ _ C _ _ Hvc _ Hl).
Qed.
End Chain.

Lemma triples_split {A : Type} (X : list A) m Y t :
  In t (triples (X ++ m :: Y)) ->
  In t (triples (X ++ [m])) \/ In t (triples (m :: Y)) \/
  exists X' a c Y', X = X' ++ [a] /\ Y = c :: Y' /\ t = (a, m, c).
Proof.
  induction X as [|a X IH]; simpl; [tauto|].
  destruct X as [|b X].
  - simpl. destruct Y as [|c Y']; [simpl; tauto|].
    intros [<-|H]; [|tauto].
    right; right. exists [], a, c, Y'. auto.
  - change ((b :: X) ++ m :: Y) with (b :: X ++ m :: Y) in *.
    change ((b :: X) ++ [m]) with (b :: X ++ [m]) in *.
    destruct (X ++ m :: Y) as [|c0 r0] eqn:E0; [destruct X; discriminate|].
    destruct (X ++ [m]) as [|c1 r1] eqn:E1; [destruct X; discriminate|].
    assert (c0 = c1) as <-.
    { destruct X; simpl in *; congruence. }
    intros [<-|H]; [left; now left|].
    destruct (IH H) as [H1|[H2|(X' & a' & c & Y' & EX & EY & Et)]].
    + left. right. exact H1.
    + right; left; exact H2.
    + right; right. exists (a :: X'), a', c, Y'. rewrite EX. auto.
Qed.

Lemma cyc_middle (h : list point) v :
  (2 <= length h)%nat -> In v h -> exists a c, In (a, v, c) (cyc_triples h).
Proof.
  intros Hlen Hv. unfold cyc_triples.
  destruct (in_split _ _ Hv) as (l1 & l2 & ->).
  destruct l1 as [|a l1 _] using rev_ind.
  - simpl app at 1. destruct l2 as [|b l2 _] using rev_ind; [simpl in Hlen; lia|].
    exists b. simpl firstn.
    destruct (l2 ++ [b]) as [|c r] eqn:E; [destruct l2; discriminate|].
    exists c. rewrite <- E.
    replace (v :: (l2 ++ [b]) ++ [v; c]) with ((v :: l2) ++ b :: v :: c :: [])
      by (simpl; rewrite <- app_assoc; reflexivity).
    apply triples_mid.
  - exists a.
    destruct (l2 ++ firstn 2 ((l1 ++ [a]) ++ v :: l2)) as [|c r] eqn:E.
    + apply app_eq_nil in E as [-> E]. destruct l1; discriminate.
    + exists c. rewrite <- !app_assoc. simpl. rewrite <- !app_assoc in E. simpl in E.
      rewrite E. apply triples_mid.
Qed.

Lemma cross_flip f l v : cross l f v == - cross f l v.
Proof. unfold cross. ring. Qed.

Lemma cross_peq_3 f l a b : peq a b -> cross f l a == cross f l b.
Proof. unfold peq, cross. intros [E1 E2]. rewrite E1, E2. reflexivity. Qed.

Section Junction.
Variables (d : bool) (pts : list point) (f l : point) (M1 M2 : list point).
Hypothesis C1 : chain d pts f l (f :: M1 ++ [l]).
Hypothesis C2 : chain (negb d) pts l f (l :: M2 ++ [f]).
Hypothesis NC : ~ collinear pts.

Lemma junction_turn a c :
  In (a, l) (pairs (f :: M1 ++ [l])) -> In (l, c) (pairs (l :: M2 ++ [f])) ->
  0 < cross a l c.
Proof.
  intros Ha Hc.
  assert (Hcp : In c pts) by (apply (ch_in _ _ _ _ _ C2); eapply pairs_In_r; eauto).
  assert (Hap : In a pts) by (apply (ch_in _ _ _ _ _ C1); eapply pairs_In_l; eauto).
  assert (Hlp : In l pts) by (apply (ch_in _ _ _ _ _ C2); now left).
  pose proof (ch_edges _ _ _ _ _ C1 _ _ Ha) as Ea.
  pose proof (ch_edges _ _ _ _ _ C2 _ _ Hc) as Ec.
  destruct (Qlt_le_dec 0 (cross a l c)) as [L|L]; [exact L|exfalso].
  assert (Z : cross a l c == 0) by (pose proof (Ea c Hcp); lra).
  pose proof (chain_strict d pts f l M1 C1 NC a l Ha) as Nal.
  pose proof (chain_strict (negb d) pts l f M2 C2 NC l c Hc) as Nlc.
  assert (Flat : forall q, In q pts -> cross a l q == 0).
  { intros q Hq. apply (junction_flat d a l c q).
    - apply (ch_sorted _ _ _ _ _ C1 _ _ Ha).
    - apply dle_negb. apply (ch_sorted _ _ _ _ _ C2 _ _ Hc).
    - exact Nal.
    - intros E. apply Nlc. now apply peq_sym.
    - exact Z.
    - now apply Ea.
    - now apply Ec. }
  apply NC. intros p q r Hp Hq Hr.
  apply (line_collinear a l p q r Nal); now apply Flat.
Qed.

Lemma two_chains_size : M1 <> [] \/ M2 <> [].
Proof.
  destruct M1 as [|m1 M1']; [|left; discriminate].
  destruct M2 as [|m2 M2']; [|right; discriminate].
  exfalso.
  pose proof (ch_edges _ _ _ _ _ C1 f l (or_introl eq_refl)) as E1.
  pose proof (ch_edges _ _ _ _ _ C2 l f (or_introl eq_refl)) as E2.
  pose proof (chain_strict d pts f l [] C1 NC f l (or_introl eq_refl)) as Nfl.
  apply NC. intros p q r Hp Hq Hr.
  apply (line_collinear f l p q r Nfl);
    match goal with |- cross f l ?z == 0 =>
      pose proof (E1 z ltac:(assumption)); pose proof (E2 z ltac:(assumption));
      pose proof (cross_flip f l z); lra end.
Qed.

Lemma two_chains_apart a b : In a (f :: M1) -> In b (l :: M2) -> ~ peq a b.
Proof.
  intros Ha Hb E.
  destruct (chain_before_last d pts f l M1 C1 NC a Ha) as [_ Nal].
  destruct (chain_before_last (negb d) pts l f M2 C2 NC b Hb) as [_ Nbf].
  destruct Ha as [<-|Ha]; [apply Nbf; now apply peq_sym|].
  destruct Hb as [<-|Hb]; [now apply Nal|].
  pose proof (chain_interior d pts f l M1 C1 NC a Ha) as Ia.
  pose proof (chain_interior (negb d) pts l f M2 C2 NC b Hb) as Ib.
  rewrite cross_flip in Ib. rewrite (cross_peq_3 f l a b E) in Ia. lra.
Qed.
End Junction.

Section Polygon.
Variables (d : bool) (pts : list point) (f l : point) (M1 M2 : list point).
Hypothesis C1 : chain d pts f l (f :: M1 ++ [l]).
Hypothesis C2 : chain (negb d) pts l f (l :: M2 ++ [f]).
Hypothesis NC : ~ collinear pts.

Lemma chain_corner d' f' l' W a b c :
  chain d' pts f' l' W -> In (a, b, c) (triples W) ->
  0 < cross a b c /\ (forall q, In q pts -> 0 <= cross a b q)
  /\ (forall q, In q pts -> 0 <= cross b c q).
Proof.
  intros C H. destruct (triples_pairs _ _ _ _ H) as [Hab Hbc].
  repeat split.
  - apply (ch_turns _ _ _ _ _ C _ _ _ H).
  - apply (ch_edges _ _ _ _ _ C _ _ Hab).
  - apply (ch_edges _ _ _ _ _ C _ _ Hbc).
Qed.

Lemma polygon_corner a b c :
  In (a, b, c) (cyc_triples ((f :: M1) ++ l :: M2)) ->
  0 < cross a b c /\ (forall q, In q pts -> 0 <= cross a b q)
  /\ (forall q, In q pts -> 0 <= cross b c q).
Proof.
  unfold cyc_triples.
  assert (exists r1 K, M1 ++ [l] = r1 :: K) as (r1 & K & EK)
    by (destruct M1; simpl; eauto).
  assert (E2 : firstn 2 ((f :: M1) ++ l :: M2) = [f; r1]).
  { simpl. f_equal. destruct M1 as [|m M1']; simpl in *; [|destruct M1']; congruence. }
  rewrite E2, <- app_assoc. simpl app at 2.
  assert (C1' : chain (negb (negb d)) pts f l (f :: M1 ++ [l]))
    by (rewrite negb_involutive; exact C1).
  assert (Hfr : In (f, r1) (pairs (f :: M1 ++ [l]))) by (rewrite EK; now left).
  intros H. apply triples_split in H.
  destruct H as [H|[H|(X' & a' & c' & Y' & EX & EY & Et)]].
  - apply (chain_corner d f l _ a b c C1 H).
  - change (l :: M2 ++ [f; r1]) with ((l :: M2) ++ f :: [r1]) in H.
    apply triples_split in H.
    destruct H as [H|[H|(X' & a' & c' & Y' & EX & EY & Et)]].
    + apply (chain_corner (negb d) l f _ a b c C2 H).
    + destruct H.
    + injection EY as <- _. injection Et as -> -> ->.
      assert (Haf : In (a', f) (pairs (l :: M2 ++ [f]))).
      { change (l :: M2 ++ [f]) with ((l :: M2) ++ [f]).
        rewrite EX, <- app_assoc. apply pairs_mid. }
      repeat split.
      * apply (junction_turn (negb d) pts l f M2 M1 C2 C1' NC a' r1 Haf Hfr).
      * apply (ch_edges _ _ _ _ _ C2 _ _ Haf).
      * apply (ch_edges _ _ _ _ _ C1 _ _ Hfr).
  - injection Et as -> -> ->.
    assert (Hal : In (a', l) (pairs (f :: M1 ++ [l]))).
    { change (f :: M1 ++ [l]) with ((f :: M1) ++ [l]).
      rewrite EX, <- app_assoc. apply pairs_mid. }
    assert (Hlc : In (l, c') (pairs (l :: M2 ++ [f]))).
    { destruct M2 as [|m M2']; simpl in EY; injection EY as -> _; now left. }
    repeat split.
    + apply (junction_turn d pts f l M1 M2 C1 C2 NC a' c' Hal Hlc).
    + apply (ch_edges _ _ _ _ _ C1 _ _ Hal).
    + apply (ch_edges _ _ _ _ _ C2 _ _ Hlc).
Qed.

Lemma chain_prefix_distinct d' f' l' M :
  chain d' pts f' l' (f' :: M ++ [l']) -> pairwise_distinct (f' :: M).
Proof.
  intros C. apply (fop_impl (dlt d')); [intros a b [_ N]; exact N|].
  apply ss_fop. apply (ss_app_l (dlt d') (f' :: M) [l']).
  apply (chain_ss d' pts f' l' M C NC).
Qed.

Lemma two_chains_polygon : hull_polygon pts ((f :: M1) ++ l :: M2).
Proof.
  assert (Hlen : (3 <= length ((f :: M1) ++ l :: M2))%nat).
  { rewrite length_app. simpl.
    destruct (two_chains_size d pts f l M1 M2 C1 C2 NC) as [H|H];
      [destruct M1|destruct M2]; simpl; try congruence; lia. }
  constructor.
  - exact Hlen.
  - intros v Hv. apply in_app_or in Hv. destruct Hv as [Hv|Hv].
    + apply (ch_in _ _ _ _ _ C1). change (In v ((f :: M1) ++ [l])).
      apply in_or_app. now left.
    + apply (ch_in _ _ _ _ _ C2). change (In v ((l :: M2) ++ [f])).
      apply in_or_app. now left.
  - apply fop_app.
    + apply (chain_prefix_distinct d f l M1 C1).
    + apply (chain_prefix_distinct (negb d) l f M2 C2).
    + apply (two_chains_apart d pts f l M1 M2 C1 C2 NC).
  - intros a b c H. apply (polygon_corner a b c H).
  - intros a b c H. apply (polygon_corner a b c H).
  - intros v p q Hv Hp Hq.
    destruct (cyc_middle ((f :: M1) ++ l :: M2) v ltac:(lia) Hv) as (a & c & H).
    destruct (polygon_corner a v c H) as (T & Ea & Ec).
    apply (corner_extreme a v c p q T); auto.
Qed.
End Polygon.

Lemma list_ends (l : list point) :
  (2 <= length l)%nat -> exists a mid b, l = a :: mid ++ [b].
Proof.
  destruct l as [|a r]; simpl; [lia|]. intros H.
  destruct r as [|b r _] using rev_ind; [simpl in H; lia|].
  now exists a, r, b.
Qed.

(** ** The hull of a collinear input *)

Lemma pop_while_flat (pts st : list point) (p : point) :
  collinear pts -> In p pts -> (forall s, In s st -> In s pts) ->
  (1 <= List.length st <= 2)%nat -> List.length (pop_while st p) = 1%nat.
Proof.
  intros Hc Hp Hs Hlen.
  destruct st as [|t [|u [|w r]]]; simpl in Hlen; try lia; [reflexivity|].
  simpl. assert (E : Qle_bool (cross u t p) 0 = true).
  { apply Qle_bool_iff. rewrite (Hc u t p); [lra| | |exact Hp]; apply Hs; simpl; tauto. }
  rewrite E. reflexivity.
Qed.

Lemma fold_scan_flat (pts : list point) : forall l st,
  collinear pts -> (forall s, In s l -> In s pts) -> (forall s, In s st -> In s pts) ->
  (1 <= List.length st <= 2)%nat -> l <> [] ->
  List.length (fold_left scan_step l st) = 2%nat.
Proof.
  induction l as [|p l IH]; intros st Hc Hl Hs Hlen Hne; [congruence|].
  simpl. pose proof (pop_while_flat pts st p Hc (Hl p (or_introl eq_refl)) Hs Hlen) as E.
  assert (Hs' : forall s, In s (scan_step st p) -> In s pts).
  { intros s [<-|H]; [apply Hl; now left|].
    destruct (pop_while_suffix st p) as [k Ek]. apply Hs. rewrite Ek.
    apply in_or_app. now right. }
  destruct l as [|q l'].
  - simpl. unfold scan_step. simpl. now rewrite E.
  - apply IH; [exact Hc| |exact Hs'| |discriminate].
    + intros s H. apply Hl. now right.
    + unfold scan_step. simpl. rewrite E. lia.
Qed.

Lemma half_hull_flat (pts l : list point) :
  collinear pts -> (forall s, In s l -> In s pts) -> (2 <= List.length l)%nat ->
  List.length (half_hull l) = 2%nat.
Proof.
  intros Hc Hl Hlen. destruct l as [|p l]; simpl in Hlen; [lia|].
  unfold half_hull. simpl.
  apply (fold_scan_flat pts); [exact Hc| | | |].
  - intros s H. apply Hl. now right.
  - intros s [<-|[]]. apply Hl. now left.
  - simpl. lia.
  - destruct l; simpl in Hlen; [lia|discriminate].
Qed.

(** In exact arithmetic, on three or more points of one line (or three or
    more copies of one point) every third point is popped again: the result
    has two vertices. *)
Lemma hull_of_line pts :
  (3 <= List.length pts)%nat -> collinear pts -> List.length (convexHull pts) = 2%nat.
Proof.
  intros Hlen Hc. unfold convexHull.
  destruct (Nat.ltb_spec (List.length pts) 3) as [L|_]; [lia|].
  assert (H1 : List.length (half_hull (sort pts)) = 2%nat).
  { apply (half_hull_flat pts); [exact Hc| |rewrite sort_length; lia].
    intros s. apply sort_In. }
  assert (H2 : List.length (half_hull (rev (sort pts))) = 2%nat).
  { apply (half_hull_flat pts); [exact Hc| |rewrite length_rev, sort_length; lia].
    intros s H. apply sort_In. now apply in_rev. }
  rewrite length_app, !length_rev.
  destruct (half_hull (sort pts)) as [|? [|? [|]]]; try discriminate.
  destruct (half_hull (rev (sort pts))) as [|? [|? [|]]]; try discriminate.
  reflexivity.
Qed.

(** ** Claims about the hull *)

(** In exact arithmetic, the hull of three or more points that are not all
    on one line is a simple, strictly convex polygon around them. *)
Lemma hull_of_spread pts :
  (3 <= List.length pts)%nat -> ~ collinear pts -> hull_polygon pts (convexHull pts).
Proof.
  intros Hlen NC. unfold convexHull.
  destruct (Nat.ltb_spec (List.length pts) 3) as [L|_]; [lia|].
  destruct (list_ends (sort pts)) as (p1 & mid & pn & ES);
    [rewrite sort_length; lia|].
  pose proof (sort_sorted pts) as SS. rewrite ES in *.
  assert (Hin : forall q, In q pts <-> In q (p1 :: mid ++ [pn]))
    by (intros q; rewrite <- ES; symmetry; apply sort_In).
  destruct (half_hull_chain true pts p1 mid pn SS Hin) as (M1 & E1 & C1).
  assert (ER : rev (p1 :: mid ++ [pn]) = pn :: rev mid ++ [p1])
    by (simpl; rewrite rev_app_distr; reflexivity).
  rewrite ER.
  assert (SR : StronglySorted (dle false) (pn :: rev mid ++ [p1]))
    by (rewrite <- ER; apply (ss_rev lex_le); exact SS).
  assert (Hin' : forall q, In q pts <-> In q (pn :: rev mid ++ [p1]))
    by (intros q; rewrite <- ER, <- in_rev; apply Hin).
  destruct (half_hull_chain false pts pn (rev mid) p1 SR Hin') as (M2 & E2 & C2).
  rewrite E1, E2.
  apply (two_chains_polygon true pts p1 pn M1 M2 C1 C2 NC).
Qed.

(** C8: an input of fewer than three points is returned unchanged. *)
Theorem C8_convexHull_degenerate points :
  (List.length points < 3)%nat -> convexHull points = points.
Proof.
  intros H. unfold convexHull.
  destruct (Nat.ltb_spec (List.length points) 3) as [_|L]; [reflexivity|lia].
Qed.

Lemma C8_convexHull_degenerate_witness :
  (List.length [mkPoint 5 1; mkPoint 0 0] < 3)%nat
  /\ convexHull [mkPoint 5 1; mkPoint 0 0] = [mkPoint 5 1; mkPoint 0 0].
Proof.
  split; [simpl; lia|]. apply C8_convexHull_degenerate. simpl. lia.
Defined.

(** ** The placement loop *)


Lemma truthy_zero (v : option Q) q : v = Some q -> q == 0 -> truthy v = None.
Proof.
  intros -> E. simpl. apply Qeq_bool_iff in E. now rewrite E.
Qed.

Lemma truthy_some (v : option Q) q : v = Some q -> ~ q == 0 -> truthy v = Some q.
Proof.
  intros -> N. simpl. destruct (Qeq_bool q 0) eqn:E; [|reflexivity].
  apply Qeq_bool_iff in E. contradiction.
Qed.

Lemma place_step_skip st b :
  truthy (Base.x b) = None \/ truthy (Base.z b) = None ->
  Render.place_step st b = Return st.
Proof.
  unfold Render.place_step. intros [E|E]; rewrite E; [reflexivity|].
  destruct (truthy (Base.x b)); reflexivity.
Qed.

Lemma bounds_step_skip bd b :
  truthy (Base.x b) = None \/ truthy (Base.z b) = None ->
  Render.bounds_step bd b = bd.
Proof.
  unfold Render.bounds_step. intros [E|E]; rewrite E; [reflexivity|].
  destruct (truthy (Base.x b)); reflexivity.
Qed.

Lemma place_all_app st l1 l2 :
  Render.place_all st (l1 ++ l2) =
  match Render.place_all st l1 with
  | Return st' => Render.place_all st' l2
  | Throw e => Throw e
  end.
Proof.
  revert st. induction l1 as [|b l1 IH]; intros st; simpl; [reflexivity|].
  destruct (Render.place_step st b); [apply IH|reflexivity].
Qed.

Lemma generateMapImage_skip b l1 l2 :
  truthy (Base.x b) = None \/ truthy (Base.z b) = None ->
  Render.generateMapImage (l1 ++ b :: l2) = Render.generateMapImage (l1 ++ l2).
Proof.
  intros H. unfold Render.generateMapImage.
  rewrite !fold_left_app. simpl. rewrite (bounds_step_skip _ b H).
  rewrite !place_all_app. destruct (Render.place_all Render.placement0 l1); [|reflexivity].
  simpl. rewrite (place_step_skip _ b H). reflexivity.
Qed.

(** What a round of the loop does for a base with both coordinates. *)
Lemma place_step_placed st b bx bz :
  truthy (Base.x b) = Some bx -> truthy (Base.z b) = Some bz ->
  match Render.place_step st b with
  | Return st' =>
      Render.basePositions st' =
      (Render.basePositions st
       ++ [Render.mkBaseData b (bx * Render.SCALE)
                             ((Render.MAP_SIZE - bz) * Render.SCALE)])%list
  | Throw _ =>
      exists f, Base.faction b = Some f /\ inherited f = true
  end.
Proof.
  intros Ex Ez. unfold Render.place_step. rewrite Ex, Ez.
  destruct (negb (is_str (Base.faction b) "Neutral")
            && negb (is_str (Base.type b) "HQ")); [|reflexivity].
  destruct (Base.faction b) as [f|]; [|reflexivity].
  destruct (own f (Render.factionBases st)); [reflexivity|].
  destruct (inherited f) eqn:E; [eauto|reflexivity].
Qed.

Lemma place_step_positions_grow st b st' :
  Render.place_step st b = Return st' ->
  exists more, Render.basePositions st' = (Render.basePositions st ++ more)%list.
Proof.
  unfold Render.place_step.
  destruct (truthy (Base.x b)) as [bx|];
    [destruct (truthy (Base.z b)) as [bz|]|];
    try (intros E; injection E as <-; exists []; now rewrite app_nil_r).
  intros E.
  exists [Render.mkBaseData b (bx * Render.SCALE) ((Render.MAP_SIZE - bz) * Render.SCALE)].
  destruct (negb (is_str (Base.faction b) "Neutral")
            && negb (is_str (Base.type b) "HQ")); [|now injection E as <-].
  destruct (Base.faction b) as [f|]; [|now injection E as <-].
  destruct (own f (Render.factionBases st)); [now injection E as <-|].
  destruct (inherited f); [discriminate|now injection E as <-].
Qed.

Lemma place_all_positions_grow bases : forall st st',
  Render.place_all st bases = Return st' ->
  exists more, Render.basePositions st' = (Render.basePositions st ++ more)%list.
Proof.
  induction bases as [|b bases IH]; intros st st' E; simpl in E.
  - injection E as <-. exists []. now rewrite app_nil_r.
  - destruct (Render.place_step st b) as [st1|] eqn:E1; [|discriminate].
    destruct (place_step_positions_grow _ _ _ E1) as [m1 H1].
    destruct (IH _ _ E) as [m2 H2].
    exists (m1 ++ m2)%list. rewrite H2, H1, app_assoc. reflexivity.
Qed.

Lemma place_all_placed bases : forall st st' b bx bz,
  Render.place_all st bases = Return st' -> In b bases ->
  truthy (Base.x b) = Some bx -> truthy (Base.z b) = Some bz ->
  In (Render.mkBaseData b (bx * Render.SCALE) ((Render.MAP_SIZE - bz) * Render.SCALE))
     (Render.basePositions st').
Proof.
  induction bases as [|b0 bases IH]; intros st st' b bx bz E Hin Ex Ez; [destruct Hin|].
  simpl in E. destruct (Render.place_step st b0) as [st1|] eqn:E1; [|discriminate].
  destruct Hin as [->|Hin]; [|eapply IH; eauto].
  pose proof (place_step_placed st b bx bz Ex Ez) as P. rewrite E1 in P.
  destruct (place_all_positions_grow _ _ _ E) as [more H].
  rewrite H, P. apply in_or_app. left. apply in_or_app. right. now left.
Qed.

(** ** Claims about the coordinate mapping and the placement *)

(** C9 (implicit): presence of a coordinate is JavaScript truthiness, so a
    base whose [x] or [z] is 0, a coordinate inside the map, is left out of
    the bounding box, of the hull points and of the markers: the render of a
    list is the render of the list without it. *)
Theorem C9_zero_coordinate_excluded b :
  (exists q, Base.x b = Some q /\ q == 0) \/ (exists q, Base.z b = Some q /\ q == 0) ->
  (forall bd, Render.bounds_step bd b = bd)
  /\ (forall st, Render.place_step st b = Return st)
  /\ (forall l1 l2,
         Render.generateMapImage (l1 ++ b :: l2) = Render.generateMapImage (l1 ++ l2)).
Proof.
  intros H.
  assert (T : truthy (Base.x b) = None \/ truthy (Base.z b) = None).
  { destruct H as [(q & E & Z)|(q & E & Z)]; [left|right];
      apply (truthy_zero _ q E Z). }
  repeat split; intros.
  - apply bounds_step_skip, T.
  - apply place_step_skip, T.
  - apply generateMapImage_skip, T.
Qed.

Lemma C9_zero_coordinate_excluded_witness :
  ((exists q, Base.x (base_at 0 200) = Some q /\ q == 0)
   \/ (exists q, Base.z (base_at 0 200) = Some q /\ q == 0))
  /\ (forall bd, Render.bounds_step bd (base_at 0 200) = bd)
  /\ (forall st, Render.place_step st (base_at 0 200) = Return st)
  /\ (forall l1 l2,
         Render.generateMapImage (l1 ++ base_at 0 200 :: l2)
         = Render.generateMapImage (l1 ++ l2)).
Proof.
  assert (H : (exists q, Base.x (base_at 0 200) = Some q /\ q == 0)
              \/ (exists q, Base.z (base_at 0 200) = Some q /\ q == 0)).
  { left. exists 0. split; reflexivity. }
  split; [exact H|]. exact (C9_zero_coordinate_excluded (base_at 0 200) H).
Defined.

(** *** Hull points *)

Lemma place_step_factions_only st1 st2 b :
  Render.factionBases st1 = Render.factionBases st2 ->
  outcome_map Render.factionBases (Render.place_step st1 b)
  = outcome_map Render.factionBases (Render.place_step st2 b).
Proof.
  intros E. unfold Render.place_step. rewrite E.
  destruct (truthy (Base.x b)); [destruct (truthy (Base.z b))|]; simpl; try now f_equal.
  destruct (negb (is_str (Base.faction b) "Neutral")
            && negb (is_str (Base.type b) "HQ")); [|reflexivity].
  destruct (Base.faction b) as [f|]; [|reflexivity].
  destruct (own f (Render.factionBases st2)); [reflexivity|].
  destruct (inherited f); reflexivity.
Qed.

Lemma place_all_factions_only bases : forall st1 st2,
  Render.factionBases st1 = Render.factionBases st2 ->
  outcome_map Render.factionBases (Render.place_all st1 bases)
  = outcome_map Render.factionBases (Render.place_all st2 bases).
Proof.
  induction bases as [|b bases IH]; intros st1 st2 E; simpl; [now f_equal|].
  pose proof (place_step_factions_only st1 st2 b E) as S.
  destruct (Render.place_step st1 b) as [s1|e1], (Render.place_step st2 b) as [s2|e2];
    simpl in S; try discriminate.
  - apply IH. now injection S.
  - exact S.
Qed.

Lemma place_step_ineligible st b :
  Base.faction b = Some "Neutral"%string \/ Base.type b = Some "HQ"%string ->
  exists st', Render.place_step st b = Return st'
              /\ Render.factionBases st' = Render.factionBases st.
Proof.
  intros H. unfold Render.place_step.
  destruct (truthy (Base.x b)); [destruct (truthy (Base.z b))|]; eauto.
  assert (C : negb (is_str (Base.faction b) "Neutral")
              && negb (is_str (Base.type b) "HQ") = false).
  { destruct H as [E|E]; rewrite E; simpl; [reflexivity|apply andb_false_r]. }
  rewrite C. eauto.
Qed.

Lemma eligible_points_cons f b bases :
  eligible_points f (b :: bases)
  = (eligible_points f [b] ++ eligible_points f bases)%list.
Proof. unfold eligible_points. simpl. now rewrite app_nil_r. Qed.

Lemma place_step_factions st b st' u s f :
  Render.place_step st b = Return st' ->
  Render.factionBases st = faction_lists u s f ->
  Render.factionBases st'
  = faction_lists (u ++ eligible_points "US" [b]) (s ++ eligible_points "USSR" [b])
                  (f ++ eligible_points "FIA" [b]).
Proof.
  unfold Render.place_step, eligible_points, faction_lists. simpl flat_map. intros E F.
  destruct (truthy (Base.x b)) as [bx|];
    [destruct (truthy (Base.z b)) as [bz|]|];
    try (injection E as <-; rewrite F, !app_nil_r; reflexivity).
  destruct (is_str (Base.type b) "HQ") eqn:EH.
  { rewrite andb_false_r in E. injection E as <-. simpl.
    rewrite !andb_false_r. simpl. rewrite F, !app_nil_r. reflexivity. }
  change (negb false) with true in *. rewrite !andb_true_r in *.
  destruct (Base.faction b) as [fs|]; simpl is_str in *;
    [|simpl in E; injection E as <-; simpl; rewrite F, !app_nil_r; reflexivity].
  rewrite F in E. unfold faction_lists in E. cbn [own] in E.
  rewrite (String.eqb_sym "US" fs), (String.eqb_sym "USSR" fs),
          (String.eqb_sym "FIA" fs) in E.
  destruct (String.eqb fs "US") eqn:N1.
  { apply String.eqb_eq in N1. subst fs. simpl in E. injection E as <-. simpl.
    rewrite ?F, ?app_nil_r. reflexivity. }
  destruct (String.eqb fs "USSR") eqn:N2.
  { apply String.eqb_eq in N2. subst fs. simpl in E. injection E as <-. simpl.
    rewrite ?F, ?app_nil_r. reflexivity. }
  destruct (String.eqb fs "FIA") eqn:N3.
  { apply String.eqb_eq in N3. subst fs. simpl in E. injection E as <-. simpl.
    rewrite ?F, ?app_nil_r. reflexivity. }
  assert (R : Render.factionBases st' = Render.factionBases st).
  { destruct (String.eqb fs "Neutral"); simpl in E;
      [now injection E as <-|].
    destruct (inherited fs); [discriminate|now injection E as <-]. }
  rewrite R, F, !app_nil_r. reflexivity.
Qed.

Lemma place_all_factions bases : forall st st' u s f,
  Render.place_all st bases = Return st' ->
  Render.factionBases st = faction_lists u s f ->
  Render.factionBases st'
  = faction_lists (u ++ eligible_points "US" bases) (s ++ eligible_points "USSR" bases)
                  (f ++ eligible_points "FIA" bases).
Proof.
  induction bases as [|b bases IH]; intros st st' u s f E F; simpl in E.
  - injection E as <-. unfold eligible_points. simpl. now rewrite !app_nil_r.
  - destruct (Render.place_step st b) as [st1|] eqn:E1; [|discriminate].
    rewrite (IH _ _ _ _ _ E (place_step_factions _ _ _ _ _ _ E1 F)).
    rewrite !(eligible_points_cons _ b bases), !app_assoc. reflexivity.
Qed.

(** C4: the per-faction hull points are exactly the canvas points of the
    bases with both coordinates whose faction is US, USSR or FIA and whose
    type is not HQ; a base of faction Neutral or of type HQ adds a point to
    no collection: with or without it the collections are the same. *)
Theorem C4_hull_point_eligibility bases :
  (forall st,
      Render.place_all Render.placement0 bases = Return st ->
      Render.factionBases st
      = faction_lists (eligible_points "US" bases) (eligible_points "USSR" bases)
                      (eligible_points "FIA" bases))
  /\ (forall l1 b l2,
         bases = (l1 ++ b :: l2)%list ->
         Base.faction b = Some "Neutral"%string \/ Base.type b = Some "HQ"%string ->
         outcome_map Render.factionBases (Render.place_all Render.placement0 bases)
         = outcome_map Render.factionBases
             (Render.place_all Render.placement0 (l1 ++ l2))).
Proof.
  split.
  - intros st E. apply (place_all_factions bases _ _ [] [] [] E). reflexivity.
  - intros l1 b l2 -> H. rewrite !place_all_app.
    destruct (Render.place_all Render.placement0 l1) as [st1|]; [|reflexivity].
    simpl. destruct (place_step_ineligible st1 b H) as (st2 & E2 & F2).
    rewrite E2. now apply place_all_factions_only.
Qed.

Lemma C4_hull_point_eligibility_witness :
  exists st,
    Render.place_all Render.placement0 [base_at 100 200; neutral_poi; us_hq] = Return st
    /\ Render.factionBases st
       = faction_lists [mkPoint (100 * Render.SCALE)
                                ((Render.MAP_SIZE - 200) * Render.SCALE)] [] []
    /\ outcome_map Render.factionBases
         (Render.place_all Render.placement0 [base_at 100 200; neutral_poi; us_hq])
       = outcome_map Render.factionBases
           (Render.place_all Render.placement0 [base_at 100 200; us_hq]).
Proof.
  destruct (C4_hull_point_eligibility [base_at 100 200; neutral_poi; us_hq])
    as [Lists Without].
  eexists. split; [reflexivity|]. split.
  - exact (Lists _ eq_refl).
  - exact (Without [base_at 100 200] neutral_poi [us_hq] eq_refl (or_introl eq_refl)).
Defined.

(** ** The summary *)

Section Update.
Context {A : Type}.
Implicit Types (fb : list (string * A)) (f : A -> A).

Lemma own_update_none key f fb k :
  own k (update key f fb) = None <-> own k fb = None.
Proof.
  induction fb as [|[k0 v] fb IH]; simpl; [tauto|].
  destruct (String.eqb k0 key) eqn:E; simpl.
  - destruct (String.eqb k0 k); [split; discriminate|tauto].
  - destruct (String.eqb k0 k); [split; discriminate|exact IH].
Qed.

Lemma own_In key fb v : own key fb = Some v -> In (key, v) fb.
Proof.
  induction fb as [|[k0 v0] fb IH]; simpl; [discriminate|].
  destruct (String.eqb_spec k0 key) as [->|N].
  - intros E. injection E as ->. now left.
  - intros E. right. now apply IH.
Qed.

Lemma update_hits key f fb v :
  own key fb = Some v -> In (key, f v) (update key f fb).
Proof.
  induction fb as [|[k0 v0] fb IH]; simpl; [discriminate|].
  destruct (String.eqb_spec k0 key) as [->|N].
  - intros E. injection E as ->. now left.
  - intros E. right. now apply IH.
Qed.

Lemma update_entries key f fb k v :
  In (k, v) (update key f fb) ->
  In (k, v) fb \/ (k = key /\ exists v0, In (key, v0) fb /\ v = f v0).
Proof.
  induction fb as [|[k0 v0] fb IH]; simpl; [tauto|].
  destruct (String.eqb_spec k0 key) as [->|N]; simpl.
  - intros [E|H]; [|tauto]. injection E as <- <-. right. eauto.
  - intros [E|H]; [tauto|].
    destruct (IH H) as [H'|(-> & v1 & H1 & ->)]; [tauto|]. right. eauto.
Qed.

Lemma update_keeps key f fb k v :
  In (k, v) fb -> exists v', In (k, v') (update key f fb) /\ (v' = v \/ v' = f v).
Proof.
  induction fb as [|[k0 v0] fb IH]; simpl; [tauto|].
  destruct (String.eqb k0 key); simpl.
  - intros [E|H]; [injection E as -> ->; eauto|eauto].
  - intros [E|H]; [injection E as -> ->; eauto|].
    destruct (IH H) as (v' & H1 & H2). eauto.
Qed.
End Update.

Lemma member_push f b0 b d :
  f = Summary.push_hq b \/ f = Summary.push_fob b \/ f = Summary.push_poi b ->
  member b0 (f d) <-> member b0 d \/ b0 = b.
Proof.
  unfold member. intros [ -> | [ -> | -> ] ]; simpl; rewrite in_app_iff; simpl;
    intuition congruence.
Qed.

(** The pushing branch of a round, when the type is recognised. *)
Lemma categorize_step_cases fb b :
  (recognized b = false /\ Summary.categorize_step fb b = Return fb)
  \/ (recognized b = true
      /\ exists f,
          (f = Summary.push_hq b \/ f = Summary.push_fob b \/ f = Summary.push_poi b)
          /\ Summary.categorize_step fb b
             = match Summary.resolve fb b with
               | Summary.Entry key => Return (update key f fb)
               | Summary.Prototype_member => Throw TypeError
               end).
Proof.
  unfold recognized, Summary.categorize_step.
  destruct (is_str (Base.type b) "HQ"); [right; split; [reflexivity|]; eauto|].
  destruct (is_str (Base.type b) "FOB"); [right; split; [reflexivity|]; eauto 6|].
  destruct (is_str (Base.type b) "POI"); [right; split; [reflexivity|]; eauto 6|].
  left. split; reflexivity.
Qed.

Lemma resolve_same_keys fb b :
  same_keys fb -> Summary.resolve fb b = Summary.resolve Summary.factionBases0 b.
Proof.
  intros K. unfold Summary.resolve.
  pose proof (K (or_default (Base.faction b) "Neutral")) as Kf.
  destruct (own _ fb), (own _ Summary.factionBases0); try reflexivity.
  - discriminate (proj2 Kf eq_refl).
  - discriminate (proj1 Kf eq_refl).
Qed.

Lemma resolve_entry_own fb b key :
  same_keys fb -> Summary.resolve fb b = Summary.Entry key -> exists d, own key fb = Some d.
Proof.
  intros K. unfold Summary.resolve.
  destruct (own (or_default (Base.faction b) "Neutral") fb) as [d|] eqn:E.
  - intros H. injection H as <-. eauto.
  - destruct (inherited _); [discriminate|]. intros H. injection H as <-.
    destruct (own "Neutral" fb) as [d|] eqn:EN; [eauto|].
    apply K in EN. discriminate.
Qed.

Lemma grouped_init : grouped [] Summary.factionBases0.
Proof.
  split; [intros k; tauto|].
  intros k d b H M. simpl in H.
  repeat (destruct H as [H|H]; [injection H as <- <-; destruct M as [[]|[[]|[]]]|]).
  destruct H.
Qed.

Lemma categorize_step_grouped P fb b fb' :
  grouped P fb -> Summary.categorize_step fb b = Return fb' ->
  grouped (P ++ [b]) fb'
  /\ (forall k d b0, In (k, d) fb -> member b0 d ->
        exists d', In (k, d') fb' /\ member b0 d')
  /\ (recognized b = true -> exists k d, In (k, d) fb' /\ member b d).
Proof.
  intros G E.
  destruct (categorize_step_cases fb b) as [[R E']|(R & f & Hf & E')];
    rewrite E' in E.
  - injection E as <-. split; [|split].
    + split; [apply (gr_keys _ _ G)|].
      intros k d b0 H M. destruct (gr_members _ _ G k d b0 H M) as (H1 & H2 & H3).
      repeat split; auto. apply in_or_app. now left.
    + eauto.
    + congruence.
  - rewrite (resolve_same_keys fb b (gr_keys _ _ G)) in E.
    destruct (Summary.resolve Summary.factionBases0 b) as [key|] eqn:ER; [|discriminate].
    injection E as <-.
    assert (ER' : Summary.resolve fb b = Summary.Entry key)
      by (rewrite (resolve_same_keys fb b (gr_keys _ _ G)); exact ER).
    destruct (resolve_entry_own fb b key (gr_keys _ _ G) ER') as [d0 Ed0].
    split; [|split].
    + split.
      * intros k. rewrite own_update_none. apply (gr_keys _ _ G).
      * intros k d b0 H M.
        apply update_entries in H. destruct H as [H|(-> & v0 & H0 & ->)].
        -- destruct (gr_members _ _ G k d b0 H M) as (H1 & H2 & H3).
           repeat split; auto. apply in_or_app. now left.
        -- apply (member_push f b0 b v0 Hf) in M. destruct M as [M | ->].
           ++ destruct (gr_members _ _ G key v0 b0 H0 M) as (H1 & H2 & H3).
              repeat split; auto. apply in_or_app. now left.
           ++ repeat split; [apply in_or_app; right; now left|exact R|exact ER].
    + intros k d b0 H M.
      destruct (update_keeps key f fb k d H) as (d' & H1 & [ -> | -> ]).
      * exists d. split; [exact H1|exact M].
      * exists (f d). split; [exact H1|]. apply (member_push f b0 b d Hf). now left.
    + intros _. exists key, (f d0). split; [now apply update_hits|].
      apply (member_push f b b d0 Hf). now right.
Qed.

Lemma categorize_grouped bases : forall P fb fb',
  grouped P fb -> Summary.categorize fb bases = Return fb' ->
  grouped (P ++ bases) fb'
  /\ (forall k d b0, In (k, d) fb -> member b0 d ->
        exists d', In (k, d') fb' /\ member b0 d')
  /\ (forall b, In b bases -> recognized b = true ->
        exists k d, In (k, d) fb' /\ member b d).
Proof.
  induction bases as [|b bases IH]; intros P fb fb' G E; simpl in E.
  - injection E as <-. rewrite app_nil_r. split; [exact G|]. split; [eauto|].
    intros b [].
  - destruct (Summary.categorize_step fb b) as [fb1|] eqn:E1; [|discriminate].
    destruct (categorize_step_grouped P fb b fb1 G E1) as (G1 & K1 & A1).
    destruct (IH _ _ _ G1 E) as (G2 & K2 & A2).
    split; [|split].
    + replace (P ++ b :: bases)%list with ((P ++ [b]) ++ bases)%list
        by (rewrite <- app_assoc; reflexivity).
      exact G2.
    + intros k d b0 H M. destruct (K1 k d b0 H M) as (d1 & H1 & M1).
      apply (K2 k d1 b0 H1 M1).
    + intros b0 [<-|Hin] R.
      * destruct (A1 R) as (k & d & H & M). exists k. apply (K2 k d b H M).
      * apply (A2 b0 Hin R).
Qed.


Lemma total_member d :
  Summary.totalBases d <> 0%nat -> exists b, member b d.
Proof.
  unfold member, Summary.totalBases. intros H.
  destruct (Summary.hq d) as [|b ?]; [|exists b; left; now left].
  destruct (Summary.fobs d) as [|b ?]; [|exists b; right; left; now left].
  destruct (Summary.pois d) as [|b ?]; [simpl in H; lia|exists b; right; right; now left].
Qed.


Lemma addFields_key fb fld k :
  In fld (Summary.addFields fb) -> field_key fld = Some k ->
  exists d, In (k, d) fb /\ Summary.totalBases d <> 0%nat.
Proof.
  unfold Summary.addFields. intros H K.
  apply in_flat_map in H. destruct H as ([k0 d] & H & Hf). simpl in Hf.
  destruct (Nat.eqb_spec (Summary.totalBases d) 0) as [Z|NZ]; [destruct Hf|].
  destruct Hf as [<-|[]]. simpl in K. injection K as ->. eauto.
Qed.




Lemma markers_drawn bases sc b bx bz :
  Render.generateMapImage bases = Return sc -> In b bases ->
  truthy (Base.x b) = Some bx -> truthy (Base.z b) = Some bz ->
  In (Render.mkMarker (Render.marker_shape b) (bx * Render.SCALE)
        ((Render.MAP_SIZE - bz) * Render.SCALE)
        (or_default (Base.name b) "Unknown"))
     (Render.markers sc).
Proof.
  unfold Render.generateMapImage. intros E Hin Ex Ez.
  destruct (Render.place_all Render.placement0 bases) as [st|] eqn:EP; [|discriminate].
  injection E as <-. simpl.
  apply (in_map Render.draw_marker _ _ (place_all_placed _ _ _ _ _ _ EP Hin Ex Ez)).
Qed.

Lemma unrecognized_circle b : recognized b = false -> Render.marker_shape b = Render.Circle.
Proof.
  unfold recognized, Render.marker_shape.
  destruct (is_str (Base.type b) "HQ"); [discriminate|].
  destruct (is_str (Base.type b) "FOB"); [discriminate|].
  destruct (is_str (Base.type b) "POI"); [discriminate|reflexivity].
Qed.

(** C10 (implicit): a base whose type is none of HQ, FOB and POI is pushed
    to no sub-list; so a faction all of whose bases have such a type has the
    count 0 and gets no field in the summary, while each of these bases that
    has both coordinates is drawn as a circle. *)
Theorem C10_unrecognized_types_uncounted bases key :
  (forall b, In b bases -> filed_under b key -> recognized b = false) ->
  (forall b fb, recognized b = false -> Summary.categorize_step fb b = Return fb)
  /\ (forall fb d,
         Summary.categorize Summary.factionBases0 bases = Return fb ->
         In (key, d) fb -> Summary.totalBases d = 0%nat)
  /\ (forall fields,
         Summary.summary bases = Return fields ->
         forall fld, In fld fields -> field_key fld <> Some key)
  /\ (forall sc b bx bz,
         Render.generateMapImage bases = Return sc ->
         In b bases -> filed_under b key ->
         truthy (Base.x b) = Some bx -> truthy (Base.z b) = Some bz ->
         In (Render.mkMarker Render.Circle (bx * Render.SCALE)
               ((Render.MAP_SIZE - bz) * Render.SCALE)
               (or_default (Base.name b) "Unknown"))
            (Render.markers sc)).
Proof.
  intros U.
  assert (Z : forall fb d,
             Summary.categorize Summary.factionBases0 bases = Return fb ->
             In (key, d) fb -> Summary.totalBases d = 0%nat).
  { intros fb d EC H.
    destruct (categorize_grouped _ _ _ _ grouped_init EC) as (G & _ & _).
    destruct (Nat.eq_dec (Summary.totalBases d) 0) as [E|N]; [exact E|exfalso].
    destruct (total_member d N) as [b M].
    destruct (gr_members _ _ G key d b H M) as (Hin & R & F).
    simpl in Hin. rewrite (U b Hin F) in R. discriminate. }
  split; [|split; [exact Z|split]].
  - intros b fb R.
    destruct (categorize_step_cases fb b) as [[_ E]|[R' _]]; [exact E|congruence].
  - intros fields E fld Hin K. unfold Summary.summary in E.
    destruct bases as [|b0 rest].
    + injection E as <-. destruct Hin as [<-|[]]. discriminate.
    + destruct (Summary.categorize Summary.factionBases0 (b0 :: rest)) as [fb|] eqn:EC;
        [|discriminate].
      injection E as <-.
      destruct (addFields_key fb fld key Hin K) as (d & H & N).
      apply N. apply (Z fb d eq_refl H).
  - intros sc b bx bz E Hin F Ex Ez.
    rewrite <- (unrecognized_circle b (U b Hin F)).
    apply (markers_drawn bases sc b bx bz E Hin Ex Ez).
Qed.

Lemma C10_unrecognized_types_uncounted_witness :
  (forall b, In b [radio_tower; base_at 100 200] ->
             filed_under b "FIA" -> recognized b = false)
  /\ (forall fld,
         In fld [Summary.FactionField "US" "Meridian Federation 🔵 - 1 bases" 1 []
                   [Some "Alpha"] []]%string ->
         field_key fld <> Some "FIA"%string)
  /\ exists sc,
       Render.generateMapImage [radio_tower; base_at 100 200] = Return sc
       /\ In (Render.mkMarker Render.Circle (6400 * Render.SCALE)
                ((Render.MAP_SIZE - 6400) * Render.SCALE) "Tower")
             (Render.markers sc).
Proof.
  assert (H : forall b, In b [radio_tower; base_at 100 200] ->
                        filed_under b "FIA" -> recognized b = false).
  { intros b [<-|[<-|[]]] F; [reflexivity|]. vm_compute in F. discriminate. }
  destruct (C10_unrecognized_types_uncounted [radio_tower; base_at 100 200] "FIA" H)
    as (_ & _ & S & M).
  split; [exact H|]. split; [exact (S _ eq_refl)|].
  eexists. split; [reflexivity|].
  exact (M _ radio_tower 6400 6400 eq_refl (or_introl eq_refl) eq_refl eq_refl eq_refl).
Defined.

(** ** Ingestion *)

Lemma own_set_prop_same props key w :
  own key (Ingestion.set_prop props key w) = Some w.
Proof.
  induction props as [|[k v] props IH]; simpl.
  - now rewrite String.eqb_refl.
  - destruct (String.eqb k key) eqn:E; simpl; rewrite E; [reflexivity|exact IH].
Qed.

Lemma own_set_prop_other props key w k :
  k <> key -> own k (Ingestion.set_prop props key w) = own k props.
Proof.
  intros N. induction props as [|[k0 v] props IH]; simpl.
  - destruct (String.eqb_spec key k); [congruence|reflexivity].
  - destruct (String.eqb_spec k0 key) as [->|N0]; simpl.
    + destruct (String.eqb_spec key k); [congruence|reflexivity].
    + destruct (String.eqb k0 k); [reflexivity|exact IH].
Qed.

Lemma stamp_bases v time v' :
  Ingestion.stamp v time = Return v' -> bases_of v' = bases_of v.
Proof.
  unfold bases_of. destruct v; simpl; intros E; try discriminate;
    injection E as <-; try reflexivity.
  simpl. rewrite own_set_prop_other; [reflexivity|discriminate].
Qed.

Lemma stamp_lastUpdate_fresh props time v' :
  Ingestion.stamp (Ingestion.JObj props) time = Return v' ->
  Ingestion.get_prop v' "lastUpdate" = Ingestion.JStr time.
Proof.
  simpl. intros E. injection E as <-. simpl. now rewrite own_set_prop_same.
Qed.

(** The handler, case by case. *)
Lemma post_territory_cases JSON_parse req st :
  Ingestion.post_territory JSON_parse req st
  = match Ingestion.parse_payload JSON_parse (Ingestion.body req) with
    | Throw _ => (Return (Ingestion.Response 500 Ingestion.failure_body), st)
    | Return d =>
        match Ingestion.stamp d (Ingestion.now req) with
        | Throw _ =>
            (Return (Ingestion.Response 500 Ingestion.failure_body),
             Ingestion.mkServer d (Ingestion.territoryFile st))
        | Return v =>
            if Ingestion.disk_ok req
            then (Return (Ingestion.Response 200 Ingestion.success_body),
                  Ingestion.mkServer v (Some v))
            else (Return (Ingestion.Response 500 Ingestion.failure_body),
                  Ingestion.mkServer v (Ingestion.territoryFile st))
        end
    end.
Proof.
  unfold Ingestion.post_territory, Ingestion.try_catch, Ingestion.bind, Ingestion.lift.
  destruct (Ingestion.parse_payload JSON_parse (Ingestion.body req)) as [d|e];
    [|reflexivity].
  unfold Ingestion.assign_territoryData, Ingestion.stamp_lastUpdate. simpl.
  destruct (Ingestion.stamp d (Ingestion.now req)) as [v|e]; [|reflexivity].
  unfold Ingestion.write_territory_file. simpl.
  destruct (Ingestion.disk_ok req); [|reflexivity].
  destruct (Ingestion.publisher_ready req); reflexivity.
Qed.

(** C2: for every array body, the mangled form body is reconstructed to the
    JSON text [{"bases":[ body ]}] and handled exactly as that text posted
    directly: as a string body, and as the object a JSON body parser makes
    of it (an object whose first key does not open with a brace, as that of
    a text opening with the key [bases] is).  Answer and stored snapshot
    are the same, so the base lists are the same. *)
Theorem C2_mangled_payload_reconstruction
  (JSON_parse : string -> option Ingestion.jsval)
  (arrayContent : string) (inner : Ingestion.jsval)
  (time : string) (disk ready : bool) (st : Ingestion.server) :
  let post body :=
    Ingestion.post_territory JSON_parse (Ingestion.mkRequest body time disk ready) st in
  Ingestion.parse_payload JSON_parse (mangled arrayContent inner)
  = Ingestion.parse JSON_parse (plain_json arrayContent)
  /\ post (mangled arrayContent inner) = post (Ingestion.JStr (plain_json arrayContent))
  /\ (forall props,
         JSON_parse (plain_json arrayContent) = Some (Ingestion.JObj props) ->
         (forall k, hd_error (map fst props) = Some k -> String.prefix "{" k = false) ->
         post (mangled arrayContent inner) = post (Ingestion.JObj props)
         /\ bases_of (Ingestion.territoryData (snd (post (mangled arrayContent inner))))
            = bases_of (Ingestion.JObj props)).
Proof.
  intros post.
  assert (P : Ingestion.parse_payload JSON_parse (mangled arrayContent inner)
              = Ingestion.parse JSON_parse (plain_json arrayContent))
    by reflexivity.
  split; [exact P|]. split.
  - unfold post. rewrite !post_territory_cases. simpl Ingestion.body. rewrite P.
    reflexivity.
  - intros props E K.
    assert (Q : Ingestion.parse_payload JSON_parse (Ingestion.JObj props)
                = Return (Ingestion.JObj props)).
    { unfold Ingestion.parse_payload, Ingestion.Object_keys.
      destruct (hd_error (map fst props)) as [k|]; [|reflexivity].
      rewrite (K k eq_refl), andb_false_r. reflexivity. }
    assert (P' : Ingestion.parse_payload JSON_parse (mangled arrayContent inner)
                 = Return (Ingestion.JObj props))
      by (rewrite P; unfold Ingestion.parse; now rewrite E).
    unfold post. rewrite !post_territory_cases. simpl Ingestion.body.
    rewrite P', Q. split; [reflexivity|].
    simpl Ingestion.stamp. destruct disk; simpl;
      unfold bases_of; simpl; (rewrite own_set_prop_other; [reflexivity|discriminate]).
Qed.

Lemma C2_mangled_payload_reconstruction_witness :
  let st0 := Ingestion.mkServer (Ingestion.JObj []) None in
  let post body :=
    Ingestion.post_territory alpha_parse
      (Ingestion.mkRequest body "2024-01-01T00:00:00.000Z" true true) st0 in
  alpha_parse (plain_json alpha_body) = Some alpha_snapshot
  /\ post (mangled alpha_body (Ingestion.JStr "")) = post alpha_snapshot
  /\ bases_of (Ingestion.territoryData (snd (post (mangled alpha_body (Ingestion.JStr "")))))
     = Ingestion.JArr
         [Ingestion.JObj [("name", Ingestion.JStr "Alpha"); ("x", Ingestion.JNum 100);
                          ("z", Ingestion.JNum 200)]]%string.
Proof.
  intros st0 post.
  split; [reflexivity|].
  exact (proj2 (proj2 (C2_mangled_payload_reconstruction alpha_parse alpha_body
                         (Ingestion.JStr "") "2024-01-01T00:00:00.000Z" true true st0))
               _ eq_refl ltac:(intros k E; injection E as <-; reflexivity)).
Defined.

(** C6: when the decoding of the payload throws (a text that is no JSON, a
    reconstruction that is no JSON, keys asked of [null]), the answer is
    status 500 and the stored snapshot and its file are what they were. *)
Theorem C6_parse_failure_leaves_snapshot
  (JSON_parse : string -> option Ingestion.jsval)
  (req : Ingestion.request) (st : Ingestion.server) (e : exn) :
  Ingestion.parse_payload JSON_parse (Ingestion.body req) = Throw e ->
  exists r,
    Ingestion.post_territory JSON_parse req st = (Return r, st)
    /\ Ingestion.status_of r = 500%nat
    /\ Ingestion.get_territory (snd (Ingestion.post_territory JSON_parse req st))
       = Ingestion.get_territory st.
Proof.
  intros E. rewrite post_territory_cases, E.
  eexists. repeat split.
Qed.

Lemma C6_parse_failure_leaves_snapshot_witness :
  let st0 := Ingestion.mkServer alpha_snapshot (Some alpha_snapshot) in
  let req := Ingestion.mkRequest (Ingestion.JStr "{oops") "2024-01-01T00:00:00.000Z"
                                 true true in
  Ingestion.parse_payload alpha_parse (Ingestion.body req) = Throw SyntaxError
  /\ exists r,
       Ingestion.post_territory alpha_parse req st0 = (Return r, st0)
       /\ Ingestion.status_of r = 500%nat
       /\ Ingestion.get_territory (snd (Ingestion.post_territory alpha_parse req st0))
          = Ingestion.get_territory st0.
Proof.
  intros st0 req. split; [reflexivity|].
  exact (C6_parse_failure_leaves_snapshot alpha_parse req st0 SyntaxError eq_refl).
Defined.

(** C7: after two accepted ingestions, A and then B, the stored snapshot is
    B's payload with the time of B's request as [lastUpdate], and nothing
    of A: the GET handler and the publisher both see it, its base list is
    the one B sent, and B leaves the same state behind from any earlier
    state. *)
Theorem C7_snapshot_replaced
  (JSON_parse : string -> option Ingestion.jsval)
  (reqA reqB : Ingestion.request) (st0 st1 st2 : Ingestion.server)
  (rA rB : Ingestion.response) :
  Ingestion.post_territory JSON_parse reqA st0 = (Return rA, st1) ->
  Ingestion.post_territory JSON_parse reqB st1 = (Return rB, st2) ->
  Ingestion.status_of rA = 200%nat -> Ingestion.status_of rB = 200%nat ->
  exists dB vB,
    Ingestion.parse_payload JSON_parse (Ingestion.body reqB) = Return dB
    /\ Ingestion.stamp dB (Ingestion.now reqB) = Return vB
    /\ st2 = Ingestion.mkServer vB (Some vB)
    /\ Ingestion.get_territory st2 = Ingestion.Response 200 vB
    /\ Ingestion.publisher_view st2 = vB
    /\ bases_of vB = bases_of dB
    /\ (forall props, dB = Ingestion.JObj props ->
          Ingestion.get_prop vB "lastUpdate" = Ingestion.JStr (Ingestion.now reqB))
    /\ (forall st, Ingestion.post_territory JSON_parse reqB st = (Return rB, st2)).
Proof.
  intros _ EB _ SB. rewrite post_territory_cases in EB.
  destruct (Ingestion.parse_payload JSON_parse (Ingestion.body reqB)) as [dB|e] eqn:EP;
    [|injection EB as <- _; discriminate].
  destruct (Ingestion.stamp dB (Ingestion.now reqB)) as [vB|e] eqn:ES;
    [|injection EB as <- _; discriminate].
  destruct (Ingestion.disk_ok reqB) eqn:ED; [|injection EB as <- _; discriminate].
  injection EB as <- <-.
  exists dB, vB. split; [reflexivity|]. split; [exact ES|].
  do 3 (split; [reflexivity|]).
  split; [exact (stamp_bases _ _ _ ES)|]. split.
  - intros props ->. apply (stamp_lastUpdate_fresh _ _ _ ES).
  - intros st. rewrite post_territory_cases, EP, ES, ED. reflexivity.
Qed.

Lemma C7_snapshot_replaced_witness :
  let reqA := Ingestion.mkRequest snapshot_A "2024-01-01T00:00:00.000Z" true true in
  let reqB := Ingestion.mkRequest alpha_snapshot "2024-01-01T00:00:30.000Z" true false in
  let st0 := Ingestion.mkServer (Ingestion.JObj []) None in
  let st1 := snd (Ingestion.post_territory alpha_parse reqA st0) in
  let st2 := snd (Ingestion.post_territory alpha_parse reqB st1) in
  bases_of (Ingestion.territoryData st1) = bases_of snapshot_A
  /\ exists dB vB,
       Ingestion.parse_payload alpha_parse (Ingestion.body reqB) = Return dB
       /\ Ingestion.stamp dB (Ingestion.now reqB) = Return vB
       /\ st2 = Ingestion.mkServer vB (Some vB)
       /\ Ingestion.get_territory st2 = Ingestion.Response 200 vB
       /\ Ingestion.publisher_view st2 = vB
       /\ bases_of vB = bases_of dB
       /\ (forall props, dB = Ingestion.JObj props ->
             Ingestion.get_prop vB "lastUpdate" = Ingestion.JStr (Ingestion.now reqB))
       /\ (forall st,
             Ingestion.post_territory alpha_parse reqB st
             = (Return (Ingestion.Response 200 Ingestion.success_body), st2)).
Proof.
  intros reqA reqB st0 st1 st2. split; [reflexivity|].
  exact (C7_snapshot_replaced alpha_parse reqA reqB st0 st1 st2
           (Ingestion.Response 200 Ingestion.success_body)
           (Ingestion.Response 200 Ingestion.success_body)
           eq_refl eq_refl eq_refl eq_refl).
Defined.

(** A payload that decodes to [null] is past the decoding: the assignment
    of bot.js 1493 has happened when the stamp of bot.js 1494 throws, so the
    answer is status 500 and the snapshot in memory is [null]; the file is
    untouched, and the next reload brings the old snapshot back. *)
Lemma post_null_replaces_snapshot
  (JSON_parse : string -> option Ingestion.jsval)
  (req : Ingestion.request) (st : Ingestion.server) (text : string) :
  Ingestion.body req = Ingestion.JStr text -> JSON_parse text = Some Ingestion.JNull ->
  Ingestion.post_territory JSON_parse req st
  = (Return (Ingestion.Response 500 Ingestion.failure_body),
     Ingestion.mkServer Ingestion.JNull (Ingestion.territoryFile st)).
Proof.
  intros EB EP. rewrite post_territory_cases, EB. simpl.
  unfold Ingestion.parse. rewrite EP. reflexivity.
Qed.

Lemma post_null_replaces_snapshot_witness :
  Ingestion.post_territory (fun _ => Some Ingestion.JNull)
    (Ingestion.mkRequest (Ingestion.JStr "null") "2024-01-01T00:00:00.000Z" true true)
    (Ingestion.mkServer alpha_snapshot (Some alpha_snapshot))
  = (Return (Ingestion.Response 500 Ingestion.failure_body),
     Ingestion.mkServer Ingestion.JNull (Some alpha_snapshot)).
Proof.
  exact (post_null_replaces_snapshot (fun _ => Some Ingestion.JNull)
           (Ingestion.mkRequest (Ingestion.JStr "null") "2024-01-01T00:00:00.000Z"
                                true true)
           (Ingestion.mkServer alpha_snapshot (Some alpha_snapshot)) "null"
           eq_refl eq_refl).
Defined.

(* ================================================================== *)
(** * Part IV.  Further properties of the program                     *)
(* ================================================================== *)

(** ** Roles *)

Lemma or_default_find (f : string -> bool) (l : list string) (d : string) :
  In d l -> ~ In ""%string l -> In (or_default (find f l) d) l.
Proof.
  intros Hd Hne. unfold or_default.
  destruct (find f l) as [s|] eqn:E; [|exact Hd].
  apply find_some in E. destruct E as [Hs _].
  destruct (String.eqb_spec s ""); [subst; contradiction|exact Hs].
Qed.

Lemma has_role_In (m : Roles.guildMember) (n : string) :
  Roles.has_role m n = true <-> In n (Roles.roles m).
Proof.
  unfold Roles.has_role. rewrite existsb_exists. split.
  - intros (r & Hr & E). apply String.eqb_eq in E. now subst.
  - intros H. exists n. split; [exact H|apply String.eqb_refl].
Qed.

Lemma nationality_listed (m : Roles.guildMember) :
  In (Roles.nationality (Roles.getPlayerDataFromMember m)) Roles.NATIONALITIES.
Proof.
  apply or_default_find; simpl; [tauto|].
  intros H; repeat (destruct H as [H|H]; [discriminate|]); exact H.
Qed.

Lemma rank_listed (m : Roles.guildMember) :
  In (Roles.rank (Roles.getPlayerDataFromMember m)) Roles.RANKS.
Proof.
  apply or_default_find; simpl; [tauto|].
  intros H; repeat (destruct H as [H|H]; [discriminate|]); exact H.
Qed.

(** The rank read from a member's roles is always one of [RANKS], and the
    ranks are tried from [Private] upwards: a member counts as Head of State
    exactly when they hold that role and no other rank role, and as Private
    when they hold the Private role or no rank role at all. *)
Theorem rank_lowest_role_wins (m : Roles.guildMember) :
  let rank := Roles.rank (Roles.getPlayerDataFromMember m) in
  In rank Roles.RANKS
  /\ (rank = "Head_of_State"%string <->
       In "Head_of_State"%string (Roles.roles m)
       /\ forall r, In r Roles.RANKS -> r <> "Head_of_State"%string ->
                    ~ In r (Roles.roles m))
  /\ (rank = "Private"%string <->
        In "Private"%string (Roles.roles m)
        \/ forall r, In r Roles.RANKS -> ~ In r (Roles.roles m)).
Proof.
  split; [apply rank_listed|].
  assert (F : forall r, Roles.has_role m r = false -> ~ In r (Roles.roles m)).
  { intros r E H. apply has_role_In in H. congruence. }
  assert (T : forall r, Roles.has_role m r = true -> In r (Roles.roles m))
    by (intros r; apply has_role_In).
  cbn zeta. unfold Roles.getPlayerDataFromMember, Roles.RANKS. cbn [Roles.rank find].
  repeat match goal with
  | |- context [if Roles.has_role m ?r then _ else _] =>
      let E := fresh "E" in
      destruct (Roles.has_role m r) eqn:E; [apply T in E|apply F in E]
  end;
  cbn [or_default String.eqb Ascii.eqb Bool.eqb andb];
  (split; split;
   solve
     [ discriminate
     | intros _; reflexivity
     | intros _; split; [assumption|];
       intros r Hr Nr; simpl in Hr;
       repeat (destruct Hr as [<-|Hr]; [first [assumption|congruence]|]); destruct Hr
     | intros [Hh H];
       first [ contradiction
             | match goal with
               | K : In ?r (Roles.roles m) |- _ =>
                   exfalso; apply (H r); [simpl; tauto|discriminate|exact K]
               end ]
     | intros _; left; assumption
     | intros _; right; intros r Hr; simpl in Hr;
       repeat (destruct Hr as [<-|Hr]; [assumption|]); destruct Hr
     | intros [H|H];
       [ contradiction
       | match goal with
         | K : In ?r (Roles.roles m) |- _ => exfalso; apply (H r); [simpl; tauto|exact K]
         end ] ]).
Qed.

(** A rank role below Head of State keeps its holder from being one. *)
Lemma lower_rank_not_head (m : Roles.guildMember) (r : string) :
  In r Roles.RANKS -> r <> "Head_of_State"%string -> In r (Roles.roles m) ->
  Roles.rank (Roles.getPlayerDataFromMember m) <> "Head_of_State"%string.
Proof.
  intros Hr Nr Hin.
  assert (F : forall q, Roles.has_role m q = false -> ~ In q (Roles.roles m)).
  { intros q E H. apply has_role_In in H. congruence. }
  unfold Roles.getPlayerDataFromMember, Roles.RANKS. cbn [Roles.rank find].
  repeat match goal with
  | |- context [if Roles.has_role m ?q then _ else _] =>
      let E := fresh "E" in
      destruct (Roles.has_role m q) eqn:E; [|apply F in E]
  end;
  cbn [or_default String.eqb Ascii.eqb Bool.eqb andb]; try discriminate;
  simpl in Hr; repeat (destruct Hr as [<-|Hr]; [first [contradiction|congruence]|]);
  destruct Hr.
Qed.

Lemma has_role_ext (m1 m2 : Roles.guildMember) :
  (forall n, In n (Roles.roles m1) <-> In n (Roles.roles m2)) ->
  forall n, Roles.has_role m1 n = Roles.has_role m2 n.
Proof.
  intros H n. pose proof (has_role_In m1 n) as H1. pose proof (has_role_In m2 n) as H2.
  specialize (H n).
  destruct (Roles.has_role m1 n), (Roles.has_role m2 n); try reflexivity.
  - assert (true = true) as E by reflexivity. apply H1, H, H2 in E. discriminate.
  - assert (true = true) as E by reflexivity. apply H2, H, H1 in E. discriminate.
Qed.

Lemma find_pointwise {A : Type} (f g : A -> bool) (l : list A) :
  (forall a, f a = g a) -> find f l = find g l.
Proof.
  intros H. induction l as [|a l IH]; simpl; [reflexivity|].
  rewrite H, IH. reflexivity.
Qed.

(** The result depends on which roles the member holds, not on their order
    in the collection or on repetitions. *)
Theorem getPlayerDataFromMember_role_set (m1 m2 : Roles.guildMember) :
  (forall n, In n (Roles.roles m1) <-> In n (Roles.roles m2)) ->
  Roles.getPlayerDataFromMember m1 = Roles.getPlayerDataFromMember m2.
Proof.
  intros H. unfold Roles.getPlayerDataFromMember.
  rewrite (find_pointwise _ _ Roles.NATIONALITIES (has_role_ext m1 m2 H)).
  rewrite (find_pointwise _ _ Roles.RANKS (has_role_ext m1 m2 H)).
  reflexivity.
Qed.

Lemma getPlayerDataFromMember_role_set_witness :
  Roles.getPlayerDataFromMember president
  = Roles.getPlayerDataFromMember
      (Roles.mkMember "9" "x" true ["Head_of_State"; "US"; "US"]%string).
Proof.
  apply getPlayerDataFromMember_role_set. intros n. simpl. tauto.
Defined.

(** The nationality read from a member's roles is always one of
    [NATIONALITIES]; the three are tried in the order USSR, US, FIA, and
    USSR is the default: a member without a nationality role is reported as
    USSR, as is one who holds the USSR role beside another. *)
Theorem nationality_first_listed_wins (m : Roles.guildMember) :
  let nationality := Roles.nationality (Roles.getPlayerDataFromMember m) in
  let holds r := In r (Roles.roles m) in
  In nationality Roles.NATIONALITIES
  /\ (nationality = "USSR"%string <->
       holds "USSR"%string \/ (~ holds "US"%string /\ ~ holds "FIA"%string))
  /\ (nationality = "US"%string <-> ~ holds "USSR"%string /\ holds "US"%string)
  /\ (nationality = "FIA"%string <->
        ~ holds "USSR"%string /\ ~ holds "US"%string /\ holds "FIA"%string).
Proof.
  split; [apply nationality_listed|].
  assert (F : forall r, Roles.has_role m r = false -> ~ In r (Roles.roles m)).
  { intros r E H. apply has_role_In in H. congruence. }
  assert (T : forall r, Roles.has_role m r = true -> In r (Roles.roles m))
    by (intros r; apply has_role_In).
  cbn zeta. unfold Roles.getPlayerDataFromMember, Roles.NATIONALITIES.
  cbn [Roles.nationality find].
  repeat match goal with
  | |- context [if Roles.has_role m ?r then _ else _] =>
      let E := fresh "E" in
      destruct (Roles.has_role m r) eqn:E; [apply T in E|apply F in E]
  end;
  cbn [or_default String.eqb Ascii.eqb Bool.eqb andb];
  repeat split; first [discriminate | tauto | intros; tauto | intros; reflexivity].
Qed.

(** ** Loading and saving *)

(** One unreadable file ends the loading: when [player_data.json] cannot be
    read or parsed nothing is loaded at all, and when [war_state.json]
    cannot, neither the war state nor the territory data is, whatever
    their files hold. *)
Theorem loadData_stops_at_unreadable
  (pd : Players.t) (ws : War.warState) (td : Ingestion.jsval)
  (f1 : Storage.file Players.t) (f2 : Storage.file War.warState)
  (f3 : Storage.file Ingestion.jsval)
  (g : option (Storage.file Players.t * Storage.file War.warState)) :
  Storage.loadData (Storage.mkStore pd ws td (Storage.mkDisk Storage.Unreadable f2 f3 g))
  = Storage.mkStore pd ws td (Storage.mkDisk Storage.Unreadable f2 f3 g)
  /\ (let st' := Storage.loadData
                   (Storage.mkStore pd ws td (Storage.mkDisk f1 Storage.Unreadable f3 g)) in
      Storage.warState st' = ws /\ Storage.territoryData st' = td).
Proof.
  split; [reflexivity|]. destruct f1; split; reflexivity.
Qed.

Lemma saveData_memory budget st :
  Storage.playerData (Storage.saveData budget st) = Storage.playerData st
  /\ Storage.warState (Storage.saveData budget st) = Storage.warState st
  /\ Storage.territoryData (Storage.saveData budget st) = Storage.territoryData st.
Proof. repeat split. Qed.

Lemma saveData_main_files budget st :
  (2 <= budget)%nat ->
  Storage.DATA_FILE (Storage.fs (Storage.saveData budget st))
  = Storage.Holds (Storage.playerData st)
  /\ Storage.WAR_FILE (Storage.fs (Storage.saveData budget st))
     = Storage.Holds (Storage.warState st).
Proof.
  intros H. destruct budget as [|[|n]]; try lia.
  unfold Storage.saveData. cbn [Storage.fs_try Storage.set_fs Storage.fs].
  destruct (Storage.GAME_SYNC_DIR (Storage.fs st)) as [dir|] eqn:G.
  - unfold Storage.write_WAR_FILE, Storage.write_DATA_FILE. cbn. rewrite G.
    destruct n as [|[|n]]; split; reflexivity.
  - unfold Storage.write_WAR_FILE, Storage.write_DATA_FILE. cbn. rewrite G.
    destruct n as [|[|[|n]]]; split; reflexivity.
Qed.

(** What [saveData] wrote is what a later [loadData] reads back: when the two
    writes beside the script succeed, a process that starts on the disk left
    behind loads the player data and the war state that were saved. *)
Theorem saveData_loadData_round_trip
  (budget : nat) (st : Storage.store)
  (pd' : Players.t) (ws' : War.warState) (td' : Ingestion.jsval) :
  (2 <= budget)%nat ->
  let restarted :=
    Storage.loadData
      (Storage.mkStore pd' ws' td' (Storage.fs (Storage.saveData budget st))) in
  Storage.playerData restarted = Storage.playerData st
  /\ Storage.warState restarted = Storage.warState st.
Proof.
  intros H restarted. subst restarted.
  destruct (saveData_main_files budget st H) as [E1 E2].
  unfold Storage.loadData. cbn [Storage.fs]. rewrite E1, E2.
  destruct (Storage.TERRITORY_FILE (Storage.fs (Storage.saveData budget st)));
    split; reflexivity.
Qed.

Lemma saveData_loadData_round_trip_witness :
  let st := Storage.mkStore [("200000000000000001"%string, Players.empty)]
              (War.mk true (Some "ike") (Some "2024-01-01T00:00:00.000Z") (Some "US")
                      ["USSR"] ["US"; "USSR"])%string
              (Ingestion.JObj []) disk0 in
  let restarted := Storage.loadData
                     (Storage.mkStore [] War.warState0 Ingestion.JNull
                        (Storage.fs (Storage.saveData 2 st))) in
  Storage.playerData restarted = Storage.playerData st
  /\ Storage.warState restarted = Storage.warState st.
Proof.
  intros st.
  exact (saveData_loadData_round_trip 2 st [] War.warState0 Ingestion.JNull (le_n 2)).
Defined.

(** The game directory is written last: whenever [saveData] changes
    anything in it, both files beside the script already hold the current
    state; and when all five file operations succeed, the two copies hold
    it too. *)
Theorem saveData_game_directory_last (budget : nat) (st : Storage.store) :
  let d := Storage.fs (Storage.saveData budget st) in
  (Storage.GAME_SYNC_DIR d <> Storage.GAME_SYNC_DIR (Storage.fs st) ->
   Storage.DATA_FILE d = Storage.Holds (Storage.playerData st)
   /\ Storage.WAR_FILE d = Storage.Holds (Storage.warState st))
  /\ ((5 <= budget)%nat ->
      Storage.GAME_SYNC_DIR d
      = Some (Storage.Holds (Storage.playerData st), Storage.Holds (Storage.warState st))).
Proof.
  cbn zeta. split.
  - intros N. destruct budget as [|[|n]].
    + exfalso. apply N. reflexivity.
    + exfalso. apply N. reflexivity.
    + apply saveData_main_files. lia.
  - intros H. do 5 (destruct budget as [|budget]; [lia|]).
    unfold Storage.saveData. cbn [Storage.fs_try Storage.set_fs Storage.fs].
    destruct (Storage.GAME_SYNC_DIR (Storage.fs st)) as [dir|] eqn:G;
      unfold Storage.write_WAR_FILE, Storage.write_DATA_FILE; cbn; rewrite G; reflexivity.
Qed.

(** ** The war state *)

Lemma includes_In (l : list string) (t : string) : Text.includes l t = true <-> In t l.
Proof.
  unfold Text.includes. rewrite existsb_exists. split.
  - intros (s & Hs & E). apply String.eqb_eq in E. now subst.
  - intros H. exists t. split; [exact H|apply String.eqb_refl].
Qed.

Lemma includes_not_In (l : list string) (t : string) :
  Text.includes l t = false <-> ~ In t l.
Proof.
  rewrite <- includes_In. destruct (Text.includes l t); split; congruence.
Qed.

Lemma unique_In (l : list string) (t : string) : In t (Text.unique l) <-> In t l.
Proof.
  induction l as [|a l IH]; simpl; [tauto|].
  rewrite filter_In, IH. destruct (String.eqb_spec t a) as [->|N]; simpl.
  - intuition.
  - split; [intros [E|[H _]]; [left; congruence|now right]|].
    intros [E|H]; [congruence|right; split; [exact H|reflexivity]].
Qed.

Lemma unique_NoDup (l : list string) : NoDup (Text.unique l).
Proof.
  induction l as [|a l IH]; simpl; constructor.
  - rewrite filter_In. intros [_ E]. rewrite String.eqb_refl in E. discriminate.
  - apply NoDup_filter. exact IH.
Qed.

Lemma length_eqb_0 {A : Type} (l : list A) : Nat.eqb (List.length l) 0 = true <-> l = [].
Proof. destruct l; simpl; split; congruence. Qed.

Lemma length_eqb_0_false {A : Type} (l : list A) :
  Nat.eqb (List.length l) 0 = false -> l <> [].
Proof. destruct l; simpl; congruence. Qed.

Lemma NoDup_app_new (l new : list string) :
  NoDup l -> NoDup new -> (forall t, In t new -> ~ In t l) -> NoDup (l ++ new).
Proof.
  intros Hl Hn Hd. induction l as [|a l IH]; simpl; [exact Hn|].
  inversion Hl as [|? ? Ha Hl']; subst. constructor.
  - rewrite in_app_iff. intros [H|H]; [contradiction|].
    apply (Hd a H). now left.
  - apply IH; [exact Hl'|]. intros t Ht H. apply (Hd t Ht). now right.
Qed.

Lemma is_str_Some (v : option string) (s : string) : is_str v s = true <-> v = Some s.
Proof.
  destruct v as [s'|]; simpl; [|split; discriminate].
  rewrite String.eqb_eq. split; congruence.
Qed.

Lemma war_inv_init : war_inv War.warState0.
Proof.
  constructor; simpl.
  - constructor.
  - reflexivity.
  - discriminate.
  - intros p. split; [tauto|]. intros [H|H]; [discriminate|exact H].
Qed.

Lemma declarewar_inv (i : Commands.interaction) (st : Storage.store) :
  war_inv (Storage.warState st) ->
  war_inv (Storage.warState (snd (Commands.declarewar i st))).
Proof.
  intros I. unfold Commands.declarewar.
  set (data := Roles.getPlayerDataFromMember (Commands.member i)).
  set (T := filter _ (Text.unique _)).
  assert (NT : NoDup T) by (apply NoDup_filter, unique_NoDup).
  destruct (negb (String.eqb (Roles.rank data) "Head_of_State")); [exact I|].
  destruct (Nat.eqb (List.length T) 0) eqn:ET; [exact I|].
  pose proof (length_eqb_0_false T ET) as TN.
  destruct (War.active (Storage.warState st)) eqn:EA.
  - set (new := filter (fun t => negb (Text.includes _ t)) T).
    destruct (Nat.eqb (List.length new) 0) eqn:EN; [exact I|].
    cbn [snd]. rewrite (proj1 (proj2 (saveData_memory _ _))). cbn.
    destruct I as [I1 I2 I3 I4]. constructor; cbn.
    + apply NoDup_app_new; [exact I1|apply NoDup_filter; exact NT|].
      intros t Ht. apply filter_In in Ht. destruct Ht as [_ Ht].
      apply negb_true_iff, includes_not_In in Ht. exact Ht.
    + congruence.
    + intros _. destruct (I3 EA) as (_ & B & C & D). repeat split; try assumption.
      intros E. apply app_eq_nil in E. destruct E as [_ E].
      exact (length_eqb_0_false _ EN E).
    + intros p. rewrite !in_app_iff, I4. tauto.
  - cbn [snd]. rewrite (proj1 (proj2 (saveData_memory _ _))). cbn.
    constructor; cbn.
    + exact NT.
    + discriminate.
    + intros _. repeat split; try discriminate; [exact TN|].
      eexists. split; [reflexivity|apply nationality_listed].
    + intros p. split.
      * intros [<-|H]; [left; reflexivity|now right].
      * intros [E|H]; [left; congruence|now right].
Qed.

Lemma declarepeace_inv (i : Commands.interaction) (st : Storage.store) :
  war_inv (Storage.warState st) ->
  war_inv (Storage.warState (snd (Commands.declarepeace i st))).
Proof.
  intros I. unfold Commands.declarepeace.
  set (data := Roles.getPlayerDataFromMember (Commands.member i)).
  set (ws := Storage.warState st) in *.
  set (names := Text.unique _).
  destruct (negb (String.eqb (Roles.rank data) "Head_of_State")); [exact I|].
  destruct (War.active ws) eqn:EA; cbn [negb]; [|exact I].
  destruct (Nat.ltb 0 (List.length (filter _ names))); [exact I|].
  set (valid := filter (fun t => Text.includes _ t || is_str _ t) names).
  destruct (Nat.eqb (List.length valid) 0); [exact I|].
  set (T' := filter (fun t => negb (Text.includes valid t)) (War.targetNations ws)).
  destruct I as [I1 I2 I3 I4].
  destruct (Nat.eqb (List.length T') 0) eqn:ET.
  - cbn [snd]. rewrite (proj1 (proj2 (saveData_memory _ _))). cbn.
    apply length_eqb_0 in ET. rewrite ET. apply war_inv_init.
  - cbn [snd]. rewrite (proj1 (proj2 (saveData_memory _ _))). cbn.
    constructor; cbn.
    + apply NoDup_filter. exact I1.
    + congruence.
    + intros _. destruct (I3 EA) as (_ & B & C & D). repeat split; try assumption.
      exact (length_eqb_0_false _ ET).
    + intros p. fold T'. unfold T'. rewrite !filter_In, I4.
      rewrite orb_true_iff, is_str_Some. tauto.
Qed.

Lemma linkidentity_war identityId i st :
  Storage.warState (snd (Commands.linkidentity identityId i st)) = Storage.warState st.
Proof. reflexivity. Qed.

Lemma interactionCreate_snd c i st :
  snd (Commands.interactionCreate c i st)
  = match c with
    | Commands.Declarewar => snd (Commands.declarewar i st)
    | Commands.Declarepeace => snd (Commands.declarepeace i st)
    | Commands.Linkidentity identityid => snd (Commands.linkidentity identityid i st)
    end.
Proof.
  unfold Commands.interactionCreate.
  destruct c;
    [destruct (Commands.declarewar i st) as [[?|?] ?]
    |destruct (Commands.declarepeace i st) as [[?|?] ?]
    |destruct (Commands.linkidentity identityid i st) as [[?|?] ?]]; reflexivity.
Qed.

Lemma interactionCreate_inv c i st :
  war_inv (Storage.warState st) ->
  war_inv (Storage.warState (snd (Commands.interactionCreate c i st))).
Proof.
  intros I. rewrite interactionCreate_snd. destruct c.
  - now apply declarewar_inv.
  - now apply declarepeace_inv.
  - rewrite linkidentity_war. exact I.
Qed.

Lemma run_commands_inv cmds : forall st,
  war_inv (Storage.warState st) -> war_inv (Storage.warState (run_commands cmds st)).
Proof.
  induction cmds as [|[c i] cmds IH]; intros st I; [exact I|].
  apply IH. now apply interactionCreate_inv.
Qed.

(** From the initial war state, after any commands of any members: no
    nation is a target twice, a war is active exactly as long as it has a
    target, declaring nation, user and time are set while it is active and
    cleared when it ends, and the participants are the declaring nation and
    the targets. *)
Theorem war_state_invariant
  (cmds : list (Commands.command * Commands.interaction))
  (pd : Players.t) (td : Ingestion.jsval) (d : Storage.disk) :
  war_inv (Storage.warState (run_commands cmds (Storage.mkStore pd War.warState0 td d))).
Proof. apply run_commands_inv. exact war_inv_init. Qed.

Lemma rank_eqb_head (i : Commands.interaction) :
  head_of_state i ->
  String.eqb (Roles.rank (Roles.getPlayerDataFromMember (Commands.member i)))
             "Head_of_State" = true.
Proof. intros H. apply String.eqb_eq. exact H. Qed.

(** Peace does not ask who the caller's nation is: any two Heads of State
    who name the same nations leave the same state behind, be their nation
    in the war or not. *)
Theorem declarepeace_any_head_of_state
  (m1 m2 : Roles.guildMember) (t1 t2 t3 : option string) (time1 time2 : string)
  (budget : nat) (st : Storage.store) :
  let i1 := Commands.mkInteraction m1 t1 t2 t3 time1 budget in
  let i2 := Commands.mkInteraction m2 t1 t2 t3 time2 budget in
  head_of_state i1 -> head_of_state i2 ->
  snd (Commands.declarepeace i1 st) = snd (Commands.declarepeace i2 st).
Proof.
  intros i1 i2 H1 H2. unfold Commands.declarepeace.
  rewrite (rank_eqb_head i1 H1), (rank_eqb_head i2 H2). cbn [negb].
  subst i1 i2. cbn [Commands.target1 Commands.target2 Commands.target3 Commands.fs_ok].
  destruct (negb (War.active (Storage.warState st))); [reflexivity|].
  destruct (Nat.ltb 0 _); [reflexivity|].
  destruct (Nat.eqb (List.length _) 0); [reflexivity|].
  destruct (Nat.eqb (List.length _) 0); reflexivity.
Qed.

Lemma declarepeace_any_head_of_state_witness :
  let st := snd (Commands.declarewar
                   (Commands.mkInteraction president (Some "USSR"%string) None None
                      "2024-01-01T00:00:00.000Z" 5) store0) in
  let fia_head := Roles.mkMember "200000000000000004" "ali" false
                    ["FIA"; "Head_of_State"]%string in
  War.active (Storage.warState st) = true
  /\ snd (Commands.declarepeace
            (Commands.mkInteraction premier (Some "USSR"%string) None None "t1" 5) st)
     = snd (Commands.declarepeace
              (Commands.mkInteraction fia_head (Some "USSR"%string) None None "t2" 5) st)
  /\ War.active (Storage.warState
       (snd (Commands.declarepeace
               (Commands.mkInteraction fia_head (Some "USSR"%string) None None "t2" 5) st)))
     = false.
Proof.
  intros st fia_head. split; [reflexivity|]. split; [|reflexivity].
  exact (declarepeace_any_head_of_state premier fia_head (Some "USSR"%string) None None
           "t1"%string "t2"%string 5 st eq_refl eq_refl).
Defined.

Lemma filter_all {A : Type} (f : A -> bool) (l : list A) :
  filter (fun a => negb (f a)) l = [] -> filter f l = l.
Proof.
  induction l as [|a l IH]; simpl; [reflexivity|].
  destruct (f a); simpl; [intros H; f_equal; auto|discriminate].
Qed.

(** One name too many voids the whole command: when a named nation is
    neither a target nor the declaring nation, nothing changes and nothing is
    saved, also for the nations that were named rightly. *)
Theorem declarepeace_invalid_target_changes_nothing
  (i : Commands.interaction) (st : Storage.store) (t : string) :
  In t (named i) ->
  ~ In t (War.targetNations (Storage.warState st)) ->
  War.declaredByNation (Storage.warState st) <> Some t ->
  snd (Commands.interactionCreate Commands.Declarepeace i st) = st.
Proof.
  intros Ht Nt Nd. rewrite interactionCreate_snd. unfold Commands.declarepeace.
  destruct (negb (String.eqb _ "Head_of_State")); [reflexivity|].
  destruct (negb (War.active (Storage.warState st))); [reflexivity|].
  fold (named i).
  destruct (filter _ (named i)) as [|bad rest] eqn:EF; [|reflexivity].
  exfalso.
  assert (In t (filter (fun t0 =>
            negb (Text.includes (War.targetNations (Storage.warState st)) t0)
            && negb (is_str (War.declaredByNation (Storage.warState st)) t0)) (named i))).
  { apply filter_In. split; [exact Ht|].
    apply andb_true_iff. split; apply negb_true_iff.
    - apply includes_not_In. exact Nt.
    - destruct (is_str _ t) eqn:E; [|reflexivity].
      apply is_str_Some in E. contradiction. }
  rewrite EF in H. destruct H.
Qed.

Lemma declarepeace_invalid_target_changes_nothing_witness :
  let st := snd (Commands.declarewar
                   (Commands.mkInteraction president (Some "USSR"%string) None None
                      "2024-01-01T00:00:00.000Z" 5) store0) in
  snd (Commands.interactionCreate Commands.Declarepeace
         (Commands.mkInteraction premier (Some "USSR"%string) (Some "FIA"%string) None
            "2024-01-02T00:00:00.000Z" 5) st) = st.
Proof.
  intros st.
  apply (declarepeace_invalid_target_changes_nothing _ st "FIA"%string).
  - simpl. tauto.
  - simpl. intros [H|[]]. discriminate.
  - simpl. discriminate.
Defined.

(** When a Head of State names only nations that are at war, exactly the
    named targets are struck, what was saved is the new state, and the war
    ends exactly when no target remains; an ended war is the initial state
    again. *)
Theorem declarepeace_strikes_named_targets
  (i : Commands.interaction) (st : Storage.store) :
  head_of_state i ->
  War.active (Storage.warState st) = true ->
  named i <> [] ->
  (forall t, In t (named i) ->
     In t (War.targetNations (Storage.warState st))
     \/ War.declaredByNation (Storage.warState st) = Some t) ->
  let ws := Storage.warState st in
  let st' := snd (Commands.interactionCreate Commands.Declarepeace i st) in
  let ws' := Storage.warState st' in
  (forall t, In t (War.targetNations ws') <->
             In t (War.targetNations ws) /\ ~ In t (named i))
  /\ (War.active ws' = false <-> forall t, In t (War.targetNations ws) -> In t (named i))
  /\ (War.active ws' = false -> ws' = War.warState0)
  /\ (War.active ws' = true ->
      War.declaredByNation ws' = War.declaredByNation ws
      /\ War.declaredBy ws' = War.declaredBy ws)
  /\ st' = Storage.saveData (Commands.fs_ok i) (Storage.set_warState ws' st).
Proof.
  intros Hh Ha Hn Hv ws st' ws'. subst st' ws' ws. rewrite interactionCreate_snd.
  unfold Commands.declarepeace. rewrite (rank_eqb_head i Hh).
  set (ws := Storage.warState st) in *. rewrite Ha.
  cbn [negb]. fold (named i).
  assert (EF : filter (fun t => negb (Text.includes (War.targetNations ws) t)
                                && negb (is_str (War.declaredByNation ws) t)) (named i) = []).
  { destruct (filter _ (named i)) as [|bad rest] eqn:EF; [reflexivity|].
    assert (In bad (bad :: rest)) as H by (now left).
    rewrite <- EF in H. apply filter_In in H. destruct H as [H1 H2].
    apply andb_true_iff in H2. destruct H2 as [H2 H3].
    apply negb_true_iff in H2, H3. apply includes_not_In in H2.
    destruct (Hv bad H1) as [K|K]; [contradiction|].
    apply is_str_Some in K. congruence. }
  rewrite EF. cbn [List.length Nat.ltb Nat.leb].
  assert (EV : filter (fun t => Text.includes (War.targetNations ws) t
                                || is_str (War.declaredByNation ws) t) (named i) = named i).
  { apply filter_all. erewrite filter_ext; [exact EF|].
    intros a. cbn. now rewrite negb_orb. }
  rewrite EV.
  destruct (Nat.eqb (List.length (named i)) 0) eqn:E0;
    [apply length_eqb_0 in E0; contradiction|].
  remember (filter (fun t => negb (Text.includes (named i) t)) (War.targetNations ws))
    as T' eqn:DT.
  assert (HT : forall t, In t T' <-> In t (War.targetNations ws) /\ ~ In t (named i)).
  { intros t. rewrite DT, filter_In, negb_true_iff, includes_not_In. tauto. }
  assert (HE : T' = [] <-> forall t, In t (War.targetNations ws) -> In t (named i)).
  { split.
    - intros E t Ht. destruct (in_dec String.string_dec t (named i)) as [K|K]; [exact K|].
      exfalso. assert (In t T') as X by (apply HT; tauto). rewrite E in X. destruct X.
    - intros H. destruct T' as [|a r]; [reflexivity|]. exfalso.
      assert (In a (a :: r)) as X by (now left).
      apply HT in X. destruct X as [X1 X2]. apply X2. now apply H. }
  clear DT.
  destruct (Nat.eqb (List.length T') 0) eqn:ET; cbn [snd];
    rewrite (proj1 (proj2 (saveData_memory _ _))); cbn;
    (split; [exact HT|split; [|split; [|split; [|reflexivity]]]]).
  - split; [intros _; apply HE, length_eqb_0; exact ET|reflexivity].
  - intros _. apply length_eqb_0 in ET. rewrite ET. reflexivity.
  - discriminate.
  - split; [discriminate|].
    intros H. apply HE in H. exfalso. exact (length_eqb_0_false _ ET H).
  - discriminate.
  - intros _. split; reflexivity.
Qed.

Lemma declarepeace_strikes_named_targets_witness :
  let st := snd (Commands.declarewar
                   (Commands.mkInteraction president (Some "USSR"%string) (Some "FIA"%string)
                      None "2024-01-01T00:00:00.000Z" 5) store0) in
  let i := Commands.mkInteraction premier (Some "FIA"%string) None None
             "2024-01-02T00:00:00.000Z" 5 in
  let ws' := Storage.warState (snd (Commands.interactionCreate Commands.Declarepeace i st)) in
  War.targetNations (Storage.warState st) = ["USSR"; "FIA"]%string
  /\ (forall t, In t (War.targetNations ws') <->
                In t (War.targetNations (Storage.warState st)) /\ ~ In t (named i))
  /\ War.targetNations ws' = ["USSR"]%string
  /\ War.active ws' = true.
Proof.
  intros st i ws'. split; [reflexivity|]. split; [|split; reflexivity].
  refine (proj1 (declarepeace_strikes_named_targets i st eq_refl eq_refl _ _)).
  - discriminate.
  - intros t [<-|[]]. left. simpl. tauto.
Defined.

(** A member who holds the Head_of_State role beside any other rank role
    is not taken for a Head of State: both commands are refused and the
    state stays as it is. *)
Theorem head_of_state_beside_lower_rank_refused
  (i : Commands.interaction) (st : Storage.store) (r : string) :
  In r Roles.RANKS -> r <> "Head_of_State"%string -> In r (Roles.roles (Commands.member i)) ->
  Commands.interactionCreate Commands.Declarewar i st
  = ("Only Heads of State can declare war!"%string, st)
  /\ Commands.interactionCreate Commands.Declarepeace i st
     = ("Only Heads of State can declare peace!"%string, st).
Proof.
  intros Hr Nr Hh.
  assert (E : String.eqb (Roles.rank (Roles.getPlayerDataFromMember (Commands.member i)))
                         "Head_of_State" = false).
  { apply String.eqb_neq. exact (lower_rank_not_head (Commands.member i) r Hr Nr Hh). }
  unfold Commands.interactionCreate, Commands.declarewar, Commands.declarepeace.
  rewrite E. split; reflexivity.
Qed.

Lemma head_of_state_beside_lower_rank_refused_witness :
  In "Head_of_State"%string (Roles.roles recruit)
  /\ Commands.interactionCreate Commands.Declarewar
       (Commands.mkInteraction recruit (Some "US"%string) None None "t" 5) store0
     = ("Only Heads of State can declare war!"%string, store0).
Proof.
  split; [simpl; tauto|].
  refine (proj1 (head_of_state_beside_lower_rank_refused
                   (Commands.mkInteraction recruit (Some "US"%string) None None "t" 5)
                   store0 "Private"%string _ _ _)).
  - simpl. tauto.
  - discriminate.
  - simpl. tauto.
Defined.

(** What a Head of State's declaration does to the targets.  The caller's
    own nation is never added, and no nation is listed twice.  A first
    declaration makes the caller's nation the declaring one, with the other
    named nations as targets.  During a war the named nations that are not
    yet targets are appended, by a Head of State of any nation, and the
    declaring nation, user and time stay as they are. *)
Theorem declarewar_targets (i : Commands.interaction) (st : Storage.store) :
  head_of_state i ->
  war_inv (Storage.warState st) ->
  let nation := Roles.nationality (Roles.getPlayerDataFromMember (Commands.member i)) in
  let ws := Storage.warState st in
  let ws' := Storage.warState (snd (Commands.interactionCreate Commands.Declarewar i st)) in
  (forall t, In t (War.targetNations ws') <->
             In t (War.targetNations ws) \/ (War.active ws' = true /\ In t (named i) /\ t <> nation))
  /\ NoDup (War.targetNations ws')
  /\ (War.active ws = true ->
      War.active ws' = true
      /\ War.declaredByNation ws' = War.declaredByNation ws
      /\ War.declaredBy ws' = War.declaredBy ws
      /\ War.declaredAt ws' = War.declaredAt ws
      /\ exists new, War.targetNations ws' = (War.targetNations ws ++ new)%list)
  /\ (War.active ws = false ->
      (exists t, In t (named i) /\ t <> nation) ->
      ws' = War.mk true (Some (Roles.username (Commands.member i))) (Some (Commands.now i))
                   (Some nation)
                   (filter (fun t => negb (String.eqb t nation)) (named i))
                   (nation :: filter (fun t => negb (String.eqb t nation)) (named i))).
Proof.
  intros Hh I nation ws ws'. subst ws'. rewrite interactionCreate_snd.
  pose proof (declarewar_inv i st I) as I'.
  split; [|split; [exact (wi_nodup _ I')|]].
  - clear I'. unfold Commands.declarewar. rewrite (rank_eqb_head i Hh). cbn [negb].
    fold (named i). fold nation. fold ws.
    set (T := filter (fun t => negb (String.eqb t nation)) (named i)).
    assert (HT : forall t, In t T <-> In t (named i) /\ t <> nation).
    { intros t. unfold T. rewrite filter_In, negb_true_iff, String.eqb_neq. tauto. }
    destruct (Nat.eqb (List.length T) 0) eqn:ET.
    + apply length_eqb_0 in ET. intros t. cbn [snd]. split; [tauto|].
      intros [H|(_ & H)]; [exact H|]. apply HT in H. rewrite ET in H. destruct H.
    + destruct (War.active ws) eqn:EA.
      * set (new := filter (fun t => negb (Text.includes (War.targetNations ws) t)) T).
        assert (HN : forall t, In t new <-> In t T /\ ~ In t (War.targetNations ws)).
        { intros t. unfold new. rewrite filter_In, negb_true_iff, includes_not_In. tauto. }
        destruct (Nat.eqb (List.length new) 0) eqn:EN.
        -- apply length_eqb_0 in EN. intros t. cbn [snd]. fold ws. split; [tauto|].
           intros [H|(_ & H)]; [exact H|]. apply HT in H.
           destruct (in_dec String.string_dec t (War.targetNations ws)) as [K|K];
             [exact K|].
           assert (In t new) as X by (apply HN; tauto). rewrite EN in X. destruct X.
        -- intros t. cbn [snd]. rewrite (proj1 (proj2 (saveData_memory _ _))).
           cbn [Storage.warState Storage.set_warState War.targetNations War.active].
           rewrite in_app_iff, HN, HT.
           destruct (in_dec String.string_dec t (War.targetNations ws)); tauto.
      * intros t. cbn [snd]. rewrite (proj1 (proj2 (saveData_memory _ _))).
        cbn [Storage.warState Storage.set_warState War.targetNations War.active].
        rewrite HT. fold ws.
        replace ws with War.warState0 by (symmetry; exact (wi_peace _ I EA)).
        cbn. tauto.
  - clear I'. unfold Commands.declarewar. rewrite (rank_eqb_head i Hh). cbn [negb].
    fold (named i). fold nation. fold ws.
    set (T := filter (fun t => negb (String.eqb t nation)) (named i)).
    split.
    + intros EA. rewrite EA.
      destruct (Nat.eqb (List.length T) 0);
        [cbn [snd]; fold ws; repeat split; auto; exists []; now rewrite app_nil_r|].
      destruct (Nat.eqb (List.length _) 0);
        [cbn [snd]; fold ws; repeat split; auto; exists []; now rewrite app_nil_r|].
      cbn [snd]. rewrite (proj1 (proj2 (saveData_memory _ _))). cbn.
      repeat split; auto. eauto.
    + intros EA (t & Ht & Nt). rewrite EA.
      destruct (Nat.eqb (List.length T) 0) eqn:ET.
      * apply length_eqb_0 in ET.
        assert (In t T) as X
          by (unfold T; rewrite filter_In, negb_true_iff, String.eqb_neq; tauto).
        rewrite ET in X. destruct X.
      * cbn [snd]. rewrite (proj1 (proj2 (saveData_memory _ _))). reflexivity.
Qed.

Lemma declarewar_targets_witness :
  let st := snd (Commands.interactionCreate Commands.Declarewar
                   (Commands.mkInteraction president (Some "USSR"%string) (Some "US"%string)
                      None "2024-01-01T00:00:00.000Z" 5) store0) in
  let ws' := Storage.warState
               (snd (Commands.interactionCreate Commands.Declarewar
                       (Commands.mkInteraction premier (Some "US"%string) (Some "FIA"%string)
                          None "2024-01-02T00:00:00.000Z" 5) st)) in
  War.targetNations (Storage.warState st) = ["USSR"]%string
  /\ War.targetNations ws' = ["USSR"; "US"; "FIA"]%string
  /\ War.participants ws' = ["US"; "USSR"; "US"; "FIA"]%string
  /\ War.declaredByNation ws' = War.declaredByNation (Storage.warState st).
Proof.
  intros st ws'. split; [reflexivity|]. split; [reflexivity|]. split; [reflexivity|].
  assert (I : war_inv (Storage.warState st)).
  { apply (interactionCreate_inv Commands.Declarewar _ store0). exact war_inv_init. }
  destruct (declarewar_targets
              (Commands.mkInteraction premier (Some "US"%string) (Some "FIA"%string)
                 None "2024-01-02T00:00:00.000Z" 5) st eq_refl I)
    as (_ & _ & A & _).
  exact (proj1 (proj2 (A eq_refl))).
Defined.

(** ** Player data *)

Lemma own_update_same {A : Type} (key : string) (f : A -> A) (obj : list (string * A)) :
  own key (update key f obj) = option_map f (own key obj).
Proof.
  induction obj as [|[k v] obj IH]; simpl; [reflexivity|].
  destruct (String.eqb k key) eqn:E; simpl; rewrite E; [reflexivity|exact IH].
Qed.

Lemma own_update_other {A : Type} (key k' : string) (f : A -> A) (obj : list (string * A)) :
  k' <> key -> own k' (update key f obj) = own k' obj.
Proof.
  intros N. induction obj as [|[k v] obj IH]; simpl; [reflexivity|].
  destruct (String.eqb_spec k key) as [->|N0]; simpl.
  - destruct (String.eqb_spec key k'); [congruence|reflexivity].
  - destruct (String.eqb k k'); [reflexivity|exact IH].
Qed.

Lemma own_assign_same key v pd : own key (Players.assign key v pd) = Some v.
Proof.
  induction pd as [|[k p] pd IH]; simpl.
  - now rewrite String.eqb_refl.
  - destruct (String.eqb k key) eqn:E; simpl; rewrite E; [reflexivity|exact IH].
Qed.

Lemma own_assign_other key v pd k' :
  k' <> key -> own k' (Players.assign key v pd) = own k' pd.
Proof.
  intros N. induction pd as [|[k p] pd IH]; simpl.
  - destruct (String.eqb_spec key k'); [congruence|reflexivity].
  - destruct (String.eqb_spec k key) as [->|N0]; simpl.
    + destruct (String.eqb_spec key k'); [congruence|reflexivity].
    + destruct (String.eqb k k'); [reflexivity|exact IH].
Qed.

Lemma own_ensure_same key pd :
  own key (Players.ensure key pd)
  = Some match own key pd with Some p => p | None => Players.empty end.
Proof.
  unfold Players.ensure. destruct (own key pd) as [p|] eqn:E; [exact E|].
  apply own_assign_same.
Qed.

Lemma own_ensure_other key pd k' :
  k' <> key -> own k' (Players.ensure key pd) = own k' pd.
Proof.
  intros N. unfold Players.ensure. destruct (own key pd); [reflexivity|].
  now apply own_assign_other.
Qed.

Lemma linkidentity_entry identityId i st :
  own (Roles.id (Commands.member i))
      (Storage.playerData (snd (Commands.linkidentity identityId i st)))
  = Some (linked identityId (Commands.member i)).
Proof.
  unfold Commands.linkidentity. cbn [snd].
  rewrite (proj1 (saveData_memory _ _)). cbn [Storage.playerData Storage.set_playerData].
  rewrite !own_update_same, own_ensure_same.
  destruct (own _ (Storage.playerData st)); reflexivity.
Qed.

Lemma linkidentity_others identityId i st k :
  k <> Roles.id (Commands.member i) ->
  own k (Storage.playerData (snd (Commands.linkidentity identityId i st)))
  = own k (Storage.playerData st).
Proof.
  intros N. unfold Commands.linkidentity. cbn [snd].
  rewrite (proj1 (saveData_memory _ _)). cbn [Storage.playerData Storage.set_playerData].
  rewrite !own_update_other by exact N. now apply own_ensure_other.
Qed.

(** [/linkidentity] records the identity with the caller's id, name and
    role data, leaves every other player as they were and saves the player
    file when the disk allows one write; and whatever the input, the user is
    answered "An error occurred!", for the reply text reads a name the
    script does not declare. *)
Theorem linkidentity_stored_then_error
  (identityId : string) (i : Commands.interaction) (st : Storage.store) :
  let done := Commands.interactionCreate (Commands.Linkidentity identityId) i st in
  let st' := snd done in
  fst done = "An error occurred!"%string
  /\ own (Roles.id (Commands.member i)) (Storage.playerData st')
     = Some (linked identityId (Commands.member i))
  /\ (forall k, k <> Roles.id (Commands.member i) ->
        own k (Storage.playerData st') = own k (Storage.playerData st))
  /\ Storage.warState st' = Storage.warState st
  /\ ((1 <= Commands.fs_ok i)%nat ->
      Storage.DATA_FILE (Storage.fs st') = Storage.Holds (Storage.playerData st')).
Proof.
  cbn zeta. rewrite interactionCreate_snd.
  split; [reflexivity|]. split; [apply linkidentity_entry|].
  split; [intros k; apply linkidentity_others|]. split; [reflexivity|].
  intros H. unfold Commands.linkidentity. cbn [snd].
  destruct (Commands.fs_ok i) as [|[|n]]; [lia| |].
  - reflexivity.
  - assert (L : (2 <= S (S n))%nat) by lia.
    rewrite (proj1 (saveData_main_files (S (S n)) _ L)). reflexivity.
Qed.

(** ** GET /api/player/:identifier *)

Lemma find_entry_spec id pd k p :
  Api.find_entry id pd = Some (k, p) -> In (k, p) pd /\ Players.steamId p = Some id.
Proof.
  unfold Api.find_entry. intros E. apply find_some in E. destruct E as [H E].
  split; [exact H|]. now apply is_str_Some.
Qed.

Lemma find_entry_none id pd :
  Api.find_entry id pd = None <->
  forall k p, In (k, p) pd -> Players.steamId p <> Some id.
Proof.
  unfold Api.find_entry. split.
  - intros E k p H K. pose proof (find_none _ _ E _ H) as X. cbn in X.
    apply is_str_Some in K. congruence.
  - intros H. destruct (find _ pd) as [[k p]|] eqn:E; [|reflexivity].
    apply find_some in E. destruct E as [E1 E2]. cbn in E2.
    apply is_str_Some in E2. elim (H k p E1 E2).
Qed.

(** The lookup answers 404 exactly when no stored player holds the
    identifier as [steamId]; every other answer carries the identifier asked
    for, and when the member could be fetched, nationality and rank as the
    member's roles give them, whatever is stored. *)
Theorem get_player_answers
  (guild : option (list Roles.guildMember)) (id : string) (pd : Players.t) :
  (Api.get_player guild id pd = Api.NotFound id <->
     forall k p, In (k, p) pd -> Players.steamId p <> Some id)
  /\ (forall p, Api.get_player guild id pd = Api.Json p ->
        Players.steamId p = Some id
        /\ (forall members k stored m,
              guild = Some members -> Api.find_entry id pd = Some (k, stored) ->
              find (fun m => String.eqb (Roles.id m) k) members = Some m ->
              Players.nationality p = Some (Roles.nationality (Roles.getPlayerDataFromMember m))
              /\ Players.rank p = Some (Roles.rank (Roles.getPlayerDataFromMember m))
              /\ Players.discordId p = Some k)).
Proof.
  unfold Api.get_player. split.
  - rewrite <- find_entry_none.
    destruct (Api.find_entry id pd) as [[k stored]|]; [|tauto].
    split; [|discriminate].
    destruct guild as [members|]; [|discriminate].
    destruct (find _ members); discriminate.
  - intros p. destruct (Api.find_entry id pd) as [[k stored]|] eqn:E; [|discriminate].
    apply find_entry_spec in E. destruct E as [_ E].
    destruct guild as [members|].
    + destruct (find _ members) as [m|] eqn:EM; intros X; injection X as <-.
      * split; [exact E|]. intros ms k' st' m' G F' M'.
        injection G as <-. injection F' as <- <-. rewrite EM in M'. injection M' as <-.
        repeat split.
      * split; [exact E|]. intros ms k' st' m' G F' M'.
        injection G as <-. injection F' as <- <-. congruence.
    + intros X. injection X as <-. split; [exact E|]. discriminate.
Qed.

Lemma get_player_NotFound guild id pd s :
  Api.get_player guild id pd = Api.NotFound s -> Api.find_entry id pd = None.
Proof.
  unfold Api.get_player. destruct (Api.find_entry id pd) as [[k stored]|]; [|reflexivity].
  destruct guild as [members|]; [|discriminate].
  destruct (find _ members); discriminate.
Qed.

Lemma assign_new key v pd :
  own key pd = None -> Players.assign key v pd = pd ++ [(key, v)].
Proof.
  induction pd as [|[k p] pd IH]; simpl; [reflexivity|].
  destruct (String.eqb k key); [discriminate|]. intros H. now rewrite IH.
Qed.

Lemma update_last {A : Type} key (f : A -> A) (obj : list (string * A)) v :
  own key obj = None -> update key f (obj ++ [(key, v)]) = obj ++ [(key, f v)].
Proof.
  induction obj as [|[k p] obj IH]; simpl.
  - now rewrite String.eqb_refl.
  - destruct (String.eqb k key); [discriminate|]. intros H. now rewrite IH.
Qed.

Lemma find_app_l {A : Type} (f : A -> bool) (l1 l2 : list A) x :
  find f l1 = Some x -> find f (l1 ++ l2) = Some x.
Proof.
  induction l1 as [|a l1 IH]; simpl; [discriminate|].
  destruct (f a); [auto|exact IH].
Qed.

(** Once an identity is linked, its lookup is never answered 404; but a
    player who was not yet in [playerData] and links an identity another
    player already holds does not take it over: the lookup keeps finding
    the earlier player. *)
Theorem linked_identity_found_first_holder_kept
  (identityId : string) (i : Commands.interaction) (st : Storage.store)
  (guild : option (list Roles.guildMember)) :
  let pd' := Storage.playerData
               (snd (Commands.interactionCreate (Commands.Linkidentity identityId) i st)) in
  Api.get_player guild identityId pd' <> Api.NotFound identityId
  /\ (forall k p,
        Api.find_entry identityId (Storage.playerData st) = Some (k, p) ->
        own (Roles.id (Commands.member i)) (Storage.playerData st) = None ->
        Api.find_entry identityId pd' = Some (k, p)).
Proof.
  cbn zeta. rewrite interactionCreate_snd. split.
  - intros E. apply get_player_NotFound in E.
    pose proof (linkidentity_entry identityId i st) as H. apply own_In in H.
    exact (proj1 (find_entry_none _ _) E _ _ H eq_refl).
  - intros k p F N. unfold Commands.linkidentity. cbn [snd].
    rewrite (proj1 (saveData_memory _ _)). cbn [Storage.playerData Storage.set_playerData].
    unfold Players.ensure. rewrite N, (assign_new _ _ _ N).
    rewrite !(update_last _ _ _ _ N).
    unfold Api.find_entry. apply find_app_l. exact F.
Qed.

(** ** [syncAllPlayers] *)

Lemma sync_member_keeps_links id pd m :
  id <> ""%string ->
  option_map fst (Api.find_entry id (Storage.sync_member pd m))
  = option_map fst (Api.find_entry id pd).
Proof.
  intros Nid. unfold Storage.sync_member. destruct (Roles.bot m); [reflexivity|].
  set (data := Roles.getPlayerDataFromMember m).
  generalize (Some (Roles.id m)) (Some (Roles.username m))
             (Some (Roles.nationality data)) (Some (Roles.rank data)).
  intros a b c d. unfold Api.find_entry.
  induction pd as [|[k p] pd IH]; [reflexivity|].
  cbn [own Players.assign]. destruct (String.eqb k (Roles.id m)).
  - cbn [find snd Players.steamId].
    destruct (Players.steamId p) as [s|]; [|reflexivity].
    destruct (String.eqb_spec s "") as [->|Ns];
      [|destruct (is_str (Some s) id); reflexivity].
    cbn [is_str]. destruct (String.eqb_spec "" id); [congruence|reflexivity].
  - cbn [find snd]. destruct (is_str (Players.steamId p) id); [reflexivity|exact IH].
Qed.

Lemma sync_members_keep_links id members : forall pd,
  id <> ""%string ->
  option_map fst (Api.find_entry id (fold_left Storage.sync_member members pd))
  = option_map fst (Api.find_entry id pd).
Proof.
  induction members as [|m members IH]; intros pd N; [reflexivity|].
  simpl. rewrite IH by exact N. now apply sync_member_keeps_links.
Qed.

Lemma assign_ids key v pd :
  exists new, player_ids (Players.assign key v pd) = player_ids pd ++ new.
Proof.
  induction pd as [|[k p] pd IH]; simpl.
  - now exists [key].
  - destruct (String.eqb k key).
    + exists []. now rewrite app_nil_r.
    + destruct IH as [new E]. exists new. unfold player_ids in *. simpl.
      now rewrite E.
Qed.

Lemma sync_members_ids members : forall pd,
  exists new, player_ids (fold_left Storage.sync_member members pd) = player_ids pd ++ new.
Proof.
  induction members as [|m members IH]; intros pd; simpl.
  - exists []. now rewrite app_nil_r.
  - destruct (IH (Storage.sync_member pd m)) as [new E]. rewrite E.
    unfold Storage.sync_member. destruct (Roles.bot m); [now exists new|].
    destruct (assign_ids (Roles.id m)
                (Players.mkPlayer (Some (Roles.id m)) (Some (Roles.username m))
                   (Some (Roles.nationality (Roles.getPlayerDataFromMember m)))
                   (Some (Roles.rank (Roles.getPlayerDataFromMember m)))
                   match own (Roles.id m) pd with
                   | Some p =>
                       match Players.steamId p with
                       | Some s => if String.eqb s "" then None else Some s
                       | None => None
                       end
                   | None => None
                   end) pd) as [new0 E0].
    rewrite E0, <- app_assoc. eauto.
Qed.

(** A sync forgets nobody and unlinks nobody: the players already stored
    stay, in their order, also when they are no longer among the members;
    and the lookup of an identity finds the same player after the sync as
    before it. *)
Theorem syncAllPlayers_keeps_players_and_links
  (members : list Roles.guildMember) (budget : nat) (st : Storage.store) :
  let pd := Storage.playerData st in
  let pd' := Storage.playerData (Storage.syncAllPlayers members budget st) in
  (exists new, player_ids pd' = player_ids pd ++ new)
  /\ (forall id, id <> ""%string ->
        option_map fst (Api.find_entry id pd') = option_map fst (Api.find_entry id pd)).
Proof.
  cbn zeta. unfold Storage.syncAllPlayers.
  rewrite (proj1 (saveData_memory _ _)). cbn [Storage.playerData Storage.set_playerData].
  split; [apply sync_members_ids|]. intros id N. now apply sync_members_keep_links.
Qed.

Lemma sync_member_other pd m k :
  k <> Roles.id m -> own k (Storage.sync_member pd m) = own k pd.
Proof.
  intros N. unfold Storage.sync_member. destruct (Roles.bot m); [reflexivity|].
  now apply own_assign_other.
Qed.

Lemma sync_members_other members : forall pd k,
  ~ In k (map Roles.id members) ->
  own k (fold_left Storage.sync_member members pd) = own k pd.
Proof.
  induction members as [|m members IH]; intros pd k N; [reflexivity|].
  simpl in *. rewrite IH by tauto. apply sync_member_other. intros E. apply N. now left.
Qed.

(** After a sync every fetched member who is no bot has an entry with their
    id and user name and the nationality and rank of their roles, and with
    the identity they had linked. *)
Theorem syncAllPlayers_records_members
  (members : list Roles.guildMember) (budget : nat) (st : Storage.store)
  (m : Roles.guildMember) :
  NoDup (map Roles.id members) -> In m members -> Roles.bot m = false ->
  exists p,
    own (Roles.id m) (Storage.playerData (Storage.syncAllPlayers members budget st)) = Some p
    /\ Players.discordId p = Some (Roles.id m)
    /\ Players.username p = Some (Roles.username m)
    /\ Players.nationality p = Some (Roles.nationality (Roles.getPlayerDataFromMember m))
    /\ Players.rank p = Some (Roles.rank (Roles.getPlayerDataFromMember m))
    /\ (forall old s, own (Roles.id m) (Storage.playerData st) = Some old ->
          Players.steamId old = Some s -> s <> ""%string -> Players.steamId p = Some s).
Proof.
  intros ND Hm Hb. unfold Storage.syncAllPlayers.
  rewrite (proj1 (saveData_memory _ _)). cbn [Storage.playerData Storage.set_playerData].
  generalize (Storage.playerData st). clear st.
  induction members as [|m0 members IH]; intros pd; [destruct Hm|].
  inversion ND as [|? ? N0 ND']; subst. simpl. destruct Hm as [->|Hm].
  - rewrite sync_members_other by exact N0.
    unfold Storage.sync_member. rewrite Hb. rewrite own_assign_same.
    eexists. split; [reflexivity|]. cbn. repeat split.
    intros old s E1 E2 Ns. rewrite E1, E2.
    destruct (String.eqb_spec s ""); [contradiction|reflexivity].
  - destruct (IH ND' Hm (Storage.sync_member pd m0)) as (p & E & A & B & C & D & F).
    exists p. repeat split; try assumption.
    intros old s E1 E2 Ns. apply (F old s); [|exact E2|exact Ns].
    rewrite sync_member_other; [exact E1|].
    intros X. apply N0. rewrite <- X. now apply in_map.
Qed.

Lemma syncAllPlayers_records_members_witness :
  exists p,
    own (Roles.id premier)
        (Storage.playerData (Storage.syncAllPlayers [president; premier] 5 store0)) = Some p
    /\ Players.nationality p = Some "USSR"%string
    /\ Players.rank p = Some "Head_of_State"%string.
Proof.
  destruct (syncAllPlayers_records_members [president; premier] 5 store0 premier)
    as (p & E & _ & _ & N & R & _).
  - repeat constructor; simpl; intuition discriminate.
  - simpl. tauto.
  - reflexivity.
  - exists p. split; [exact E|]. split; [exact N|exact R].
Defined.

(** ** What makes the publisher throw *)

Lemma inherited_no_faction f :
  inherited f = true ->
  own f Summary.factionBases0 = None /\ own f (Render.factionBases Render.placement0) = None.
Proof.
  unfold inherited. rewrite existsb_exists. intros (k & Hk & E).
  apply String.eqb_eq in E. subst k. simpl in Hk.
  repeat (destruct Hk as [<-|Hk]; [split; reflexivity|]). destruct Hk.
Qed.




Lemma place_step_throws st b :
  render_keys st ->
  match Render.place_step st b with
  | Throw e => e = TypeError /\ breaks_render b = true
  | Return st' => render_keys st' /\ breaks_render b = false
  end.
Proof.
  intros K. unfold Render.place_step, breaks_render.
  destruct (truthy (Base.x b)) as [bx|]; [|split; [exact K|reflexivity]].
  destruct (truthy (Base.z b)) as [bz|]; [|split; [exact K|reflexivity]].
  destruct (Base.faction b) as [f|]; cbn [is_str].
  - destruct (negb (String.eqb f "Neutral")); cbn [andb]; [|split; [exact K|reflexivity]].
    destruct (negb (is_str (Base.type b) "HQ")); cbn [andb]; [|split; [exact K|reflexivity]].
    destruct (own f (Render.factionBases st)) as [pts|] eqn:EO.
    + split; [intros k; cbn [Render.factionBases]; rewrite own_update_none; apply K|].
      destruct (inherited f) eqn:EI; [|reflexivity].
      apply inherited_no_faction in EI. destruct EI as [_ EI].
      apply K in EI. congruence.
    + destruct (inherited f); [split; reflexivity|split; [exact K|reflexivity]].
  - cbn [negb andb]. destruct (negb (is_str (Base.type b) "HQ")); split;
      first [exact K|reflexivity].
Qed.

Lemma place_all_throws bases : forall st,
  render_keys st ->
  match Render.place_all st bases with
  | Throw e => e = TypeError /\ existsb breaks_render bases = true
  | Return _ => existsb breaks_render bases = false
  end.
Proof.
  induction bases as [|b bases IH]; intros st K; simpl; [reflexivity|].
  pose proof (place_step_throws st b K) as S.
  destruct (Render.place_step st b) as [st'|e].
  - destruct S as [K' ->]. simpl. apply IH. exact K'.
  - destruct S as [-> ->]. split; reflexivity.
Qed.

Lemma generateMapImage_throws bases :
  match Render.generateMapImage bases with
  | Throw e => e = TypeError /\ existsb breaks_render bases = true
  | Return _ => existsb breaks_render bases = false
  end.
Proof.
  unfold Render.generateMapImage.
  pose proof (place_all_throws bases Render.placement0 (fun k => iff_refl _)) as H.
  destruct (Render.place_all Render.placement0 bases); exact H.
Qed.

(** The image generation throws exactly when some base that is placed and
    counts for a border (both coordinates truthy, faction not Neutral, type
    not HQ) has a faction that names a member of [Object.prototype]; what it
    throws is a TypeError. *)
Theorem generateMapImage_throws_on_prototype_faction (bases : list Base.t) :
  ((exists e, Render.generateMapImage bases = Throw e) <->
     exists b, In b bases /\ breaks_render b = true)
  /\ (forall e, Render.generateMapImage bases = Throw e -> e = TypeError).
Proof.
  pose proof (generateMapImage_throws bases) as R.
  rewrite <- existsb_exists.
  destruct (Render.generateMapImage bases) as [sc|e1].
  - split; [|discriminate]. split; [intros [e E]; discriminate|congruence].
  - destruct R as [-> R]. split; [|congruence]. split; [intros _; exact R|eauto].
Qed.

(** ** The hull does not depend on the order of its input *)





Lemma lex_le_peq a a' b b' : peq a a' -> peq b b' -> lex_le a b -> lex_le a' b'.
Proof.
  unfold peq, lex_le. intros [A1 A2] [B1 B2] [L|[L1 L2]]; [left|right; split]; lra.
Qed.

Lemma before_peq a a' b b' :
  peq a a' -> peq b b' ->
  Qle_bool (compareFn a b) 0 = Qle_bool (compareFn a' b') 0.
Proof.
  intros Ha Hb.
  destruct (Qle_bool (compareFn a b) 0) eqn:E1, (Qle_bool (compareFn a' b') 0) eqn:E2;
    try reflexivity.
  - apply compareFn_le in E1. apply (lex_le_peq _ _ _ _ Ha Hb), compareFn_le in E1.
    congruence.
  - apply compareFn_le in E2.
    apply (lex_le_peq _ _ _ _ (peq_sym _ _ Ha) (peq_sym _ _ Hb)), compareFn_le in E2.
    congruence.
Qed.

Lemma insert_sorted_peq p p' l l' :
  peq p p' -> Forall2 peq l l' -> Forall2 peq (insert_sorted p l) (insert_sorted p' l').
Proof.
  intros Hp H. induction H as [|h h' t t' Hh H' IH]; simpl.
  - constructor; [exact Hp|constructor].
  - rewrite (before_peq p p' h h' Hp Hh).
    destruct (Qle_bool (compareFn p' h') 0).
    + constructor; [exact Hp|]. constructor; assumption.
    + constructor; [exact Hh|exact IH].
Qed.

Lemma sort_peq l l' : Forall2 peq l l' -> Forall2 peq (sort l) (sort l').
Proof.
  induction 1; simpl; [constructor|]. now apply insert_sorted_peq.
Qed.












(** ** Markers *)

Lemma place_step_positions st b st' :
  Render.place_step st b = Return st' ->
  map Render.draw_marker (Render.basePositions st')
  = (map Render.draw_marker (Render.basePositions st) ++ marker_of b)%list.
Proof.
  intros E. unfold marker_of.
  destruct (truthy (Base.x b)) as [bx|] eqn:Ex;
    [destruct (truthy (Base.z b)) as [bz|] eqn:Ez|].
  - pose proof (place_step_placed st b bx bz Ex Ez) as P. rewrite E in P.
    rewrite P, map_app. reflexivity.
  - rewrite place_step_skip in E by (now right). injection E as <-.
    now rewrite app_nil_r.
  - rewrite place_step_skip in E by (now left). injection E as <-.
    now rewrite app_nil_r.
Qed.

Lemma place_all_positions bases : forall st st',
  Render.place_all st bases = Return st' ->
  map Render.draw_marker (Render.basePositions st')
  = (map Render.draw_marker (Render.basePositions st) ++ flat_map marker_of bases)%list.
Proof.
  induction bases as [|b bases IH]; intros st st' E; simpl in E.
  - injection E as <-. simpl. now rewrite app_nil_r.
  - destruct (Render.place_step st b) as [st1|] eqn:E1; [|discriminate].
    rewrite (IH _ _ E), (place_step_positions _ _ _ E1), <- app_assoc. reflexivity.
Qed.

(** The markers are the bases with both coordinates truthy, one marker
    each and in the order of the payload, HQs and Neutral bases included:
    a star for an HQ, a diamond for a POI, a circle for anything else,
    labelled with the name or, without one, "Unknown". *)
Theorem markers_in_payload_order (bases : list Base.t) (sc : Render.scene) :
  Render.generateMapImage bases = Return sc ->
  Render.markers sc = flat_map marker_of bases.
Proof.
  unfold Render.generateMapImage. intros E.
  destruct (Render.place_all Render.placement0 bases) as [st|] eqn:EP; [|discriminate].
  injection E as <-. cbn [Render.markers].
  exact (place_all_positions bases _ _ EP).
Qed.

Lemma markers_in_payload_order_witness :
  match Render.generateMapImage [us_hq; unplaced_fob; neutral_poi; radio_tower] with
  | Return sc =>
      map Render.m_shape (Render.markers sc) = [Render.Star; Render.Diamond; Render.Circle]
      /\ map Render.m_label (Render.markers sc) = ["Main"; "Crossroads"; "Tower"]%string
  | Throw _ => False
  end.
Proof.
  destruct (Render.generateMapImage [us_hq; unplaced_fob; neutral_poi; radio_tower])
    as [sc|e] eqn:E; [|discriminate E].
  rewrite (markers_in_payload_order _ sc E). split; reflexivity.
Defined.

(** ** The bounding box *)

Lemma Qle_bool_false a b : Qle_bool a b = false -> b <= a.
Proof.
  intros E. destruct (Qlt_le_dec a b) as [H|H]; [|exact H].
  assert (Qle_bool a b = true) by (apply Qle_bool_iff; lra). congruence.
Qed.

Lemma bounds_step_grows bd b :
  bd = Render.bounds0 \/ box_started bd ->
  let bd' := Render.bounds_step bd b in
  (bd' = bd \/ box_started bd')
  /\ (forall q, within (Render.minX bd) (Render.maxX bd) q ->
                within (Render.minX bd') (Render.maxX bd') q)
  /\ (forall q, within (Render.minZ bd) (Render.maxZ bd) q ->
                within (Render.minZ bd') (Render.maxZ bd') q)
  /\ (forall bx bz, truthy (Base.x b) = Some bx -> truthy (Base.z b) = Some bz ->
        box_started bd'
        /\ within (Render.minX bd') (Render.maxX bd') bx
        /\ within (Render.minZ bd') (Render.maxZ bd') bz).
Proof.
  intros S. cbn zeta. unfold Render.bounds_step.
  destruct (truthy (Base.x b)) as [bx|]; [destruct (truthy (Base.z b)) as [bz|]|];
    try (split; [now left|]; split; [tauto|]; split; [tauto|]; discriminate).
  destruct S as [->|(a & a' & c & c' & ->)]; cbn.
  - split; [right; repeat eexists|]. split; [tauto|]. split; [tauto|].
    intros ? ? E1 E2. injection E1 as <-. injection E2 as <-.
    split; [repeat eexists|]. unfold within. cbn. repeat split; lra.
  - split; [right; repeat eexists|].
    unfold within. cbn.
    destruct (Qle_bool a bx) eqn:E1, (Qle_bool bx a') eqn:E2,
             (Qle_bool c bz) eqn:E3, (Qle_bool bz c') eqn:E4;
      try apply Qle_bool_iff in E1; try apply Qle_bool_iff in E2;
      try apply Qle_bool_iff in E3; try apply Qle_bool_iff in E4;
      try apply Qle_bool_false in E1; try apply Qle_bool_false in E2;
      try apply Qle_bool_false in E3; try apply Qle_bool_false in E4;
      (split; [intros q [? ?]; split; lra|]);
      (split; [intros q [? ?]; split; lra|]);
      intros ? ? X1 X2; injection X1 as <-; injection X2 as <-;
      (split; [repeat eexists|]); repeat split; lra.
Qed.

Lemma bounds_fold bases : forall bd,
  bd = Render.bounds0 \/ box_started bd ->
  let bd' := fold_left Render.bounds_step bases bd in
  (bd' = Render.bounds0 \/ box_started bd')
  /\ (forall q, within (Render.minX bd) (Render.maxX bd) q ->
                within (Render.minX bd') (Render.maxX bd') q)
  /\ (forall q, within (Render.minZ bd) (Render.maxZ bd) q ->
                within (Render.minZ bd') (Render.maxZ bd') q)
  /\ (forall b bx bz, In b bases ->
        truthy (Base.x b) = Some bx -> truthy (Base.z b) = Some bz ->
        within (Render.minX bd') (Render.maxX bd') bx
        /\ within (Render.minZ bd') (Render.maxZ bd') bz)
  /\ ((forall b, In b bases -> truthy (Base.x b) = None \/ truthy (Base.z b) = None) ->
      bd' = bd).
Proof.
  induction bases as [|b bases IH]; intros bd S; cbn zeta; simpl.
  - split; [exact S|]. split; [tauto|]. split; [tauto|]. split; [intros ? ? ? []|reflexivity].
  - destruct (bounds_step_grows bd b S) as (S1 & X1 & Z1 & P1). cbn zeta in *.
    assert (S1' : Render.bounds_step bd b = Render.bounds0
                  \/ box_started (Render.bounds_step bd b)).
    { destruct S1 as [->|S1]; [exact S|now right]. }
    destruct (IH _ S1') as (S2 & X2 & Z2 & P2 & N2). cbn zeta in *.
    split; [exact S2|]. split; [auto|]. split; [auto|]. split.
    + intros b0 bx bz [<-|Hin] Ex Ez; [|eapply P2; eauto].
      destruct (P1 bx bz Ex Ez) as (_ & A & B). split; auto.
    + intros H. rewrite N2 by (intros b0 Hb; apply H; now right).
      apply bounds_step_skip. apply H. now left.
Qed.

(** The bounding box that is logged holds every placed base: the x of a
    base with both coordinates truthy lies between [minX] and [maxX] and its
    z between [minZ] and [maxZ]; and when no base has both, the box is still
    [Infinity .. -Infinity]. *)
Theorem bounding_box_holds_placed_bases (bases : list Base.t) :
  let box := fold_left Render.bounds_step bases Render.bounds0 in
  (forall sc, Render.generateMapImage bases = Return sc -> Render.logged sc = box)
  /\ (forall b bx bz, In b bases ->
        truthy (Base.x b) = Some bx -> truthy (Base.z b) = Some bz ->
        within (Render.minX box) (Render.maxX box) bx
        /\ within (Render.minZ box) (Render.maxZ box) bz)
  /\ ((forall b, In b bases -> truthy (Base.x b) = None \/ truthy (Base.z b) = None) ->
      box = Render.bounds0).
Proof.
  cbn zeta. destruct (bounds_fold bases Render.bounds0 (or_introl eq_refl))
    as (_ & _ & _ & P & N). cbn zeta in *.
  split; [|split; [exact P|exact N]].
  intros sc E. unfold Render.generateMapImage in E.
  destruct (Render.place_all Render.placement0 bases); [|discriminate].
  injection E as <-. reflexivity.
Qed.

(** ** More on the ingestion *)

(** When the write of the territory file fails, the request is answered
    with status 500, but the assignment of bot.js 1493 has happened: the GET
    handler serves the new snapshot, while the file, and with it the next
    reload of the publisher, still has the old one. *)
Theorem post_write_failure_keeps_new_snapshot
  (JSON_parse : string -> option Ingestion.jsval)
  (req : Ingestion.request) (st : Ingestion.server) (d v : Ingestion.jsval) :
  Ingestion.parse_payload JSON_parse (Ingestion.body req) = Return d ->
  Ingestion.stamp d (Ingestion.now req) = Return v ->
  Ingestion.disk_ok req = false ->
  let result := Ingestion.post_territory JSON_parse req st in
  fst result = Return (Ingestion.Response 500 Ingestion.failure_body)
  /\ Ingestion.get_territory (snd result) = Ingestion.Response 200 v
  /\ Ingestion.territoryFile (snd result) = Ingestion.territoryFile st
  /\ (forall old, Ingestion.territoryFile st = Some old ->
        Ingestion.publisher_view (snd result) = old).
Proof.
  intros EP ES ED. cbn zeta. rewrite post_territory_cases, EP, ES, ED. cbn.
  repeat split. intros old E. unfold Ingestion.publisher_view. cbn. now rewrite E.
Qed.

Lemma post_write_failure_keeps_new_snapshot_witness :
  let req := Ingestion.mkRequest alpha_snapshot "2024-01-01T00:00:30.000Z" false true in
  let st := Ingestion.mkServer snapshot_A (Some snapshot_A) in
  let result := Ingestion.post_territory alpha_parse req st in
  fst result = Return (Ingestion.Response 500 Ingestion.failure_body)
  /\ bases_of (Ingestion.territoryData (snd result)) = bases_of alpha_snapshot
  /\ Ingestion.publisher_view (snd result) = snapshot_A.
Proof.
  intros req st result.
  destruct (post_write_failure_keeps_new_snapshot alpha_parse req st alpha_snapshot _
              eq_refl eq_refl eq_refl) as (A & _ & _ & D).
  split; [exact A|]. split; [reflexivity|]. exact (D snapshot_A eq_refl).
Defined.

(** The endpoint checks nothing about the payload: a decoded value that is
    no object (an array of bases, a number, a text, a boolean) is stored as
    the snapshot and answered with status 200, and the snapshot then has no
    base list. *)
Theorem post_accepts_payload_without_bases
  (JSON_parse : string -> option Ingestion.jsval)
  (req : Ingestion.request) (st : Ingestion.server) (d : Ingestion.jsval) :
  Ingestion.parse_payload JSON_parse (Ingestion.body req) = Return d ->
  (forall props, d <> Ingestion.JObj props) ->
  d <> Ingestion.JNull -> d <> Ingestion.JUndefined ->
  Ingestion.disk_ok req = true ->
  Ingestion.post_territory JSON_parse req st
  = (Return (Ingestion.Response 200 Ingestion.success_body), Ingestion.mkServer d (Some d))
  /\ bases_of d = Ingestion.JUndefined
  /\ Ingestion.get_prop d "lastUpdate" = Ingestion.JUndefined.
Proof.
  intros EP NO NN NU ED. rewrite post_territory_cases, EP.
  destruct d as [| |b|q|s|items|props];
    [congruence|congruence| | | | |elim (NO props); reflexivity];
    cbn; rewrite ED; repeat split.
Qed.

Lemma post_accepts_payload_without_bases_witness :
  let array := Ingestion.JArr [Ingestion.JObj [("name"%string, Ingestion.JStr "Alpha")]] in
  Ingestion.post_territory alpha_parse
    (Ingestion.mkRequest array "2024-01-01T00:00:00.000Z" true true)
    (Ingestion.mkServer alpha_snapshot (Some alpha_snapshot))
  = (Return (Ingestion.Response 200 Ingestion.success_body),
     Ingestion.mkServer array (Some array)).
Proof.
  intros array.
  refine (proj1 (post_accepts_payload_without_bases alpha_parse
                   (Ingestion.mkRequest array "2024-01-01T00:00:00.000Z" true true)
                   (Ingestion.mkServer alpha_snapshot (Some alpha_snapshot)) array
                   eq_refl _ _ _ eq_refl)); discriminate.
Defined.

(** ** The text of the fields *)

Lemma own_add_prop_other {A : Type} (key k : string) (v : A) (obj : list (string * A)) :
  k <> key -> own k (Embed.add_prop key v obj) = own k obj.
Proof.
  intros N. induction obj as [|[k0 w] obj IH]; cbn [Embed.add_prop own].
  - destruct (String.eqb_spec key k); [congruence|reflexivity].
  - destruct (Embed.array_index key) as [n|], (Embed.array_index k0) as [m|];
      try destruct (N.ltb n m); cbn [own];
      try (destruct (String.eqb_spec key k); [congruence|]);
      try reflexivity;
      destruct (String.eqb k0 k); try reflexivity; exact IH.
Qed.

Lemma own_add_prop_same {A : Type} (key : string) (v : A) (obj : list (string * A)) :
  own key obj = None -> own key (Embed.add_prop key v obj) = Some v.
Proof.
  induction obj as [|[k0 w] obj IH]; cbn [Embed.add_prop own].
  - now rewrite String.eqb_refl.
  - destruct (String.eqb k0 key) eqn:E; [discriminate|]. intros H.
    destruct (Embed.array_index key) as [n|], (Embed.array_index k0) as [m|];
      try destruct (N.ltb n m); cbn [own]; rewrite ?String.eqb_refl, ?E; auto.
Qed.

Lemma own_update_Some {A : Type} (key k : string) (f : A -> A) (obj : list (string * A)) :
  own k (update key f obj)
  = if String.eqb k key then option_map f (own k obj) else own k obj.
Proof.
  destruct (String.eqb_spec k key) as [->|N].
  - apply own_update_same.
  - now apply own_update_other.
Qed.

(** What a round of the grouping does to the group of each type. *)
Lemma group_step_groups groups poi :
  plain_keys groups ->
  match Embed.group_step groups poi with
  | Throw e => e = TypeError /\ inherited (poi_type poi) = true
  | Return groups' =>
      inherited (poi_type poi) = false /\ plain_keys groups'
      /\ forall type,
           own type groups'
           = if String.eqb (poi_type poi) type
             then Some (match own type groups with Some names => names | None => [] end
                        ++ [Base.name poi])%list
             else own type groups
  end.
Proof.
  intros K. unfold Embed.group_step. fold (poi_type poi).
  destruct (own (poi_type poi) groups) as [names|] eqn:E.
  - assert (I : inherited (poi_type poi) = false).
    { destruct (inherited (poi_type poi)) eqn:I; [|reflexivity].
      rewrite (K _ I) in E. discriminate. }
    split; [exact I|]. split.
    + intros k Hk. rewrite own_update_Some.
      destruct (String.eqb k (poi_type poi)); [rewrite (K k Hk)|]; auto.
    + intros type. rewrite own_update_Some, (String.eqb_sym type).
      destruct (String.eqb_spec (poi_type poi) type) as [<-|N]; [|reflexivity].
      rewrite E. reflexivity.
  - destruct (inherited (poi_type poi)) eqn:I; [split; reflexivity|].
    split; [reflexivity|]. split.
    + intros k Hk. rewrite own_add_prop_other; [auto|]. intros ->. congruence.
    + intros type. destruct (String.eqb_spec (poi_type poi) type) as [<-|N].
      * rewrite own_add_prop_same by exact E. rewrite E. reflexivity.
      * apply own_add_prop_other. congruence.
Qed.

Lemma group_all_groups pois : forall groups,
  plain_keys groups ->
  match Embed.group_all groups pois with
  | Throw e => e = TypeError /\ existsb breaks_poi_type pois = true
  | Return groups' =>
      existsb breaks_poi_type pois = false
      /\ forall type,
           own type groups'
           = match own type groups, names_of_type type pois with
             | None, [] => None
             | Some names, more => Some (names ++ more)%list
             | None, more => Some more
             end
  end.
Proof.
  induction pois as [|poi pois IH]; intros groups K; cbn [Embed.group_all existsb].
  - split; [reflexivity|]. intros type. unfold names_of_type. cbn.
    destruct (own type groups); [now rewrite app_nil_r|reflexivity].
  - pose proof (group_step_groups groups poi K) as S.
    destruct (Embed.group_step groups poi) as [groups1|e].
    + destruct S as (I & K1 & S).
      assert (B : breaks_poi_type poi = false) by exact I. rewrite B. cbn [orb].
      specialize (IH groups1 K1).
      destruct (Embed.group_all groups1 pois) as [groups2|e]; [|exact IH].
      destruct IH as [X IH]. split; [exact X|]. intros type.
      rewrite IH, S. unfold names_of_type. cbn [filter].
      destruct (String.eqb (poi_type poi) type); cbn [map].
      * destruct (own type groups) as [names|]; cbn [app].
        -- now rewrite <- app_assoc.
        -- reflexivity.
      * reflexivity.
    + destruct S as [-> S].
      assert (B : breaks_poi_type poi = true) by exact S. rewrite B. split; reflexivity.
Qed.

Lemma plain_keys_nil : plain_keys [].
Proof. intros k _. reflexivity. Qed.

(** The POIs of a faction are grouped by [poiType || 'Other']: each type
    that occurs has one group, which holds the names of its POIs in their
    order, and no other type has a group; the grouping throws, a
    TypeError, exactly when a type names a member of [Object.prototype]. *)
Theorem poiGroups_by_type (pois : list Base.t) :
  match Embed.poiGroups pois with
  | Throw e =>
      e = TypeError /\ exists poi, In poi pois /\ inherited (poi_type poi) = true
  | Return groups =>
      (forall poi, In poi pois -> inherited (poi_type poi) = false)
      /\ forall type,
           own type groups
           = match names_of_type type pois with
             | [] => None
             | names => Some names
             end
  end.
Proof.
  unfold Embed.poiGroups.
  pose proof (group_all_groups pois [] plain_keys_nil) as G.
  destruct (Embed.group_all [] pois) as [groups|e].
  - destruct G as [X G]. split.
    + intros poi H. destruct (inherited (poi_type poi)) eqn:I; [|reflexivity].
      assert (existsb breaks_poi_type pois = true)
        by (apply existsb_exists; exists poi; split; [exact H|exact I]).
      congruence.
    + intros type. rewrite G. cbn [own]. destruct (names_of_type type pois); reflexivity.
  - destruct G as [-> G]. split; [reflexivity|]. apply existsb_exists in G. exact G.
Qed.










(** With a builder that refuses a value of more than 1024 characters,
    eighty bases with plain names stop the building at the field of their
    faction; sixty do not. *)
Example long_field_refused :
  (exists f, Embed.fields short_values (fobs_of_US 80) = Embed.Stopped (Embed.Refused f))
  /\ (exists fs, Embed.fields short_values (fobs_of_US 60) = Embed.Fields fs).
Proof. split; vm_compute; eexists; reflexivity. Qed.

(** ** The roles of the guild *)

Lemma find_role_In cache r : In r cache -> Guild.find_role cache (Guild.name r) <> None.
Proof.
  unfold Guild.find_role. intros H E.
  pose proof (find_none _ _ E r H) as X. cbn in X.
  rewrite String.eqb_refl in X. discriminate.
Qed.

Lemma find_role_app_None cache more n :
  Guild.find_role (cache ++ more) n = None -> Guild.find_role cache n = None.
Proof.
  unfold Guild.find_role. intros E.
  destruct (find _ cache) as [r|] eqn:F; [|reflexivity].
  rewrite (find_app_l _ _ more _ F) in E. discriminate.
Qed.

Lemma find_role_app_Some cache more n :
  Guild.find_role cache n <> None -> Guild.find_role (cache ++ more) n <> None.
Proof. intros H E. apply H. now apply find_role_app_None in E. Qed.

Lemma create_missing_spec color names : forall budget cache,
  NoDup names ->
  exists new,
    snd (Guild.create_missing color names budget cache) = (cache ++ new)%list
    /\ NoDup (map Guild.name new)
    /\ (forall r, In r new ->
          In (Guild.name r) names /\ Guild.color r = color
          /\ Guild.find_role cache (Guild.name r) = None)
    /\ (fst (Guild.create_missing color names budget cache) <> None ->
        forall n, In n names ->
          Guild.find_role (snd (Guild.create_missing color names budget cache)) n <> None).
Proof.
  induction names as [|n names IH]; intros budget cache ND; cbn [Guild.create_missing].
  - exists []. cbn [snd fst map]. rewrite app_nil_r.
    split; [reflexivity|]. split; [constructor|]. split; [intros r []|intros _ n' []].
  - inversion ND as [|? ? Nn ND']; subst.
    destruct (Guild.find_role cache n) as [r0|] eqn:F.
    + destruct (IH budget cache ND') as (new & E & D & P & A).
      exists new. split; [exact E|]. split; [exact D|]. split.
      * intros r H. destruct (P r H) as (H1 & H2 & H3). repeat split; auto. now right.
      * intros Ok n' [<-|H]; [|now apply A].
        rewrite E. apply find_role_app_Some. congruence.
    + destruct budget as [|budget'].
      * exists []. cbn [snd fst map]. rewrite app_nil_r.
        split; [reflexivity|]. split; [constructor|]. split; [intros r []|congruence].
      * destruct (IH budget' (cache ++ [Guild.mkRole n color])%list ND')
          as (new & E & D & P & A).
        exists (Guild.mkRole n color :: new). split; [|split; [|split]].
        -- rewrite E, <- app_assoc. reflexivity.
        -- cbn. constructor; [|exact D]. intros H. apply in_map_iff in H.
           destruct H as (r & Hr & Hin). destruct (P r Hin) as (_ & _ & X).
           apply (find_role_In (cache ++ [Guild.mkRole n color]) (Guild.mkRole n color)).
           ++ apply in_or_app. right. now left.
           ++ cbn [Guild.name]. rewrite Hr in X. exact X.
        -- intros r [<-|H]; cbn.
           ++ repeat split; [now left|exact F].
           ++ destruct (P r H) as (H1 & H2 & H3). repeat split; auto.
              now apply find_role_app_None in H3.
        -- intros Ok n' [<-|H]; [|now apply A].
           rewrite E. apply find_role_app_Some.
           apply (find_role_In _ (Guild.mkRole n color)). apply in_or_app. right. now left.
Qed.

Lemma create_missing_nothing color names : forall budget cache,
  (forall n, In n names -> Guild.find_role cache n <> None) ->
  Guild.create_missing color names budget cache = (Some budget, cache).
Proof.
  induction names as [|n names IH]; intros budget cache H; cbn [Guild.create_missing];
    [reflexivity|].
  destruct (Guild.find_role cache n) eqn:F; [|elim (H n (or_introl eq_refl) F)].
  apply IH. intros n' Hn'. apply H. now right.
Qed.

Lemma NATIONALITIES_NoDup : NoDup Roles.NATIONALITIES.
Proof. repeat constructor; simpl; intuition discriminate. Qed.

Lemma RANKS_NoDup : NoDup Roles.RANKS.
Proof. repeat constructor; simpl; intuition discriminate. Qed.

(** [ensureRolesExist] creates a role only for a name of [NATIONALITIES]
    or [RANKS] that no role of the cache has, once, Blue for a nationality
    and Green for a rank, and leaves the roles of the cache alone; when it
    resolves, every one of the ten names has a role, and a second run
    creates nothing. *)
Theorem ensureRolesExist_creates_missing_roles (budget : nat) (cache : list Guild.role) :
  let done := fst (Guild.ensureRolesExist budget cache) in
  let cache' := snd (Guild.ensureRolesExist budget cache) in
  (exists new,
      cache' = (cache ++ new)%list
      /\ NoDup (map Guild.name new)
      /\ forall r, In r new ->
           Guild.find_role cache (Guild.name r) = None
           /\ ((In (Guild.name r) Roles.NATIONALITIES /\ Guild.color r = "Blue"%string)
               \/ (In (Guild.name r) Roles.RANKS /\ Guild.color r = "Green"%string)))
  /\ (done = true ->
      (forall n, In n (Roles.NATIONALITIES ++ Roles.RANKS) ->
         Guild.find_role cache' n <> None)
      /\ forall budget', Guild.ensureRolesExist budget' cache' = (true, cache')).
Proof.
  cbn zeta. unfold Guild.ensureRolesExist.
  destruct (create_missing_spec "Blue" Roles.NATIONALITIES budget cache NATIONALITIES_NoDup)
    as (new1 & E1 & D1 & P1 & A1).
  destruct (Guild.create_missing "Blue" Roles.NATIONALITIES budget cache)
    as [[budget1|] cache1]; cbn [fst snd] in *.
  - destruct (create_missing_spec "Green" Roles.RANKS budget1 cache1 RANKS_NoDup)
      as (new2 & E2 & D2 & P2 & A2).
    assert (Both : exists new,
              snd (Guild.create_missing "Green" Roles.RANKS budget1 cache1)
              = (cache ++ new)%list
              /\ NoDup (map Guild.name new)
              /\ forall r, In r new ->
                   Guild.find_role cache (Guild.name r) = None
                   /\ ((In (Guild.name r) Roles.NATIONALITIES
                        /\ Guild.color r = "Blue"%string)
                       \/ (In (Guild.name r) Roles.RANKS
                           /\ Guild.color r = "Green"%string))).
    { exists (new1 ++ new2)%list. split; [rewrite E2, E1, app_assoc; reflexivity|]. split.
      - rewrite map_app. apply NoDup_app_new; [exact D1|exact D2|].
        intros t H2 H1. apply in_map_iff in H2. destruct H2 as (r2 & <- & H2).
        apply in_map_iff in H1. destruct H1 as (r1 & N1 & H1).
        destruct (P2 r2 H2) as (_ & _ & X). rewrite <- N1 in X.
        apply (find_role_In cache1 r1); [|exact X].
        rewrite E1. apply in_or_app. now right.
      - intros r H. apply in_app_or in H. destruct H as [H|H].
        + destruct (P1 r H) as (H1 & H2 & H3). split; [exact H3|]. left. now split.
        + destruct (P2 r H) as (H1 & H2 & H3). split.
          * rewrite E1 in H3. now apply find_role_app_None in H3.
          * right. now split. }
    destruct (Guild.create_missing "Green" Roles.RANKS budget1 cache1)
      as [[budget2|] cache2]; cbn [fst snd] in *.
    + split; [exact Both|]. intros _.
      assert (All : forall n, In n (Roles.NATIONALITIES ++ Roles.RANKS) ->
                      Guild.find_role cache2 n <> None).
      { intros n H. apply in_app_or in H. destruct H as [H|H].
        - rewrite E2. apply find_role_app_Some. apply A1; [discriminate|exact H].
        - apply A2; [discriminate|exact H]. }
      split; [exact All|]. intros budget'.
      rewrite create_missing_nothing
        by (intros n H; apply All; apply in_or_app; now left).
      rewrite create_missing_nothing
        by (intros n H; apply All; apply in_or_app; now right).
      reflexivity.
    + split; [exact Both|discriminate].
  - split; [|discriminate]. exists new1. split; [exact E1|]. split; [exact D1|].
    intros r H. destruct (P1 r H) as (H1 & H2 & H3). split; [exact H3|]. left. now split.
Qed.

(* ================================================================== *)
(** * Part V.  The hull and the coordinate mapping over doubles       *)
(* ================================================================== *)

Local Open Scope Z_scope.


(** ** Binary digits *)

Lemma digits2_log2 (p : positive) : Zpos (digits2_pos p) = Z.log2 (Zpos p) + 1.
Proof.
  assert (S : forall q, digits2_pos q = Pos.size q) by (induction q; simpl; congruence).
  rewrite S. destruct p; simpl; try reflexivity; now rewrite Pos.add_1_r.
Qed.

Lemma log2_scaled n k : 0 < n -> 0 <= k -> Z.log2 (n * 2 ^ k) = Z.log2 n + k.
Proof. intros. rewrite Z.log2_mul_pow2; lia. Qed.

Lemma log2_below n : 0 < n -> n < 2 ^ 53 -> Z.log2 n + 1 <= 53.
Proof. intros P B. apply (Z.log2_lt_pow2 n 53 P) in B. lia. Qed.

(** ** Shifts *)


Lemma shr_1_even k : 0 < k -> shr_1 (kept (2 * k)) = kept k.
Proof. destruct k; try lia. reflexivity. Qed.

Lemma pow2_xO (p : positive) : 2 ^ Zpos p~0 = 2 ^ Zpos p * 2 ^ Zpos p.
Proof. replace (Zpos p~0) with (Zpos p + Zpos p) by lia. apply Z.pow_add_r; lia. Qed.

Lemma pow2_xI (p : positive) : 2 ^ Zpos p~1 = 2 * (2 ^ Zpos p * 2 ^ Zpos p).
Proof.
  replace (Zpos p~1) with (1 + (Zpos p + Zpos p)) by lia.
  rewrite !Z.pow_add_r by lia. reflexivity.
Qed.

Lemma iter_shr_1 (p : positive) : forall k, 0 < k ->
  iter_pos shr_1 p (kept (k * 2 ^ Zpos p)) = kept k.
Proof.
  induction p as [p IH|p IH|]; intros k K; cbn [iter_pos].
  - replace (k * 2 ^ Z.pos p~1) with (2 * ((k * 2 ^ Zpos p) * 2 ^ Zpos p))
      by (rewrite pow2_xI; ring).
    assert (0 < 2 ^ Zpos p) by (apply Z.pow_pos_nonneg; lia).
    rewrite shr_1_even by nia. rewrite IH by nia. apply IH, K.
  - replace (k * 2 ^ Z.pos p~0) with ((k * 2 ^ Zpos p) * 2 ^ Zpos p)
      by (rewrite pow2_xO; ring).
    assert (0 < 2 ^ Zpos p) by (apply Z.pow_pos_nonneg; lia).
    rewrite IH by nia. apply IH, K.
  - replace (k * 2 ^ 1) with (2 * k) by (rewrite Z.pow_1_r; ring). now apply shr_1_even.
Qed.

Lemma iter_xO (m d : positive) : Zpos (Pos.iter xO m d) = Zpos m * 2 ^ Zpos d.
Proof.
  apply (Pos.iter_ind _ xO m (fun p a => Zpos a = Zpos m * 2 ^ Zpos p)).
  - rewrite Z.pow_1_r. lia.
  - intros p a E. rewrite Pos2Z.inj_succ, Z.pow_succ_r by lia. rewrite Pos2Z.inj_xO, E. ring.
Qed.

Lemma shl_align_spec (m : positive) e e' :
  e' <= e -> shl_align m e e' = (Z.to_pos (Zpos m * 2 ^ (e - e')), e').
Proof.
  intros L. unfold shl_align. destruct (e' - e) as [|d|d] eqn:E; try lia.
  - assert (e' = e) as -> by lia. rewrite Z.sub_diag, Z.pow_0_r, Z.mul_1_r. reflexivity.
  - replace (e - e') with (Zpos d) by lia. rewrite <- iter_xO. reflexivity.
Qed.

(** ** Rounding a value that needs none *)


Lemma fexp_eq k : fexp k = Z.max (k - 53) (-1074).
Proof. reflexivity. Qed.

Lemma Zdigits2_log2 k : 0 < k -> Zdigits2 k = Z.log2 k + 1.
Proof. destruct k; try lia. intros _. apply digits2_log2. Qed.

(** [k] at exponent [t] is canonical; handed over as [k * 2^(t - E)] at a
    lower exponent [E], it is what the rounding returns. *)
Lemma round_aux_exact (s : bool) (k t E : Z) :
  0 < k -> fexp (Z.log2 k + 1 + t) = t -> t <= 971 -> E <= t ->
  binary_round_aux Double.prec Double.emax s (k * 2 ^ (t - E)) E loc_Exact
  = S754_finite s (Z.to_pos k) t.
Proof.
  intros K C T L.
  assert (P : 0 < 2 ^ (t - E)) by (apply Z.pow_pos_nonneg; lia).
  assert (D : Zdigits2 (k * 2 ^ (t - E)) + E = Z.log2 k + 1 + t).
  { rewrite Zdigits2_log2 by nia. rewrite log2_scaled by lia. lia. }
  unfold binary_round_aux, shr_fexp. rewrite D. fold (fexp (Z.log2 k + 1 + t)). rewrite C.
  assert (S : shr (shr_record_of_loc (k * 2 ^ (t - E)) loc_Exact) E (t - E) = (kept k, t)).
  { unfold shr. cbn [shr_record_of_loc]. fold (kept (k * 2 ^ (t - E))).
    destruct (t - E) as [|p|p] eqn:EP; try lia.
    - rewrite Z.pow_0_r, Z.mul_1_r. f_equal. lia.
    - rewrite iter_shr_1 by exact K. f_equal. lia. }
  rewrite S. cbn [kept shr_m loc_of_shr_record round_nearest_even].
  rewrite Zdigits2_log2 by exact K. fold (fexp (Z.log2 k + 1 + t)). rewrite C, Z.sub_diag.
  cbn [shr shr_record_of_loc shr_m].
  destruct k as [|k'|k']; try lia.
  replace (t <=? Double.emax - Double.prec) with true; [reflexivity|].
  symmetry. apply Z.leb_le. unfold Double.emax, Double.prec. lia.
Qed.


Lemma canon_exponent_le n e : n <> 0 -> representable n e -> canon_exponent n e <= e /\ -1074 <= canon_exponent n e <= 971.
Proof.
  intros N [B R]. unfold canon_exponent. rewrite fexp_eq.
  pose proof (log2_below (Z.abs n) ltac:(lia) B). lia.
Qed.

Lemma canon_exponent_fix n e : n <> 0 -> representable n e ->
  fexp (Z.log2 (Z.abs n * 2 ^ (e - canon_exponent n e)) + 1 + canon_exponent n e) = canon_exponent n e.
Proof.
  intros N R. destruct (canon_exponent_le n e N R) as [L _].
  rewrite log2_scaled by lia. replace (Z.log2 (Z.abs n) + (e - canon_exponent n e) + 1 + canon_exponent n e)
    with (Z.log2 (Z.abs n) + 1 + e) by lia. reflexivity.
Qed.

Lemma round_exact (s : bool) (n e E : Z) :
  0 < n -> representable n e -> E <= e ->
  binary_round Double.prec Double.emax s (Z.to_pos (n * 2 ^ (e - E))) E
  = S754_finite s (Z.to_pos (n * 2 ^ (e - canon_exponent n e))) (canon_exponent n e).
Proof.
  intros N R L. destruct (canon_exponent_le n e ltac:(lia) R) as [T1 T2].
  pose proof (canon_exponent_fix n e ltac:(lia) R) as F. rewrite (Z.abs_eq n) in F by lia.
  assert (P : 0 < 2 ^ (e - E)) by (apply Z.pow_pos_nonneg; lia).
  assert (P' : 0 < 2 ^ (e - canon_exponent n e)) by (apply Z.pow_pos_nonneg; lia).
  unfold binary_round.
  assert (D : Z.pos (digits2_pos (Z.to_pos (n * 2 ^ (e - E)))) + E = Z.log2 n + 1 + e).
  { rewrite digits2_log2, Z2Pos.id by nia. rewrite log2_scaled by lia. lia. }
  rewrite D. fold (fexp (Z.log2 n + 1 + e)).
  replace (fexp (Z.log2 n + 1 + e)) with (canon_exponent n e)
    by (unfold canon_exponent; rewrite Z.abs_eq by lia; reflexivity).
  destruct (Z_le_gt_dec E (canon_exponent n e)) as [C|C].
  - (* no shift to the left *)
    assert (S : shl_align (Z.to_pos (n * 2 ^ (e - E))) E (canon_exponent n e)
                = (Z.to_pos (n * 2 ^ (e - E)), E)).
    { unfold shl_align. destruct (canon_exponent n e - E) eqn:EP; try lia; reflexivity. }
    rewrite S, Z2Pos.id by nia.
    replace (n * 2 ^ (e - E)) with ((n * 2 ^ (e - canon_exponent n e)) * 2 ^ (canon_exponent n e - E)).
    + apply round_aux_exact; [nia|exact F|lia|exact C].
    + rewrite <- Z.mul_assoc, <- Z.pow_add_r by lia. do 2 f_equal. lia.
  - rewrite shl_align_spec by lia. rewrite Z2Pos.id by nia.
    assert (P2 : 0 < 2 ^ (E - canon_exponent n e)) by (apply Z.pow_pos_nonneg; lia).
    rewrite Z2Pos.id by nia.
    replace (n * 2 ^ (e - E) * 2 ^ (E - canon_exponent n e))
      with ((n * 2 ^ (e - canon_exponent n e)) * 2 ^ (canon_exponent n e - canon_exponent n e)).
    + apply round_aux_exact; [nia|exact F|lia|lia].
    + rewrite Z.sub_diag, Z.pow_0_r, Z.mul_1_r.
      rewrite <- Z.mul_assoc, <- Z.pow_add_r by lia. do 2 f_equal. lia.
Qed.

Lemma normalize_canon (n e E : Z) :
  representable n e -> E <= e ->
  binary_normalize Double.prec Double.emax (n * 2 ^ (e - E)) E false = canon n e.
Proof.
  intros R L. assert (P : 0 < 2 ^ (e - E)) by (apply Z.pow_pos_nonneg; lia).
  destruct n as [|p|p].
  - reflexivity.
  - unfold canon. cbn [Z.abs]. replace (Z.pos p <? 0) with false by reflexivity.
    destruct (Z.pos p * 2 ^ (e - E)) as [|q|q] eqn:EQ; try lia.
    cbn [binary_normalize]. replace q with (Z.to_pos (Z.pos p * 2 ^ (e - E)))
      by (rewrite EQ; reflexivity).
    apply round_exact; [lia|exact R|exact L].
  - unfold canon. cbn [Z.abs]. replace (Z.neg p <? 0) with true by reflexivity.
    destruct (Z.neg p * 2 ^ (e - E)) as [|q|q] eqn:EQ; try lia.
    cbn [binary_normalize].
    replace q with (Z.to_pos (Z.pos p * 2 ^ (e - E))).
    + rewrite (round_exact true (Z.pos p) e E); [|lia| |exact L].
      * unfold canon_exponent. reflexivity.
      * destruct R as [B R]. split; [exact B|exact R].
    + assert (Z.pos q = Z.pos p * 2 ^ (e - E)) by lia.
      rewrite <- H. reflexivity.
Qed.

Lemma dyadic_canon n e : representable n e -> Double.dyadic n e = canon n e.
Proof.
  intros R. unfold Double.dyadic.
  rewrite <- (normalize_canon n e e R (Z.le_refl e)).
  rewrite Z.sub_diag, Z.pow_0_r, Z.mul_1_r. reflexivity.
Qed.

(** ** Exact differences and products *)


Lemma approx_canon n e : approx (canon n e) n e.
Proof. destruct n; [exists false|..]; reflexivity. Qed.

Lemma approx_nonzero x n e : n <> 0 -> approx x n e -> x = canon n e.
Proof. destruct n; [congruence|..]; trivial. Qed.

Lemma canon_finite n e : n <> 0 ->
  canon n e = S754_finite (n <? 0) (Z.to_pos (Z.abs n * 2 ^ (e - canon_exponent n e))) (canon_exponent n e).
Proof. destruct n; [congruence|..]; reflexivity. Qed.

Lemma mantissa_pos n e : n <> 0 -> representable n e ->
  Zpos (Z.to_pos (Z.abs n * 2 ^ (e - canon_exponent n e))) = Z.abs n * 2 ^ (e - canon_exponent n e).
Proof.
  intros N R. destruct (canon_exponent_le n e N R) as [L _].
  assert (0 < 2 ^ (e - canon_exponent n e)) by (apply Z.pow_pos_nonneg; lia).
  apply Z2Pos.id. nia.
Qed.

Lemma cond_Zopp_abs a k : cond_Zopp (a <? 0) (Z.abs a * k) = a * k.
Proof.
  unfold cond_Zopp. destruct (Z.ltb_spec a 0); [rewrite Z.abs_neq by lia|rewrite Z.abs_eq by lia]; ring.
Qed.

Lemma aligned n e ez : n <> 0 -> representable n e -> ez <= canon_exponent n e ->
  cond_Zopp (n <? 0)
    (Zpos (fst (shl_align (Z.to_pos (Z.abs n * 2 ^ (e - canon_exponent n e))) (canon_exponent n e) ez)))
  = n * 2 ^ (e - ez).
Proof.
  intros N R L. destruct (canon_exponent_le n e N R) as [T _].
  rewrite shl_align_spec by exact L. cbn [fst].
  rewrite mantissa_pos by assumption.
  assert (0 < 2 ^ (e - canon_exponent n e)) by (apply Z.pow_pos_nonneg; lia).
  assert (0 < 2 ^ (canon_exponent n e - ez)) by (apply Z.pow_pos_nonneg; lia).
  rewrite Z2Pos.id by nia.
  rewrite <- Z.mul_assoc, <- Z.pow_add_r by lia.
  replace (e - canon_exponent n e + (canon_exponent n e - ez)) with (e - ez) by lia.
  apply cond_Zopp_abs.
Qed.

Lemma canon_exponent_opp n e : canon_exponent (- n) e = canon_exponent n e.
Proof. unfold canon_exponent. now rewrite Z.abs_opp. Qed.

Lemma canon_opp n e : n <> 0 ->
  canon (- n) e = S754_finite (negb (n <? 0)) (Z.to_pos (Z.abs n * 2 ^ (e - canon_exponent n e))) (canon_exponent n e).
Proof.
  intros N. rewrite canon_finite by lia. rewrite canon_exponent_opp, Z.abs_opp. f_equal.
  destruct (Z.ltb_spec n 0), (Z.ltb_spec (- n) 0); try reflexivity; lia.
Qed.

Lemma sub_finite a b e :
  a <> 0 -> b <> 0 -> representable a e -> representable b e -> representable (a - b) e ->
  Double.sub (canon a e) (canon b e) = canon (a - b) e.
Proof.
  intros Na Nb Ra Rb Rab. unfold Double.sub.
  rewrite (canon_finite a), (canon_finite b) by assumption. cbn [SFsub].
  destruct (canon_exponent_le a e Na Ra) as [Ta _], (canon_exponent_le b e Nb Rb) as [Tb _].
  rewrite (aligned a e _ Na Ra) by lia. rewrite (aligned b e _ Nb Rb) by lia.
  rewrite <- Z.mul_sub_distr_r.
  apply (normalize_canon (a - b) e _ Rab). lia.
Qed.

Lemma sub_approx x y a b e :
  representable a e -> representable b e -> representable (a - b) e ->
  approx x a e -> approx y b e ->
  approx (Double.sub x y) (a - b) e.
Proof.
  intros Ra Rb Rab Hx Hy.
  destruct (Z.eq_dec a 0) as [->|Na], (Z.eq_dec b 0) as [->|Nb].
  - destruct Hx as [s1 ->], Hy as [s2 ->]. cbn [Z.sub Z.add Z.opp approx].
    destruct s1, s2; cbn; eauto.
  - destruct Hx as [s1 ->]. apply approx_nonzero in Hy; [|exact Nb]. subst y.
    rewrite canon_finite by exact Nb. unfold Double.sub. cbn [SFsub].
    replace (0 - b) with (- b) by lia. rewrite <- canon_opp by exact Nb.
    apply approx_canon.
  - destruct Hy as [s2 ->]. apply approx_nonzero in Hx; [|exact Na]. subst x.
    rewrite Z.sub_0_r. rewrite canon_finite by exact Na. unfold Double.sub. cbn [SFsub].
    rewrite <- canon_finite by exact Na. apply approx_canon.
  - apply approx_nonzero in Hx; [|exact Na]. apply approx_nonzero in Hy; [|exact Nb].
    subst x y. rewrite sub_finite by assumption. apply approx_canon.
Qed.

Lemma log2_mul_abs a b : a <> 0 -> b <> 0 ->
  Z.log2 (Z.abs a) + Z.log2 (Z.abs b) <= Z.log2 (Z.abs (a * b)).
Proof. intros. rewrite Z.abs_mul. apply Z.log2_mul_below; lia. Qed.

Lemma mul_approx x y a b e1 e2 :
  representable a e1 -> representable b e2 -> representable (a * b) (e1 + e2) -> approx x a e1 -> approx y b e2 ->
  approx (Double.mul x y) (a * b) (e1 + e2).
Proof.
  intros Ra Rb Rab Hx Hy. unfold Double.mul.
  destruct (Z.eq_dec a 0) as [->|Na], (Z.eq_dec b 0) as [->|Nb].
  - destruct Hx as [s1 ->], Hy as [s2 ->]. cbn. eauto.
  - destruct Hx as [s1 ->]. apply approx_nonzero in Hy; [|exact Nb]. subst y.
    rewrite canon_finite by exact Nb. cbn. eauto.
  - destruct Hy as [s2 ->]. apply approx_nonzero in Hx; [|exact Na]. subst x.
    rewrite Z.mul_0_r. rewrite canon_finite by exact Na. cbn. eauto.
  - apply approx_nonzero in Hx; [|exact Na]. apply approx_nonzero in Hy; [|exact Nb].
    subst x y. rewrite !canon_finite by assumption. cbn [SFmul].
    assert (Nab : a * b <> 0) by nia.
    destruct (canon_exponent_le a e1 Na Ra) as [Ta Ta'], (canon_exponent_le b e2 Nb Rb) as [Tb Tb'],
             (canon_exponent_le (a * b) (e1 + e2) Nab Rab) as [Tc Tc'].
    assert (E : canon_exponent a e1 + canon_exponent b e2 <= canon_exponent (a * b) (e1 + e2)).
    { pose proof (log2_mul_abs a b Na Nb). destruct Ra as [_ Ra], Rb as [_ Rb].
      pose proof (Z.log2_nonneg (Z.abs a)). pose proof (Z.log2_nonneg (Z.abs b)).
      unfold canon_exponent in *. rewrite !fexp_eq in *. lia. }
    rewrite Pos2Z.inj_mul, !mantissa_pos by assumption.
    assert (Pa : 0 < 2 ^ (e1 - canon_exponent a e1)) by (apply Z.pow_pos_nonneg; lia).
    assert (Pb : 0 < 2 ^ (e2 - canon_exponent b e2)) by (apply Z.pow_pos_nonneg; lia).
    set (t := canon_exponent (a * b) (e1 + e2)) in *.
    replace (Z.abs a * 2 ^ (e1 - canon_exponent a e1) * (Z.abs b * 2 ^ (e2 - canon_exponent b e2)))
      with ((Z.abs (a * b) * 2 ^ (e1 + e2 - t)) * 2 ^ (t - (canon_exponent a e1 + canon_exponent b e2))).
    + rewrite round_aux_exact.
      * replace (xorb (a <? 0) (b <? 0)) with (a * b <? 0)
          by (destruct (Z.ltb_spec a 0), (Z.ltb_spec b 0), (Z.ltb_spec (a * b) 0);
              try reflexivity; nia).
        unfold t. rewrite <- (canon_finite (a * b) (e1 + e2) Nab). apply approx_canon.
      * assert (0 < 2 ^ (e1 + e2 - t)) by (apply Z.pow_pos_nonneg; lia). nia.
      * apply canon_exponent_fix; assumption.
      * lia.
      * exact E.
    + rewrite Z.abs_mul. rewrite <- !Z.mul_assoc. f_equal.
      rewrite <- Z.pow_add_r by lia.
      rewrite (Z.mul_comm (2 ^ (e1 - canon_exponent a e1))), <- Z.mul_assoc. f_equal.
      rewrite <- Z.pow_add_r by lia. f_equal. lia.
Qed.

(** ** Comparisons *)

Lemma SFeqb_finite s1 m1 e1 s2 m2 e2 :
  SFeqb (S754_finite s1 m1 e1) (S754_finite s2 m2 e2) = true
  <-> s1 = s2 /\ m1 = m2 /\ e1 = e2.
Proof.
  unfold SFeqb, SFcompare. split.
  - destruct s1, s2; try discriminate;
      destruct (Z.compare_spec e1 e2); try discriminate;
      rewrite Pos.compare_cont_spec; cbn [Pos.switch_Eq];
      destruct (Pos.compare_spec m1 m2); try discriminate; intros _; subst; auto.
  - intros (-> & -> & ->). rewrite Z.compare_refl, Pos.compare_cont_refl.
    destruct s2; reflexivity.
Qed.

Lemma eqb_approx x y a b e :
  representable a e -> representable b e -> approx x a e -> approx y b e -> SFeqb x y = (a =? b).
Proof.
  intros Ra Rb Hx Hy.
  destruct (Z.eq_dec a 0) as [->|Na], (Z.eq_dec b 0) as [->|Nb].
  - destruct Hx as [s1 ->], Hy as [s2 ->]. reflexivity.
  - destruct Hx as [s1 ->]. apply approx_nonzero in Hy; [|exact Nb]. subst y.
    rewrite canon_finite by exact Nb. replace (0 =? b) with false by (symmetry; apply Z.eqb_neq; lia).
    unfold SFeqb, SFcompare. destruct (b <? 0); reflexivity.
  - destruct Hy as [s2 ->]. apply approx_nonzero in Hx; [|exact Na]. subst x.
    rewrite canon_finite by exact Na. replace (a =? 0) with false by (symmetry; apply Z.eqb_neq; lia).
    unfold SFeqb, SFcompare. destruct (a <? 0); reflexivity.
  - apply approx_nonzero in Hx; [|exact Na]. apply approx_nonzero in Hy; [|exact Nb].
    subst x y. rewrite !canon_finite by assumption.
    destruct (Z.eqb_spec a b) as [->|N].
    + apply SFeqb_finite. auto.
    + destruct (SFeqb _ _) eqn:E; [|reflexivity]. exfalso. apply N.
      apply SFeqb_finite in E. destruct E as (S & M & T).
      assert (M' : Z.abs a * 2 ^ (e - canon_exponent a e) = Z.abs b * 2 ^ (e - canon_exponent b e)).
      { rewrite <- (mantissa_pos a e Na Ra), <- (mantissa_pos b e Nb Rb). now rewrite M. }
      rewrite T in M'. destruct (canon_exponent_le b e Nb Rb) as [L _].
      assert (0 < 2 ^ (e - canon_exponent b e)) by (apply Z.pow_pos_nonneg; lia).
      destruct (Z.ltb_spec a 0), (Z.ltb_spec b 0); try discriminate; nia.
Qed.

Lemma leb_zero x n e : approx x n e -> SFleb x (S754_zero false) = (n <=? 0).
Proof.
  intros Hx. destruct n as [|p|p].
  - destruct Hx as [s ->]. reflexivity.
  - cbn [approx] in Hx. subst x. reflexivity.
  - cbn [approx] in Hx. subst x. reflexivity.
Qed.

Lemma ltb_zero x n e : approx x n e -> SFltb (S754_zero false) x = (0 <? n).
Proof.
  intros Hx. destruct n as [|p|p].
  - destruct Hx as [s ->]. reflexivity.
  - cbn [approx] in Hx. subst x. reflexivity.
  - cbn [approx] in Hx. subst x. reflexivity.
Qed.

(** ** The value of a double *)


Lemma val_canon n e : representable n e -> (val (canon n e) == inject_Z n * 2 ^ e)%Q.
Proof.
  intros R. destruct (Z.eq_dec n 0) as [->|N]; [cbn [canon val]; ring|].
  rewrite canon_finite by exact N. cbn [val].
  rewrite mantissa_pos by assumption. rewrite cond_Zopp_abs.
  destruct (canon_exponent_le n e N R) as [L _].
  rewrite inject_Z_mult, Zpower_Qpower by lia.
  rewrite <- Qmult_assoc, <- Qpower_plus by discriminate.
  replace (e - canon_exponent n e + canon_exponent n e) with e by lia. reflexivity.
Qed.

Lemma val_approx x n e : representable n e -> approx x n e -> (val x == inject_Z n * 2 ^ e)%Q.
Proof.
  intros R Hx. destruct (Z.eq_dec n 0) as [->|N].
  - destruct Hx as [s ->]. cbn [val]. ring.
  - apply approx_nonzero in Hx; [|exact N]. subst x. now apply val_canon.
Qed.

(** A product with a number above 0 keeps a zero positive. *)
Lemma mul_positive a b e1 e2 :
  0 < b -> representable a e1 -> representable b e2 -> representable (a * b) (e1 + e2) ->
  Double.mul (canon a e1) (canon b e2) = canon (a * b) (e1 + e2).
Proof.
  intros Pb Ra Rb Rab. destruct (Z.eq_dec a 0) as [->|Na].
  - rewrite (canon_finite b) by lia. replace (b <? 0) with false by (symmetry; apply Z.ltb_ge; lia).
    reflexivity.
  - apply approx_nonzero; [nia|].
    apply mul_approx; try assumption; apply approx_canon.
Qed.

(** The same double under two names. *)
Lemma dyadic_shift n e k :
  0 <= k -> representable n e -> Double.dyadic (n * 2 ^ k) (e - k) = Double.dyadic n e.
Proof.
  intros K R. rewrite (dyadic_canon n e R). unfold Double.dyadic.
  rewrite <- (normalize_canon n e (e - k) R) by lia.
  do 2 f_equal. f_equal. lia.
Qed.

Local Close Scope Z_scope.

(** ** The hull over doubles, on fixed-point coordinates *)

Lemma scaled_le_0 (k : Z) (s : Q) : 0 < s -> Qle_bool (inject_Z k * s) 0 = (k <=? 0)%Z.
Proof.
  intros S. destruct (Z.leb_spec k 0) as [L|L].
  - apply Qle_bool_iff. rewrite Zle_Qle in L. change (inject_Z 0) with 0 in L.
    generalize dependent (inject_Z k). intros q L. nra.
  - destruct (Qle_bool (inject_Z k * s) 0) eqn:E; [|reflexivity].
    apply Qle_bool_iff in E. rewrite Zlt_Qlt in L. change (inject_Z 0) with 0 in L.
    generalize dependent (inject_Z k). intros q E L. nra.
Qed.

Lemma scaled_eq (a b : Z) (s : Q) :
  0 < s -> Qeq_bool (inject_Z a * s) (inject_Z b * s) = (a =? b)%Z.
Proof.
  intros S. destruct (Z.eqb_spec a b) as [->|N].
  - apply Qeq_bool_refl.
  - destruct (Qeq_bool _ _) eqn:E; [|reflexivity]. apply Qeq_bool_iff in E.
    exfalso. apply N. apply inject_Z_injective.
    apply (Qmult_inj_r _ _ s); [|exact E]. intros Z. rewrite Z in S. discriminate.
Qed.

Lemma inject_Z_minus (a b : Z) : inject_Z (a - b) = inject_Z a - inject_Z b.
Proof. unfold Z.sub. now rewrite inject_Z_plus, inject_Z_opp. Qed.

Lemma abs_mul_below (u v A : Z) :
  (Z.abs u < A -> Z.abs v < A -> Z.abs (u * v) < A * A)%Z.
Proof. intros. rewrite Z.abs_mul. pose proof (Z.abs_nonneg u). pose proof (Z.abs_nonneg v). nia. Qed.

Section Grid.

Variable e : Z.
Hypothesis He : grid_exponent e.

Let s : Q := 2 ^ e.

Lemma grid_scale_pos : 0 < s.
Proof. apply Qpower_0_lt. reflexivity. Qed.

Lemma grid_representable (n : Z) : (Z.abs n < 2 ^ 53)%Z -> representable n e.
Proof. intros B. split; [exact B|]. unfold grid_exponent in He. lia. Qed.

Lemma grid_representable2 (n : Z) : (Z.abs n < 2 ^ 53)%Z -> representable n (e + e).
Proof. intros B. split; [exact B|]. unfold grid_exponent in He. lia. Qed.

Lemma on_grid_approx (c : Double.number) (n : Z) :
  (Z.abs n < 2 ^ 25)%Z -> c = Double.dyadic n e -> approx c n e.
Proof.
  intros B ->. rewrite dyadic_canon by (apply grid_representable; lia).
  apply approx_canon.
Qed.

Lemma on_grid_val (c : Double.number) (n : Z) :
  (Z.abs n < 2 ^ 25)%Z -> c = Double.dyadic n e -> val c == inject_Z n * s.
Proof.
  intros B E. apply val_approx; [apply grid_representable; lia|].
  now apply on_grid_approx.
Qed.

(** The difference of two coordinates. *)
Lemma grid_sub (a b : Double.number) (na nb : Z) :
  (Z.abs na < 2 ^ 25)%Z -> a = Double.dyadic na e ->
  (Z.abs nb < 2 ^ 25)%Z -> b = Double.dyadic nb e ->
  approx (Double.sub a b) (na - nb) e.
Proof.
  intros Ba Ea Bb Eb.
  apply sub_approx; try (apply grid_representable; lia); now apply on_grid_approx.
Qed.

(** The product of two differences. *)
Lemma grid_mul (u v : Double.number) (nu nv : Z) :
  (Z.abs nu < 2 ^ 26)%Z -> approx u nu e ->
  (Z.abs nv < 2 ^ 26)%Z -> approx v nv e ->
  approx (Double.mul u v) (nu * nv) (e + e).
Proof.
  intros Bu Hu Bv Hv. pose proof (abs_mul_below nu nv (2 ^ 26) Bu Bv) as B.
  apply mul_approx; try (apply grid_representable; lia); try assumption.
  apply grid_representable2. lia.
Qed.

(** The test of the scan: the cross product over doubles has the sign of
    the exact one. *)
Lemma cross_sign (o a b : Double.point) :
  grid_point e o -> grid_point e a -> grid_point e b ->
  Double.leb (Double.cross o a b) Double.zero
  = Qle_bool (cross (pointQ o) (pointQ a) (pointQ b)) 0.
Proof.
  intros ((ox & Box & Eox) & (oy & Boy & Eoy)) ((ax & Bax & Eax) & (ay & Bay & Eay))
         ((bx & Bbx & Ebx) & (by' & Bby & Eby)).
  pose proof (grid_sub _ _ ax ox Bax Eax Box Eox) as D1.
  pose proof (grid_sub _ _ by' oy Bby Eby Boy Eoy) as D2.
  pose proof (grid_sub _ _ ay oy Bay Eay Boy Eoy) as D3.
  pose proof (grid_sub _ _ bx ox Bbx Ebx Box Eox) as D4.
  assert (W : forall u v, (Z.abs u < 2 ^ 25 -> Z.abs v < 2 ^ 25 -> Z.abs (u - v) < 2 ^ 26)%Z)
    by (intros; lia).
  pose proof (grid_mul _ _ (ax - ox)%Z (by' - oy)%Z (W _ _ Bax Box) D1 (W _ _ Bby Boy) D2) as M1.
  pose proof (grid_mul _ _ (ay - oy)%Z (bx - ox)%Z (W _ _ Bay Boy) D3 (W _ _ Bbx Box) D4) as M2.
  pose proof (abs_mul_below (ax - ox) (by' - oy) (2 ^ 26) (W _ _ Bax Box) (W _ _ Bby Boy)) as B1.
  pose proof (abs_mul_below (ay - oy) (bx - ox) (2 ^ 26) (W _ _ Bay Boy) (W _ _ Bbx Box)) as B2.
  assert (C : approx (Double.cross o a b)
                ((ax - ox) * (by' - oy) - (ay - oy) * (bx - ox)) (e + e)).
  { unfold Double.cross. apply sub_approx; try (apply grid_representable2; lia); assumption. }
  unfold Double.leb, Double.zero. rewrite (leb_zero _ _ _ C).
  assert (V : cross (pointQ o) (pointQ a) (pointQ b)
              == inject_Z ((ax - ox) * (by' - oy) - (ay - oy) * (bx - ox)) * (s * s)).
  { unfold cross, pointQ. cbn [x y].
    rewrite (on_grid_val _ ox Box Eox), (on_grid_val _ oy Boy Eoy),
            (on_grid_val _ ax Bax Eax), (on_grid_val _ ay Bay Eay),
            (on_grid_val _ bx Bbx Ebx), (on_grid_val _ by' Bby Eby).
    rewrite !inject_Z_minus, !inject_Z_mult, !inject_Z_minus. ring. }
  rewrite V. symmetry. apply scaled_le_0.
  pose proof grid_scale_pos. nra.
Qed.

(** The test of the sort: the comparator over doubles has the sign of the
    exact one. *)
Lemma compareFn_sign (a b : Double.point) :
  grid_point e a -> grid_point e b ->
  Double.ltb Double.zero (Double.compareFn a b)
  = negb (Qle_bool (compareFn (pointQ a) (pointQ b)) 0).
Proof.
  intros ((ax & Bax & Eax) & (ay & Bay & Eay)) ((bx & Bbx & Ebx) & (by' & Bby & Eby)).
  unfold Double.compareFn, compareFn, pointQ. cbn [x y].
  assert (G : forall u v nu nv, (Z.abs nu < 2 ^ 25)%Z -> u = Double.dyadic nu e ->
                (Z.abs nv < 2 ^ 25)%Z -> v = Double.dyadic nv e ->
                Double.ltb Double.zero (Double.sub u v)
                = negb (Qle_bool (val u - val v) 0)).
  { intros u v nu nv Bu Eu Bv Ev.
    unfold Double.ltb, Double.zero.
    rewrite (ltb_zero _ _ _ (grid_sub u v nu nv Bu Eu Bv Ev)).
    rewrite (on_grid_val u nu Bu Eu), (on_grid_val v nv Bv Ev).
    assert (Q : inject_Z nu * s - inject_Z nv * s == inject_Z (nu - nv) * s)
      by (rewrite inject_Z_minus; ring).
    rewrite Q, (scaled_le_0 _ s grid_scale_pos).
    destruct (Z.ltb_spec 0 (nu - nv)), (Z.leb_spec (nu - nv) 0); try reflexivity; lia. }
  assert (C : Double.eqb (Double.x a) (Double.x b)
              = Qeq_bool (val (Double.x a)) (val (Double.x b))).
  { rewrite (on_grid_val _ ax Bax Eax), (on_grid_val _ bx Bbx Ebx).
    rewrite (scaled_eq ax bx s grid_scale_pos). unfold Double.eqb.
    apply (eqb_approx _ _ ax bx e); try (apply grid_representable; lia);
      now apply on_grid_approx. }
  rewrite C. destruct (Qeq_bool (val (Double.x a)) (val (Double.x b))).
  - exact (G _ _ ay by' Bay Eay Bby Eby).
  - exact (G _ _ ax bx Bax Eax Bbx Ebx).
Qed.

Lemma insert_sorted_sim (p : Double.point) (l : list Double.point) :
  grid_point e p -> Forall (grid_point e) l ->
  map pointQ (Double.insert_sorted p l) = insert_sorted (pointQ p) (map pointQ l).
Proof.
  intros Hp Hl. induction Hl as [|h t Hh Ht IH]; [reflexivity|].
  cbn [Double.insert_sorted insert_sorted map].
  rewrite (compareFn_sign p h Hp Hh).
  destruct (Qle_bool (compareFn (pointQ p) (pointQ h)) 0); cbn [negb map];
    [reflexivity|]. now rewrite IH.
Qed.

Lemma insert_sorted_grid (p : Double.point) (l : list Double.point) :
  grid_point e p -> Forall (grid_point e) l -> Forall (grid_point e) (Double.insert_sorted p l).
Proof.
  intros Hp Hl. induction Hl as [|h t Hh Ht IH]; cbn [Double.insert_sorted].
  - constructor; [exact Hp|constructor].
  - destruct (Double.ltb _ _).
    + constructor; [exact Hh|exact IH].
    + constructor; [exact Hp|]. constructor; [exact Hh|exact Ht].
Qed.

Lemma sort_grid (l : list Double.point) :
  Forall (grid_point e) l -> Forall (grid_point e) (Double.sort l).
Proof.
  induction 1 as [|h t Hh Ht IH]; [constructor|]. now apply insert_sorted_grid.
Qed.

Lemma sort_sim (l : list Double.point) :
  Forall (grid_point e) l -> map pointQ (Double.sort l) = sort (map pointQ l).
Proof.
  induction 1 as [|h t Hh Ht IH]; [reflexivity|].
  cbn [Double.sort sort map]. rewrite <- IH.
  apply insert_sorted_sim; [exact Hh|now apply sort_grid].
Qed.

Lemma pop_while_grid (st : list Double.point) (p : Double.point) :
  Forall (grid_point e) st -> Forall (grid_point e) (Double.pop_while st p).
Proof.
  induction st as [|t [|u r] IH]; intros H; cbn [Double.pop_while]; try exact H.
  destruct (Double.leb _ _); [|exact H]. apply IH. now inversion H.
Qed.

Lemma pop_while_sim (st : list Double.point) (p : Double.point) :
  Forall (grid_point e) st -> grid_point e p ->
  map pointQ (Double.pop_while st p) = pop_while (map pointQ st) (pointQ p).
Proof.
  intros Hs Hp. induction st as [|t [|u r] IH]; try reflexivity.
  cbn [Double.pop_while pop_while map].
  inversion Hs as [|? ? Ht Hr]; subst. inversion Hr as [|? ? Hu _]; subst.
  rewrite (cross_sign u t p Hu Ht Hp).
  destruct (Qle_bool (cross (pointQ u) (pointQ t) (pointQ p)) 0); [|reflexivity].
  apply IH, Hr.
Qed.

Lemma fold_scan_sim (l : list Double.point) : forall st,
  Forall (grid_point e) l -> Forall (grid_point e) st ->
  map pointQ (fold_left Double.scan_step l st)
  = fold_left scan_step (map pointQ l) (map pointQ st).
Proof.
  induction l as [|p l IH]; intros st Hl Hs; [reflexivity|].
  inversion Hl as [|? ? Hp Hl']; subst. cbn [fold_left map].
  rewrite IH; [|exact Hl'|].
  - unfold Double.scan_step, scan_step. cbn [map]. now rewrite pop_while_sim.
  - constructor; [exact Hp|now apply pop_while_grid].
Qed.

Lemma half_hull_sim (l : list Double.point) :
  Forall (grid_point e) l -> map pointQ (Double.half_hull l) = half_hull (map pointQ l).
Proof. intros H. apply (fold_scan_sim l []); [exact H|constructor]. Qed.

Lemma map_tl {A B : Type} (f : A -> B) (l : list A) : map f (tl l) = tl (map f l).
Proof. destruct l; reflexivity. Qed.

(** On fixed-point coordinates the hull over doubles is the hull of the
    exact arithmetic. *)
Lemma convexHull_sim (pts : list Double.point) :
  Forall (grid_point e) pts ->
  map pointQ (Double.convexHull pts) = convexHull (map pointQ pts).
Proof.
  intros H. unfold Double.convexHull, convexHull. rewrite length_map.
  destruct (Nat.ltb (List.length pts) 3); [reflexivity|].
  pose proof (sort_grid pts H) as G.
  rewrite map_app, !map_rev, !map_tl, !half_hull_sim, map_rev, sort_sim;
    try assumption; [reflexivity|].
  apply Forall_rev, G.
Qed.

End Grid.








(** ** Claims about the hull *)

Lemma int_on_grid (n : Z) : (Z.abs n < 2 ^ 25)%Z -> on_grid 0 (int n).
Proof. intros B. exists n. split; [exact B|reflexivity]. Qed.

Lemma int_point_on_grid (a b : Z) :
  (Z.abs a < 2 ^ 25)%Z -> (Z.abs b < 2 ^ 25)%Z -> grid_point 0 (int_point a b).
Proof. intros A B. split; now apply int_on_grid. Qed.

Lemma grid_exponent_0 : grid_exponent 0.
Proof. unfold grid_exponent. lia. Qed.

Lemma three_on_a_line_grid : Forall (grid_point 0) three_on_a_line.
Proof. repeat constructor; apply int_on_grid; reflexivity. Qed.


Lemma three_on_a_line_collinear : collinear (map pointQ three_on_a_line).
Proof.
  intros p q r Hp Hq Hr. simpl in Hp, Hq, Hr.
  destruct Hp as [<-|[<-|[<-|[]]]]; destruct Hq as [<-|[<-|[<-|[]]]];
    destruct Hr as [<-|[<-|[<-|[]]]]; reflexivity.
Qed.



(** Off the fixed-point coordinates the rounding of the cross product
    decides: three points that are not on one line give two vertices, and
    three points of one line give four, the last of them twice. *)
Example rounding_changes_the_hull :
  (~ collinear (map pointQ flat_triangle)
   /\ List.length (Double.convexHull flat_triangle) = 2%nat)
  /\ (collinear (map pointQ bent_line)
      /\ exists a b c, Double.convexHull bent_line = [a; b; c; b]).
Proof.
  split; split.
  - intros H.
    assert (E : cross (pointQ (nth 0 flat_triangle (int_point 0 0)))
                      (pointQ (nth 1 flat_triangle (int_point 0 0)))
                      (pointQ (nth 2 flat_triangle (int_point 0 0))) == 0)
      by (apply H; simpl; tauto).
    vm_compute in E. discriminate.
  - vm_compute. reflexivity.
  - intros p q r Hp Hq Hr. simpl in Hp, Hq, Hr.
    destruct Hp as [<-|[<-|[<-|[]]]]; destruct Hq as [<-|[<-|[<-|[]]]];
      destruct Hr as [<-|[<-|[<-|[]]]]; vm_compute; reflexivity.
  - vm_compute. do 3 eexists. reflexivity.
Qed.



(** On fixed-point coordinates, three or more points of one line (or three
    or more copies of one point) give a hull of two vertices. *)
Theorem convexHull_collinear (e : Z) (pts : list Double.point) :
  grid_exponent e -> Forall (grid_point e) pts ->
  (3 <= List.length pts)%nat -> collinear (map pointQ pts) ->
  List.length (Double.convexHull pts) = 2%nat.
Proof.
  intros He G Hlen Hc.
  rewrite <- (length_map pointQ), (convexHull_sim e He pts G).
  apply hull_of_line; [now rewrite length_map|exact Hc].
Qed.

Lemma convexHull_collinear_witness :
  grid_exponent 0 /\ Forall (grid_point 0) three_on_a_line
  /\ (3 <= List.length three_on_a_line)%nat /\ collinear (map pointQ three_on_a_line)
  /\ List.length (Double.convexHull three_on_a_line) = 2%nat.
Proof.
  split; [exact grid_exponent_0|]. split; [exact three_on_a_line_grid|].
  split; [simpl; lia|]. split; [exact three_on_a_line_collinear|].
  apply (convexHull_collinear 0 three_on_a_line grid_exponent_0 three_on_a_line_grid);
    [simpl; lia|exact three_on_a_line_collinear].
Defined.

Local Open Scope Z_scope.

(** ** Rounding to nearest, ties to even *)

Lemma iter_pos_nat {A : Type} (f : A -> A) (p : positive) : forall x,
  iter_pos f p x = Nat.iter (Pos.to_nat p) f x.
Proof.
  induction p as [p IH|p IH|]; intros x; cbn [iter_pos].
  - rewrite !IH, Pos2Nat.inj_xI. cbn [Nat.mul]. rewrite Nat.add_0_r.
    rewrite Nat.iter_succ_r, Nat.iter_add. reflexivity.
  - rewrite !IH, Pos2Nat.inj_xO. cbn [Nat.mul]. rewrite Nat.add_0_r.
    rewrite Nat.iter_add. reflexivity.
  - reflexivity.
Qed.

Lemma shr_1_spec (m : Z) (r s : bool) :
  0 <= m ->
  shr_1 {| shr_m := m; shr_r := r; shr_s := s |}
  = {| shr_m := m / 2; shr_r := Z.odd m; shr_s := r || s |}.
Proof.
  intros M. destruct m as [|p|p]; try lia.
  - reflexivity.
  - destruct p as [p|p|]; cbn [shr_1].
    + f_equal. rewrite Pos2Z.inj_xI. symmetry.
      rewrite Z.add_comm, Z.mul_comm, Z.div_add by lia. reflexivity.
    + f_equal. rewrite Pos2Z.inj_xO. symmetry.
      rewrite Z.mul_comm, Z.div_mul by lia. reflexivity.
    + reflexivity.
Qed.

(** The record after [n] shifts of [M]: the quotient, the last bit shifted
    out, and whether a bit below it was set. *)
Lemma shifts_spec (M : Z) (n : nat) :
  0 <= M ->
  Nat.iter (S n) shr_1 (kept M)
  = {| shr_m := M / 2 ^ Z.of_nat (S n);
       shr_r := Z.odd (M / 2 ^ Z.of_nat n);
       shr_s := negb (M mod 2 ^ Z.of_nat n =? 0) |}.
Proof.
  intros HM. induction n as [|n IH].
  - cbn [Nat.iter]. unfold kept. rewrite shr_1_spec by exact HM.
    change (2 ^ Z.of_nat 1) with 2. change (2 ^ Z.of_nat 0) with 1.
    rewrite Z.div_1_r, Z.mod_1_r. reflexivity.
  - rewrite Nat.iter_succ, IH.
    assert (P : 0 < 2 ^ Z.of_nat n) by (apply Z.pow_pos_nonneg; lia).
    assert (P1 : 2 ^ Z.of_nat (S n) = 2 ^ Z.of_nat n * 2)
      by (rewrite Nat2Z.inj_succ, Z.pow_succ_r by lia; ring).
    rewrite shr_1_spec by (apply Z.div_pos; [exact HM|apply Z.pow_pos_nonneg; lia]).
    f_equal.
    + rewrite Z.div_div by (try apply Z.pow_pos_nonneg; lia).
      f_equal. rewrite (Nat2Z.inj_succ (S n)), Z.pow_succ_r by lia. ring.
    + rewrite P1, Z.rem_mul_r by lia.
      pose proof (Z.mod_pos_bound M (2 ^ Z.of_nat n) P) as B.
      pose proof (Z.mod_pos_bound (M / 2 ^ Z.of_nat n) 2 ltac:(lia)) as B2.
      rewrite Zodd_mod.
      destruct (Z.eqb_spec (M mod 2 ^ Z.of_nat n) 0) as [Z0|NZ],
               (Z.eqb_spec ((M / 2 ^ Z.of_nat n) mod 2) 1) as [O|NO]; cbn [negb orb].
      * symmetry. apply negb_true_iff, Z.eqb_neq. nia.
      * symmetry. apply negb_false_iff, Z.eqb_eq. nia.
      * symmetry. apply negb_true_iff, Z.eqb_neq. nia.
      * symmetry. apply negb_true_iff, Z.eqb_neq. nia.
Qed.

Lemma round_shifted (M : Z) (n : nat) :
  0 <= M ->
  nearest (round_nearest_even (shr_m (Nat.iter n shr_1 (kept M)))
                              (loc_of_shr_record (Nat.iter n shr_1 (kept M))))
          M (2 ^ Z.of_nat n).
Proof.
  intros HM. destruct n as [|n].
  - unfold kept. simpl.
    unfold nearest. repeat split; try lia; intros; lia.
  - rewrite shifts_spec by exact HM. cbn [shr_m].
    set (h := 2 ^ Z.of_nat n).
    assert (P : 0 < h) by (apply Z.pow_pos_nonneg; lia).
    assert (T : 2 ^ Z.of_nat (S n) = 2 * h)
      by (unfold h; rewrite Nat2Z.inj_succ, Z.pow_succ_r by lia; ring).
    rewrite T.
    pose proof (Z.div_mod M h ltac:(lia)) as DM.
    pose proof (Z.mod_pos_bound M h P) as B.
    set (a := M / h) in *. set (b := M mod h) in *.
    assert (Q : M / (2 * h) = a / 2)
      by (unfold a; rewrite (Z.mul_comm 2 h), Z.div_div by lia; reflexivity).
    rewrite Q.
    pose proof (Z.div_mod a 2 ltac:(lia)) as DA.
    pose proof (Z.mod_pos_bound a 2 ltac:(lia)) as BA.
    set (q := a / 2) in *.
    rewrite Zodd_mod.
    destruct (Z.eqb_spec (a mod 2) 1) as [O|NO], (Z.eqb_spec b 0) as [Z0|NZ];
      cbn [negb loc_of_shr_record round_nearest_even]; unfold nearest.
    + (* a tie *)
      destruct (Z.even q) eqn:EQ.
      * repeat split; try nia; intros; try exact EQ; nia.
      * repeat split; try nia; intros; try nia.
        rewrite Z.even_add, EQ. reflexivity.
    + repeat split; try nia; intros; nia.
    + repeat split; try nia; intros; nia.
    + repeat split; try nia; intros; nia.
Qed.

(** What the nearest integer is for does not depend on how the quotient is
    written, and it grows with the quotient. *)
Lemma nearest_le (k1 N1 T1 k2 N2 T2 : Z) :
  0 < T1 -> 0 < T2 -> nearest k1 N1 T1 -> nearest k2 N2 T2 ->
  N1 * T2 <= N2 * T1 -> k1 <= k2.
Proof.
  intros P1 P2 ((L1 & U1) & Tu1 & Tl1) ((L2 & U2) & Tu2 & Tl2) LE.
  destruct (Z_le_gt_dec k1 k2) as [H|H]; [exact H|exfalso].
  assert (A : (2 * k1 - 1) * T1 * T2 <= 2 * N1 * T2) by nia.
  assert (B : 2 * N2 * T1 <= (2 * k2 + 1) * T2 * T1) by nia.
  assert (C : (2 * k1 - 1) * (T1 * T2) <= (2 * k2 + 1) * (T1 * T2)) by nia.
  assert (K : k1 = k2 + 1) by nia.
  assert (E1 : 2 * N1 = (2 * k1 - 1) * T1) by nia.
  assert (E2 : 2 * N2 = (2 * k2 + 1) * T2) by nia.
  specialize (Tl1 E1). specialize (Tu2 E2). subst k1.
  rewrite Z.even_add, Tu2 in Tl1. discriminate.
Qed.

Lemma nearest_exact (k n T : Z) : 0 < T -> nearest k (n * T) T -> k = n.
Proof. intros P ((L & U) & _). nia. Qed.

Lemma nearest_multiple (n T : Z) : 0 < T -> nearest n (n * T) T.
Proof. intros P. unfold nearest. repeat split; try nia; intros; nia. Qed.

Lemma nearest_nonneg (k N T : Z) : 0 < T -> 0 <= N -> nearest k N T -> 0 <= k.
Proof. intros P HN ((L & U) & _). nia. Qed.

Local Close Scope Z_scope.

Local Open Scope Z_scope.

(** ** What a rounding returns *)

(** The end of [binary_round_aux]: the rounded mantissa is put back into
    form. *)
Lemma finish_in_form (s : bool) (m t : Z) :
  0 < m -> m < 2 ^ 53 -> fexp (Z.log2 m + 1 + t) = t -> t <= 971 ->
  (let '(mrs, e) := shr_fexp Double.prec Double.emax m t loc_Exact in
   match shr_m mrs with
   | 0 => S754_zero s
   | Zpos m' => if e <=? Double.emax - Double.prec then S754_finite s m' e
                else S754_infinity s
   | Zneg _ => S754_nan
   end) = S754_finite s (Z.to_pos m) t.
Proof.
  intros P B C T. unfold shr_fexp. rewrite Zdigits2_log2 by exact P.
  fold (fexp (Z.log2 m + 1 + t)). rewrite C, Z.sub_diag.
  cbn [shr shr_record_of_loc shr_m]. destruct m as [|m'|m']; try lia.
  replace (t <=? Double.emax - Double.prec) with true; [reflexivity|].
  symmetry. apply Z.leb_le. unfold Double.emax, Double.prec. lia.
Qed.

Lemma finish_carry (s : bool) (t : Z) :
  -1074 <= t -> t <= 970 ->
  (let '(mrs, e) := shr_fexp Double.prec Double.emax (2 ^ 53) t loc_Exact in
   match shr_m mrs with
   | 0 => S754_zero s
   | Zpos m' => if e <=? Double.emax - Double.prec then S754_finite s m' e
                else S754_infinity s
   | Zneg _ => S754_nan
   end) = S754_finite s (Z.to_pos (2 ^ 52)) (t + 1).
Proof.
  intros L T. unfold shr_fexp.
  replace (Zdigits2 (2 ^ 53)) with 54 by reflexivity.
  fold (fexp (54 + t)). rewrite fexp_eq.
  replace (Z.max (54 + t - 53) (-1074) - t) with 1 by lia.
  cbn [shr shr_record_of_loc iter_pos].
  replace (shr_1 {| shr_m := 2 ^ 53; shr_r := false; shr_s := false |})
    with (kept (2 ^ 52)) by reflexivity.
  cbn [kept shr_m]. change (2 ^ 52) with (Zpos (Z.to_pos (2 ^ 52))) at 1.
  cbv iota.
  replace (t + 1 <=? Double.emax - Double.prec) with true; [reflexivity|].
  symmetry. apply Z.leb_le. unfold Double.emax, Double.prec. lia.
Qed.

Lemma finish_zero (s : bool) (t : Z) :
  -1074 <= t ->
  (let '(mrs, e) := shr_fexp Double.prec Double.emax 0 t loc_Exact in
   match shr_m mrs with
   | 0 => S754_zero s
   | Zpos m' => if e <=? Double.emax - Double.prec then S754_finite s m' e
                else S754_infinity s
   | Zneg _ => S754_nan
   end) = S754_zero s.
Proof.
  intros T. unfold shr_fexp, shr. cbn [Zdigits2 shr_record_of_loc].
  fold (fexp (0 + t)). rewrite fexp_eq.
  destruct (Z.max (0 + t - 53) (-1074) - t) eqn:E; try lia; reflexivity.
Qed.

Lemma regular_in_form (s : bool) (m t : Z) :
  0 < m -> fexp (Z.log2 m + 1 + t) = t -> t <= 971 ->
  regular (S754_finite s (Z.to_pos m) t).
Proof.
  intros P C T. unfold regular, bounded, canonical_mantissa.
  rewrite digits2_log2, Z2Pos.id by exact P.
  fold (fexp (Z.log2 m + 1 + t)). rewrite C, Z.eqb_refl. cbn [andb].
  apply Z.leb_le. unfold Double.emax, Double.prec. lia.
Qed.

(** Bounds of the quotient that is rounded. *)
Lemma log2_bounds (M : Z) : 0 < M -> 2 ^ Z.log2 M <= M < 2 ^ (Z.log2 M + 1).
Proof. intros P. pose proof (Z.log2_spec M P). now rewrite <- Z.add_1_r in *. Qed.

(** The double nearest to [M * 2^E], for [M] above 0 and below the
    overflow: it is in form, and its value is [k * 2^t] for the exponent
    [t] of the binade and the nearest [k]. *)
Lemma round_nearest (s : bool) (M E : Z) :
  0 < M -> below M E ->
  let t := fexp (Z.log2 M + 1 + E) in
  let L := Z.min E t in
  let r := binary_round Double.prec Double.emax s (Z.to_pos M) E in
  regular r
  /\ exists k, nearest k (M * 2 ^ (E - L)) (2 ^ (t - L))
               /\ (val r == inject_Z (cond_Zopp s k) * 2 ^ t)%Q.
Proof.
  intros P O t L r.
  assert (Tb : -1074 <= t <= 971)
    by (unfold t; rewrite fexp_eq; destruct O as [O|[O _]]; lia).
  subst r. unfold binary_round.
  rewrite digits2_log2, Z2Pos.id by exact P. fold (fexp (Z.log2 M + 1 + E)). fold t.
  destruct (Z_le_gt_dec t E) as [C|C].
  - (* the value is a double *)
    assert (EL : L = t) by (unfold L; lia).
    assert (P2 : 0 < 2 ^ (E - t)) by (apply Z.pow_pos_nonneg; lia).
    rewrite shl_align_spec by exact C. rewrite (Z2Pos.id M) by exact P.
    rewrite Z2Pos.id by nia.
    assert (F : fexp (Z.log2 (M * 2 ^ (E - t)) + 1 + t) = t).
    { rewrite log2_scaled by lia. replace (Z.log2 M + (E - t) + 1 + t)
        with (Z.log2 M + 1 + E) by lia. reflexivity. }
    replace (M * 2 ^ (E - t)) with ((M * 2 ^ (E - t)) * 2 ^ (t - t))
      by (rewrite Z.sub_diag, Z.pow_0_r; ring).
    rewrite round_aux_exact; [|nia|exact F|lia|lia].
    split; [apply regular_in_form; [nia|exact F|lia]|].
    exists (M * 2 ^ (E - t)). rewrite EL, Z.sub_diag, Z.pow_0_r. split.
    + rewrite <- (Z.mul_1_r (M * 2 ^ (E - t))) at 2. apply nearest_multiple. lia.
    + unfold val. rewrite Z2Pos.id by nia. reflexivity.
  - (* bits are shifted out *)
    assert (EL : L = E) by (unfold L; lia).
    assert (S : shl_align (Z.to_pos M) E t = (Z.to_pos M, E)).
    { unfold shl_align. destruct (t - E) eqn:EP; try lia; reflexivity. }
    rewrite S, Z2Pos.id by exact P.
    unfold binary_round_aux.
    assert (SH : shr_fexp Double.prec Double.emax M E loc_Exact
                 = (Nat.iter (Z.to_nat (t - E)) shr_1 (kept M), t)).
    { unfold shr_fexp. rewrite Zdigits2_log2 by exact P.
      fold (fexp (Z.log2 M + 1 + E)). fold t. unfold shr.
      destruct (t - E) as [|p|p] eqn:EP; try lia.
      cbn [shr_record_of_loc]. fold (kept M). rewrite iter_pos_nat.
      f_equal. lia. }
    rewrite SH.
    pose proof (round_shifted M (Z.to_nat (t - E)) ltac:(lia)) as N.
    rewrite Z2Nat.id in N by lia.
    set (k := round_nearest_even _ _) in *.
    rewrite EL, Z.sub_diag, Z.pow_0_r, Z.mul_1_r.
    assert (P2 : 0 < 2 ^ (t - E)) by (apply Z.pow_pos_nonneg; lia).
    pose proof (nearest_nonneg k M _ P2 ltac:(lia) N) as K0.
    pose proof (log2_bounds M P) as [LB UB].
    set (d := Z.log2 M + 1) in *.
    (* the quotient is below 2^53 *)
    assert (K53 : k <= 2 ^ 53).
    { apply (nearest_le k M (2 ^ (t - E)) (2 ^ 53) (2 ^ 53 * 2 ^ (t - E)) (2 ^ (t - E)));
        [exact P2|exact P2|exact N|apply nearest_multiple; exact P2|].
      assert (M <= 2 ^ 53 * 2 ^ (t - E)); [|nia].
      rewrite <- Z.pow_add_r by lia.
      apply Z.lt_le_incl, (Z.lt_le_trans _ _ _ UB), Z.pow_le_mono_r; [lia|].
      unfold t, d in *. rewrite fexp_eq. lia. }
    destruct (Z.eq_dec k 0) as [K|K].
    { rewrite K, finish_zero by lia. split; [exact I|].
      exists 0. rewrite <- K. split; [exact N|]. rewrite K. cbn [val].
      destruct s; cbn [cond_Zopp Z.opp]; ring. }
    destruct (Z.eq_dec k (2 ^ 53)) as [K'|K'].
    { assert (T970 : t <= 970).
      { destruct (Z_le_gt_dec t 970) as [T|T]; [exact T|exfalso].
        destruct O as [O|[O B]]; [unfold t, d in *; rewrite fexp_eq in T; lia|].
        replace (Z.min E 971) with E in B by lia.
        rewrite Z.sub_diag, Z.pow_0_r, Z.mul_1_r in B.
        replace t with 971 in N by lia.
        destruct N as ((N & _) & _). rewrite K' in N.
        assert (0 < 2 ^ (971 - E)) by (apply Z.pow_pos_nonneg; lia). nia. }
      rewrite K', finish_carry by lia. split.
      - apply regular_in_form; [reflexivity| |lia].
        replace (Z.log2 (2 ^ 52)) with 52 by reflexivity. rewrite fexp_eq. lia.
      - exists k. split; [exact N|]. rewrite K'. unfold val.
        rewrite Z2Pos.id by reflexivity.
        rewrite Qpower_plus by discriminate.
        destruct s; cbn [cond_Zopp]; change (2 ^ 1)%Q with 2%Q;
          [change (inject_Z (- 2 ^ 53)) with (inject_Z (- 2 ^ 52) * 2)%Q
          |change (inject_Z (2 ^ 53)) with (inject_Z (2 ^ 52) * 2)%Q]; ring. }
    (* the rounded mantissa fits *)
    assert (F : fexp (Z.log2 k + 1 + t) = t).
    { rewrite fexp_eq. pose proof (log2_below k ltac:(lia) ltac:(lia)) as LK.
      destruct (Z.eq_dec t (-1074)) as [Tm|Tm]; [lia|].
      (* a normal number: the quotient is at least 2^52 *)
      assert (TD : t = d + E - 53) by (unfold t, d in *; rewrite fexp_eq in *; lia).
      assert (K52 : 2 ^ 52 <= k).
      { apply (nearest_le (2 ^ 52) (2 ^ 52 * 2 ^ (t - E)) (2 ^ (t - E)) k M (2 ^ (t - E)));
          [exact P2|exact P2|apply nearest_multiple; exact P2|exact N|].
        assert (2 ^ 52 * 2 ^ (t - E) <= M); [|nia].
        rewrite <- Z.pow_add_r by lia.
        apply (Z.le_trans _ (2 ^ Z.log2 M)); [|exact LB].
        apply Z.pow_le_mono_r; [lia|]. unfold d in *. lia. }
      assert (52 <= Z.log2 k) by (apply Z.log2_le_pow2; lia). lia. }
    rewrite finish_in_form; [|lia|lia|exact F|lia].
    split; [apply regular_in_form; [lia|exact F|lia]|].
    exists k. split; [exact N|]. unfold val. rewrite Z2Pos.id by lia. reflexivity.
Qed.

Local Close Scope Z_scope.

Local Open Scope Z_scope.

(** ** Rounding keeps the order *)

Lemma nearest_scale (k N T c : Z) : 0 < c -> nearest k N T -> nearest k (N * c) (T * c).
Proof.
  intros P ((L & U) & Tu & Tl). unfold nearest. repeat split; try nia.
  - intros EQ. apply Tu. nia.
  - intros EQ. apply Tl. nia.
Qed.

Lemma pow2_pos (a : Z) : 0 <= a -> 0 < 2 ^ a.
Proof. intros A. apply Z.pow_pos_nonneg; lia. Qed.

Lemma pow2_shift (n a b : Z) : 0 <= a -> 0 <= b -> n * 2 ^ (a + b) = n * 2 ^ a * 2 ^ b.
Proof. intros A B. rewrite Z.pow_add_r by lia. ring. Qed.

(** The order of two numbers [a * 2^ea] and [b * 2^eb] is that of their
    mantissas at a common exponent, whichever is taken. *)
Lemma common_exponent (a b ea eb L L' : Z) :
  L <= ea -> L <= eb -> L' <= L ->
  a * 2 ^ (ea - L) <= b * 2 ^ (eb - L) <-> a * 2 ^ (ea - L') <= b * 2 ^ (eb - L').
Proof.
  intros A B C.
  replace (ea - L') with ((ea - L) + (L - L')) by lia.
  replace (eb - L') with ((eb - L) + (L - L')) by lia.
  rewrite !pow2_shift by lia.
  pose proof (pow2_pos (L - L') ltac:(lia)). split; intros; nia.
Qed.

(** The quotient a rounding keeps has at most 53 bits, and exactly 53
    above the subnormal numbers (or is the next power of two). *)
Lemma quotient_bounds (M E k : Z) :
  0 < M ->
  let t := fexp (Z.log2 M + 1 + E) in
  let L := Z.min E t in
  nearest k (M * 2 ^ (E - L)) (2 ^ (t - L)) ->
  0 <= k <= 2 ^ 53 /\ (-1074 < t -> 2 ^ 52 <= k).
Proof.
  intros P t L N.
  assert (Tt : t = Z.max (Z.log2 M + 1 + E - 53) (-1074)) by (unfold t; apply fexp_eq).
  pose proof (log2_bounds M P) as [LB UB].
  pose proof (Z.log2_nonneg M) as L0.
  assert (P1 : 0 < 2 ^ (E - L)) by (apply pow2_pos; lia).
  assert (P2 : 0 < 2 ^ (t - L)) by (apply pow2_pos; lia).
  split; [split|].
  - apply (nearest_nonneg k (M * 2 ^ (E - L)) (2 ^ (t - L)) P2); [nia|exact N].
  - apply (nearest_le k (M * 2 ^ (E - L)) (2 ^ (t - L))
                      (2 ^ 53) (2 ^ 53 * 2 ^ (t - L)) (2 ^ (t - L)));
      [exact P2|exact P2|exact N|apply nearest_multiple; exact P2|].
    assert (M * 2 ^ (E - L) <= 2 ^ 53 * 2 ^ (t - L)); [|nia].
    apply Z.le_trans with (2 ^ (Z.log2 M + 1) * 2 ^ (E - L)); [nia|].
    rewrite <- !Z.pow_add_r by lia. apply Z.pow_le_mono_r; lia.
  - intros Tn.
    apply (nearest_le (2 ^ 52) (2 ^ 52 * 2 ^ (t - L)) (2 ^ (t - L))
                      k (M * 2 ^ (E - L)) (2 ^ (t - L)));
      [exact P2|exact P2|apply nearest_multiple; exact P2|exact N|].
    assert (2 ^ 52 * 2 ^ (t - L) <= M * 2 ^ (E - L)); [|nia].
    apply Z.le_trans with (2 ^ Z.log2 M * 2 ^ (E - L)); [|nia].
    rewrite <- !Z.pow_add_r by lia. apply Z.pow_le_mono_r; lia.
Qed.

(** Of two numbers above 0 the larger has the larger exponent and, at
    that exponent, the larger quotient. *)
Lemma quotient_le (M1 E1 M2 E2 k1 k2 L : Z) :
  0 < M1 -> 0 < M2 -> L <= E1 -> L <= E2 ->
  M1 * 2 ^ (E1 - L) <= M2 * 2 ^ (E2 - L) ->
  let t1 := fexp (Z.log2 M1 + 1 + E1) in
  let t2 := fexp (Z.log2 M2 + 1 + E2) in
  nearest k1 (M1 * 2 ^ (E1 - Z.min E1 t1)) (2 ^ (t1 - Z.min E1 t1)) ->
  nearest k2 (M2 * 2 ^ (E2 - Z.min E2 t2)) (2 ^ (t2 - Z.min E2 t2)) ->
  t1 <= t2 /\ k1 <= k2 * 2 ^ (t2 - t1).
Proof.
  intros P1 P2 A1 A2 LE t1 t2 N1 N2.
  assert (T1 : t1 = Z.max (Z.log2 M1 + 1 + E1 - 53) (-1074)) by (unfold t1; apply fexp_eq).
  assert (T2 : t2 = Z.max (Z.log2 M2 + 1 + E2 - 53) (-1074)) by (unfold t2; apply fexp_eq).
  assert (LL : Z.log2 M1 + E1 <= Z.log2 M2 + E2).
  { assert (Z.log2 (M1 * 2 ^ (E1 - L)) <= Z.log2 (M2 * 2 ^ (E2 - L)))
      by (apply Z.log2_le_mono; exact LE).
    rewrite !log2_scaled in H by lia. lia. }
  assert (TT : t1 <= t2) by lia.
  split; [exact TT|].
  destruct (Z.eq_dec t1 t2) as [EQ|NE].
  - rewrite <- EQ, Z.sub_diag, Z.pow_0_r, Z.mul_1_r. rewrite <- EQ in N2.
    set (L' := Z.min L t1).
    apply (nearest_scale _ _ _ (2 ^ (Z.min E1 t1 - L')) ltac:(apply pow2_pos; lia)) in N1.
    apply (nearest_scale _ _ _ (2 ^ (Z.min E2 t1 - L')) ltac:(apply pow2_pos; lia)) in N2.
    rewrite <- !Z.mul_assoc, <- !Z.pow_add_r in N1, N2 by lia.
    replace (E1 - Z.min E1 t1 + (Z.min E1 t1 - L')) with (E1 - L') in N1 by lia.
    replace (t1 - Z.min E1 t1 + (Z.min E1 t1 - L')) with (t1 - L') in N1 by lia.
    replace (E2 - Z.min E2 t1 + (Z.min E2 t1 - L')) with (E2 - L') in N2 by lia.
    replace (t1 - Z.min E2 t1 + (Z.min E2 t1 - L')) with (t1 - L') in N2 by lia.
    assert (PT : 0 < 2 ^ (t1 - L')) by (apply pow2_pos; lia).
    apply (nearest_le _ _ _ _ _ _ PT PT N1 N2).
    apply (common_exponent M1 M2 E1 E2 L L') in LE; [nia|lia|lia|lia].
  - pose proof (quotient_bounds M1 E1 k1 P1 N1) as [[_ K1] _].
    pose proof (quotient_bounds M2 E2 k2 P2 N2) as [_ K2].
    fold t2 in K2. specialize (K2 ltac:(lia)).
    assert (2 ^ 1 <= 2 ^ (t2 - t1)) by (apply Z.pow_le_mono_r; lia).
    change (2 ^ 1) with 2 in H. lia.
Qed.

Local Close Scope Z_scope.

Local Open Scope Z_scope.

(** ** The nearest double *)

Lemma shift_Q (a ea L : Z) :
  L <= ea -> (inject_Z (a * 2 ^ (ea - L)) * 2 ^ L == inject_Z a * 2 ^ ea)%Q.
Proof.
  intros A. rewrite inject_Z_mult, Zpower_Qpower by lia.
  rewrite <- Qmult_assoc, <- Qpower_plus by discriminate.
  replace (ea - L + L) with ea by lia. reflexivity.
Qed.

Lemma scaled_le_Q (a b ea eb L : Z) :
  L <= ea -> L <= eb ->
  (inject_Z a * 2 ^ ea <= inject_Z b * 2 ^ eb)%Q <-> a * 2 ^ (ea - L) <= b * 2 ^ (eb - L).
Proof.
  intros A B. rewrite <- (shift_Q a ea L A), <- (shift_Q b eb L B).
  rewrite Qmult_le_r by (apply Qpower_0_lt; reflexivity).
  rewrite <- Zle_Qle. reflexivity.
Qed.

Lemma scaled_nonpos (a t : Z) : a <= 0 -> (inject_Z a * 2 ^ t <= 0)%Q.
Proof.
  intros A. pose proof (Qpower_0_lt 2 t eq_refl) as P.
  rewrite Zle_Qle in A. change (inject_Z 0) with 0%Q in A.
  generalize dependent (inject_Z a). generalize dependent (2 ^ t)%Q. intros p P q A. nra.
Qed.

Lemma scaled_nonneg (a t : Z) : 0 <= a -> (0 <= inject_Z a * 2 ^ t)%Q.
Proof.
  intros A. pose proof (Qpower_0_lt 2 t eq_refl) as P.
  rewrite Zle_Qle in A. change (inject_Z 0) with 0%Q in A.
  generalize dependent (inject_Z a). generalize dependent (2 ^ t)%Q. intros p P q A. nra.
Qed.

(** [rounded n e] below the overflow: a double in form, whose value is
    the nearest multiple of the unit of its binade. *)
Lemma rounded_spec (n e : Z) :
  below (Z.abs n) e ->
  let t := fexp (Z.log2 (Z.abs n) + 1 + e) in
  let L := Z.min e t in
  regular (rounded n e)
  /\ exists k, nearest k (Z.abs n * 2 ^ (e - L)) (2 ^ (t - L))
               /\ (val (rounded n e) == inject_Z (Z.sgn n * k) * 2 ^ t)%Q.
Proof.
  intros B t L. destruct n as [|p|p].
  - split; [exact I|]. exists 0. split.
    + change (Z.abs 0 * 2 ^ (e - L)) with (0 * 2 ^ (t - L)).
      apply (nearest_multiple 0). apply pow2_pos. lia.
    + cbn [rounded val Z.sgn Z.mul binary_normalize]. unfold rounded. cbn [binary_normalize val].
      change (inject_Z 0) with 0%Q. ring.
  - destruct (round_nearest false (Z.pos p) e eq_refl B) as [R (k & N & V)].
    split; [exact R|]. exists k. split; [exact N|].
    cbn [Z.sgn]. rewrite Z.mul_1_l. exact V.
  - destruct (round_nearest true (Z.pos p) e eq_refl B) as [R (k & N & V)].
    split; [exact R|]. exists k. split; [exact N|].
    cbn [Z.sgn]. replace (-1 * k) with (- k) by lia. exact V.
Qed.

(** Rounding to the nearest double keeps the order. *)
Lemma rounded_le (n1 e1 n2 e2 : Z) :
  below (Z.abs n1) e1 -> below (Z.abs n2) e2 ->
  (inject_Z n1 * 2 ^ e1 <= inject_Z n2 * 2 ^ e2)%Q ->
  (val (rounded n1 e1) <= val (rounded n2 e2))%Q.
Proof.
  intros B1 B2 LE.
  destruct (rounded_spec n1 e1 B1) as [_ (k1 & N1 & V1)].
  destruct (rounded_spec n2 e2 B2) as [_ (k2 & N2 & V2)].
  rewrite V1, V2. clear V1 V2.
  set (L := Z.min e1 e2).
  apply (scaled_le_Q n1 n2 e1 e2 L) in LE; [|lia|lia].
  assert (P1 : 0 < 2 ^ (e1 - L)) by (apply pow2_pos; lia).
  assert (P2 : 0 < 2 ^ (e2 - L)) by (apply pow2_pos; lia).
  assert (K1 : 0 <= k1).
  { refine (nearest_nonneg k1 _ _ _ _ N1).
    - apply pow2_pos. pose proof (fexp_eq (Z.log2 (Z.abs n1) + 1 + e1)). lia.
    - apply Z.mul_nonneg_nonneg; [lia|]. apply Z.lt_le_incl, pow2_pos. lia. }
  assert (K2 : 0 <= k2).
  { refine (nearest_nonneg k2 _ _ _ _ N2).
    - apply pow2_pos. lia.
    - apply Z.mul_nonneg_nonneg; [lia|]. apply Z.lt_le_incl, pow2_pos. lia. }
  destruct (Z_lt_le_dec 0 n1) as [Pn|Nn].
  - assert (Pn2 : 0 < n2) by nia.
    rewrite (Z.abs_eq n1) in * by lia. rewrite (Z.abs_eq n2) in * by lia.
    rewrite (Z.sgn_pos n1), (Z.sgn_pos n2), !Z.mul_1_l by lia.
    destruct (quotient_le n1 e1 n2 e2 k1 k2 L Pn Pn2 ltac:(lia) ltac:(lia) LE N1 N2) as [T K].
    apply (scaled_le_Q _ _ _ _ (fexp (Z.log2 n1 + 1 + e1))); [lia|exact T|].
    rewrite Z.sub_diag, Z.pow_0_r, Z.mul_1_r. exact K.
  - destruct (Z_lt_le_dec n2 0) as [Nn2|Pn2].
    + assert (Nn1 : n1 < 0) by nia.
      rewrite (Z.abs_neq n1) in * by lia. rewrite (Z.abs_neq n2) in * by lia.
      rewrite (Z.sgn_neg n1), (Z.sgn_neg n2) by lia.
      destruct (quotient_le (- n2) e2 (- n1) e1 k2 k1 L ltac:(lia) ltac:(lia)
                  ltac:(lia) ltac:(lia) ltac:(lia) N2 N1) as [T K].
      apply (scaled_le_Q _ _ _ _ (fexp (Z.log2 (- n2) + 1 + e2))); [exact T|lia|].
      rewrite Z.sub_diag, Z.pow_0_r, Z.mul_1_r. lia.
    + apply Qle_trans with 0%Q; [apply scaled_nonpos|apply scaled_nonneg].
      * assert (Z.sgn n1 <= 0) by (apply Z.sgn_nonpos; lia). nia.
      * assert (0 <= Z.sgn n2) by (apply Z.sgn_nonneg; lia). nia.
Qed.

Local Close Scope Z_scope.

Local Open Scope Z_scope.

(** ** The two operations of the mapping, on any finite double *)

Lemma val_mantissa (v : Double.number) :
  (val v == inject_Z (signed_mantissa v) * 2 ^ exponent v)%Q.
Proof. destruct v; cbn [val signed_mantissa exponent]; reflexivity. Qed.

Lemma regular_bounds (s : bool) (m : positive) (e : Z) :
  regular (S754_finite s m e) -> Z.pos m < 2 ^ 53 /\ -1074 <= e <= 971.
Proof.
  unfold regular, bounded, canonical_mantissa. intros H.
  apply andb_prop in H as [C B]. apply Z.eqb_eq in C. apply Z.leb_le in B.
  rewrite digits2_log2 in C. fold (fexp (Z.log2 (Z.pos m) + 1 + e)) in C.
  rewrite fexp_eq in C. unfold Double.emax, Double.prec in B.
  split; [|lia]. apply Z.log2_lt_pow2; lia.
Qed.

Lemma rounded_pos (M E : Z) :
  0 < M -> rounded M E = binary_round Double.prec Double.emax false (Z.to_pos M) E.
Proof. intros P. destruct M; try lia. reflexivity. Qed.

Lemma rounded_neg (M E : Z) :
  0 < M -> rounded (- M) E = binary_round Double.prec Double.emax true (Z.to_pos M) E.
Proof. intros P. destruct M; try lia. reflexivity. Qed.

(** A product of two mantissas whose bits are not all kept is rounded as
    any other number is. *)
Lemma round_aux_round (s : bool) (M E : Z) :
  2 ^ 52 <= M ->
  binary_round_aux Double.prec Double.emax s M E loc_Exact
  = binary_round Double.prec Double.emax s (Z.to_pos M) E.
Proof.
  intros B. assert (P : 0 < M) by lia.
  assert (52 <= Z.log2 M) by (apply Z.log2_le_pow2; lia).
  unfold binary_round. rewrite digits2_log2, Z2Pos.id by exact P.
  fold (fexp (Z.log2 M + 1 + E)).
  assert (S : shl_align (Z.to_pos M) E (fexp (Z.log2 M + 1 + E)) = (Z.to_pos M, E)).
  { unfold shl_align. rewrite fexp_eq.
    destruct (Z.max (Z.log2 M + 1 + E - 53) (-1074) - E) eqn:EP; try lia; reflexivity. }
  rewrite S, Z2Pos.id by exact P. reflexivity.
Qed.

Lemma SCALE_finite : Double.SCALE = S754_finite false (Z.to_pos (3 * 2 ^ 51)) (-56).
Proof. vm_compute. reflexivity. Qed.

Lemma MAP_SIZE_finite : Double.MAP_SIZE = S754_finite false (Z.to_pos (25 * 2 ^ 48)) (-39).
Proof. vm_compute. reflexivity. Qed.

(** [v * SCALE] is the double nearest to the product. *)
Lemma mul_SCALE (v : Double.number) :
  regular v ->
  (val (Double.mul v Double.SCALE)
   == val (rounded (signed_mantissa v * (3 * 2 ^ 51)) (exponent v + -56)))%Q.
Proof.
  destruct v as [s|s| |s m e]; try contradiction; intros R.
  - rewrite SCALE_finite. reflexivity.
  - rewrite SCALE_finite. unfold Double.mul. cbn [SFmul signed_mantissa exponent].
    remember (3 * 2 ^ 51) as c eqn:Hc.
    assert (C : Z.pos (m * Z.to_pos c) = Z.pos m * c)
      by (rewrite Pos2Z.inj_mul, Z2Pos.id by lia; reflexivity).
    rewrite C. rewrite round_aux_round by lia.
    destruct s; cbn [cond_Zopp xorb].
    + replace (- Z.pos m * c) with (- (Z.pos m * c)) by lia.
      rewrite rounded_neg by lia. reflexivity.
    + rewrite rounded_pos by lia. reflexivity.
Qed.

Lemma mul_below (v : Double.number) :
  regular v ->
  below (Z.abs (signed_mantissa v * (3 * 2 ^ 51))) (exponent v + -56).
Proof.
  destruct v as [s|s| |s m e]; try contradiction; intros R; left.
  - cbn. lia.
  - destruct (regular_bounds s m e R) as [B E]. cbn [signed_mantissa exponent].
    assert (A : Z.abs (cond_Zopp s (Z.pos m) * (3 * 2 ^ 51)) = Z.pos m * (3 * 2 ^ 51))
      by (destruct s; cbn [cond_Zopp]; lia).
    rewrite A.
    assert (Z.log2 (Z.pos m * (3 * 2 ^ 51)) < 106); [|lia].
    apply Z.log2_lt_pow2; [lia|].
    change (2 ^ 106) with (2 ^ 53 * 2 ^ 53). nia.
Qed.

Lemma slope_of_SCALE (v : Double.number) :
  (inject_Z (signed_mantissa v * (3 * 2 ^ 51)) * 2 ^ (exponent v + -56)
   == val v * (3 # 32))%Q.
Proof.
  rewrite val_mantissa, inject_Z_mult, Qpower_plus by discriminate.
  assert (K : (inject_Z (3 * 2 ^ 51) * 2 ^ (-56) == 3 # 32)%Q) by reflexivity.
  rewrite <- K. ring.
Qed.

(** [canvasX] keeps the order of the coordinates. *)
Lemma mul_SCALE_le (v1 v2 : Double.number) :
  regular v1 -> regular v2 -> (val v1 <= val v2)%Q ->
  (val (Double.mul v1 Double.SCALE) <= val (Double.mul v2 Double.SCALE))%Q.
Proof.
  intros R1 R2 LE. rewrite !mul_SCALE by assumption.
  apply rounded_le; [apply mul_below; exact R1|apply mul_below; exact R2|].
  rewrite !slope_of_SCALE. lra.
Qed.

(** [MAP_SIZE - z] is the double nearest to the difference, which is
    below the overflow for every finite [z]. *)
Lemma sub_MAP_SIZE (z : Double.number) :
  regular z ->
  exists n e : Z,
    Double.sub Double.MAP_SIZE z = rounded n e
    /\ (inject_Z n * 2 ^ e == 12800 - val z)%Q
    /\ below (Z.abs n) e.
Proof.
  destruct z as [s|s| |s m e]; try contradiction; intros R.
  - exists 12800, 0. split; [reflexivity|]. split; [reflexivity|]. left. cbn. lia.
  - destruct (regular_bounds s m e R) as [B E].
    rewrite MAP_SIZE_finite. unfold Double.sub. cbn [SFsub].
    remember (25 * 2 ^ 48) as c eqn:Hc.
    set (ez := Z.min (-39) e).
    rewrite !shl_align_spec by lia. cbn [fst cond_Zopp].
    assert (Pu : 0 < 2 ^ (-39 - ez)) by (apply pow2_pos; lia).
    assert (Pw : 0 < 2 ^ (e - ez)) by (apply pow2_pos; lia).
    rewrite (Z2Pos.id c) by lia. rewrite !Z2Pos.id by nia.
    eexists _, ez. split; [reflexivity|]. split.
    + rewrite inject_Z_minus.
      assert (D : forall a b q : Q, ((a - b) * q == a * q - b * q)%Q) by (intros; ring).
      rewrite D, shift_Q by lia.
      assert (K : (inject_Z c * 2 ^ (-39) == 12800)%Q) by (subst c; reflexivity).
      rewrite K. cbn [val].
      destruct s; cbn [cond_Zopp].
      * replace (- (Z.pos m * 2 ^ (e - ez))) with (- Z.pos m * 2 ^ (e - ez)) by lia.
        rewrite shift_Q by lia. reflexivity.
      * rewrite shift_Q by lia. reflexivity.
    + destruct (Z_le_gt_dec e 969) as [X|X].
      * (* the difference is below 2^1023 *)
        left.
        assert (U : 2 ^ 53 * 2 ^ (-39 - ez) <= 2 ^ (1022 - ez))
          by (rewrite <- Z.pow_add_r by lia; apply Z.pow_le_mono_r; lia).
        assert (W : 2 ^ 53 * 2 ^ (e - ez) <= 2 ^ (1022 - ez))
          by (rewrite <- Z.pow_add_r by lia; apply Z.pow_le_mono_r; lia).
        assert (A1 : 0 < c * 2 ^ (-39 - ez) < 2 ^ (1022 - ez)) by nia.
        assert (B1 : 0 < Z.pos m * 2 ^ (e - ez) < 2 ^ (1022 - ez)) by nia.
        assert (T2 : 2 ^ (1023 - ez) = 2 * 2 ^ (1022 - ez)).
        { replace (1023 - ez) with (1 + (1022 - ez)) by lia.
          rewrite Z.pow_add_r by lia. reflexivity. }
        assert (N : Z.abs (c * 2 ^ (-39 - ez) - cond_Zopp s (Z.pos m * 2 ^ (e - ez)))
                    < 2 ^ (1023 - ez)).
        { rewrite T2. clear U W T2 Pu Pw.
          generalize dependent (c * 2 ^ (-39 - ez)).
          generalize dependent (Z.pos m * 2 ^ (e - ez)).
          generalize dependent (2 ^ (1022 - ez)).
          intros T b B1 a A1. clear - A1 B1. destruct s; cbn [cond_Zopp]; lia. }
        set (n := c * 2 ^ (-39 - ez) - cond_Zopp s (Z.pos m * 2 ^ (e - ez))) in *.
        destruct (Z.eq_dec n 0) as [Z0|NZ];
          [rewrite Z0; change (Z.log2 (Z.abs 0)) with 0; lia|].
        assert (Z.log2 (Z.abs n) < 1023 - ez); [|lia].
        apply Z.log2_lt_pow2; [lia|exact N].
      * (* [z] is in the last two binades: the difference is [- z] but for
           12800, far less than half a unit there *)
        assert (EZ : ez = -39) by (unfold ez; lia).
        assert (Min : Z.min ez 971 = ez) by lia.
        unfold below. rewrite Min, Z.sub_diag, Z.pow_0_r, Z.mul_1_r.
        replace (971 - ez) with 1010 by lia.
        replace (-39 - ez) with 0 by lia. rewrite Z.pow_0_r, Z.mul_1_r.
        assert (Ww : 2 ^ (e - ez) <= 2 ^ 1010) by (apply Z.pow_le_mono_r; lia).
        assert (W54 : 2 ^ 54 < 2 ^ 1010) by (apply Z.pow_lt_mono_r; lia).
        assert (W1063 : 2 ^ 1063 = 2 ^ 53 * 2 ^ 1010)
          by (rewrite <- Z.pow_add_r by lia; reflexivity).
        assert (C53 : 0 < c < 2 ^ 53) by lia.
        assert (B1 : 0 < Z.pos m * 2 ^ (e - ez) <= (2 ^ 53 - 1) * 2 ^ 1010) by nia.
        assert (N : 2 * Z.abs (c - cond_Zopp s (Z.pos m * 2 ^ (e - ez)))
                    < (2 ^ 54 - 1) * 2 ^ 1010).
        { clear Ww W1063 Pu Pw Hc.
          generalize dependent (Z.pos m * 2 ^ (e - ez)).
          generalize dependent (2 ^ 1010).
          intros T W54 b B1. clear - W54 C53 B1. destruct s; cbn [cond_Zopp]; lia. }
        set (n := c - cond_Zopp s (Z.pos m * 2 ^ (e - ez))) in *.
        destruct (Z.eq_dec n 0) as [Z0|NZ];
          [left; rewrite Z0; change (Z.log2 (Z.abs 0)) with 0; lia|].
        assert (L : Z.log2 (Z.abs n) < 1063).
        { apply Z.log2_lt_pow2; [lia|]. rewrite W1063.
          generalize dependent (2 ^ 1010). intros T. lia. }
        destruct (Z_le_gt_dec (Z.log2 (Z.abs n) + 1 + ez) 1023) as [S|S];
          [left; exact S|right].
        split; [lia|exact N].
Qed.

(** [canvasY] turns the order of the coordinates round. *)
Lemma sub_mul_SCALE_le (z1 z2 : Double.number) :
  regular z1 -> regular z2 -> (val z1 <= val z2)%Q ->
  (val (Double.mul (Double.sub Double.MAP_SIZE z2) Double.SCALE)
   <= val (Double.mul (Double.sub Double.MAP_SIZE z1) Double.SCALE))%Q.
Proof.
  intros R1 R2 LE.
  destruct (sub_MAP_SIZE z1 R1) as (n1 & e1 & -> & V1 & B1).
  destruct (sub_MAP_SIZE z2 R2) as (n2 & e2 & -> & V2 & B2).
  apply mul_SCALE_le.
  - apply (rounded_spec n2 e2 B2).
  - apply (rounded_spec n1 e1 B1).
  - apply rounded_le; [exact B2|exact B1|]. rewrite V1, V2. lra.
Qed.

Local Close Scope Z_scope.

(** ** Claims about the coordinate mapping *)

Lemma double_truthy_some (v : option Double.number) (q : Double.number) :
  v = Some q -> Double.falsy q = false -> Double.truthy v = Some q.
Proof. intros -> F. unfold Double.truthy. now rewrite F. Qed.

(** What a round of the loop does for a base with both coordinates. *)
Lemma double_place_step_placed st b bx bz :
  Double.truthy (Double.Base.x b) = Some bx -> Double.truthy (Double.Base.z b) = Some bz ->
  match Double.place_step st b with
  | Return st' =>
      Double.basePositions st' =
      (Double.basePositions st
       ++ [Double.mkBaseData b (Double.mul bx Double.SCALE)
             (Double.mul (Double.sub Double.MAP_SIZE bz) Double.SCALE)])%list
  | Throw _ =>
      exists f, Double.Base.faction b = Some f /\ inherited f = true
  end.
Proof.
  intros Ex Ez. unfold Double.place_step. rewrite Ex, Ez.
  destruct (negb (is_str (Double.Base.faction b) "Neutral")
            && negb (is_str (Double.Base.type b) "HQ")); [|reflexivity].
  destruct (Double.Base.faction b) as [f|]; [|reflexivity].
  destruct (own f (Double.factionBases st)); [reflexivity|].
  destruct (inherited f) eqn:E; [eauto|reflexivity].
Qed.

Lemma SCALE_canon : Double.SCALE = canon 3 (-5).
Proof. vm_compute. reflexivity. Qed.

Lemma slope_value : slope == 3 # 32.
Proof. vm_compute. reflexivity. Qed.

Lemma pow2_opp (g : Z) : (0 <= g)%Z -> inject_Z (2 ^ g) * 2 ^ (- g) == 1.
Proof.
  intros G. rewrite Zpower_Qpower by exact G. rewrite <- Qpower_plus by discriminate.
  replace (g + - g)%Z with 0%Z by lia. reflexivity.
Qed.

Lemma pow2_5 (e : Z) : 2 ^ (e + -5) == 2 ^ e * (1 # 32).
Proof. rewrite Qpower_plus by discriminate. reflexivity. Qed.

(** On a fixed-point coordinate both steps of the mapping are exact. *)
Lemma fixed_point_mapping (c : Double.number) :
  fixed_point c ->
  val (Double.mul c Double.SCALE) == slope * val c
  /\ val (Double.mul (Double.sub Double.MAP_SIZE c) Double.SCALE)
     == slope * (val Double.MAP_SIZE - val c).
Proof.
  intros (g & n & G & B & ->).
  assert (P : (0 < 2 ^ g <= 2 ^ 30)%Z).
  { split; [apply Z.pow_pos_nonneg; lia|apply Z.pow_le_mono_r; lia]. }
  assert (Rn : representable n (- g)) by (split; lia).
  assert (R3 : representable 3 (-5)) by (split; [reflexivity|lia]).
  assert (Hc : approx (Double.dyadic n (- g)) n (- g))
    by (rewrite dyadic_canon by exact Rn; apply approx_canon).
  assert (Hs : approx Double.SCALE 3 (-5)) by (rewrite SCALE_canon; apply approx_canon).
  assert (Vc : val (Double.dyadic n (- g)) == inject_Z n * 2 ^ (- g))
    by (apply val_approx; assumption).
  rewrite slope_value. split.
  - assert (R : representable (n * 3) (- g + -5)) by (split; lia).
    rewrite (val_approx _ _ _ R (mul_approx _ _ _ _ _ _ Rn R3 R Hc Hs)).
    rewrite Vc, pow2_5, inject_Z_mult. change (inject_Z 3) with 3. ring.
  - assert (Rm : representable (12800 * 2 ^ g) (- g)) by (split; lia).
    assert (Hm : approx Double.MAP_SIZE (12800 * 2 ^ g) (- g)).
    { unfold Double.MAP_SIZE.
      rewrite <- (dyadic_shift 12800 0 g) by (try split; try reflexivity; lia).
      replace (0 - g)%Z with (- g)%Z by lia.
      rewrite dyadic_canon by exact Rm. apply approx_canon. }
    assert (Rd : representable (12800 * 2 ^ g - n) (- g)) by (split; lia).
    pose proof (sub_approx _ _ _ _ _ Rm Rn Rd Hm Hc) as Hd.
    assert (R : representable ((12800 * 2 ^ g - n) * 3) (- g + -5)) by (split; lia).
    rewrite (val_approx _ _ _ R (mul_approx _ _ _ _ _ _ Rd R3 R Hd Hs)).
    rewrite Vc, pow2_5, inject_Z_mult, inject_Z_minus, inject_Z_mult.
    change (inject_Z 3) with 3.
    assert (M : val Double.MAP_SIZE == 12800) by (vm_compute; reflexivity).
    rewrite M. change (inject_Z 12800) with 12800.
    pose proof (pow2_opp g (proj1 G)) as O.
    generalize dependent (inject_Z (2 ^ g)). generalize (2 ^ (- g)). generalize (inject_Z n).
    intros qn q2 qg O. 
    assert (E : (12800 * qg - qn) * 3 * (q2 * (1 # 32))
                == (3 # 32) * (12800 * (qg * q2) - qn * q2)) by ring.
    rewrite E, O. ring.
Qed.

(** C3, as stated, fails twice.  The base at world (0, 200) has both
    coordinates, and 0 is a coordinate of the map, yet the round records
    nothing for it (bot.js 355 takes the number 0 for a missing
    coordinate).  And [canvasX] is not strictly increasing: 839.7 and the
    next double above it, 839.7000000000002, are mapped to the same
    [canvasX]. *)
Lemma C3_mapping_counterexample :
  (Double.Base.x (fob_at 0 200) = Some (int 0)
   /\ Double.Base.z (fob_at 0 200) = Some (int 200)
   /\ Double.place_step Double.placement0 (fob_at 0 200) = Return Double.placement0
   /\ ~ mapped Double.placement0 (fob_at 0 200) (int 0) (int 200))
  /\ (let x1 := decimal 8397 1 in
      let x2 := decimal 8397000000000002 13 in
      val x1 < val x2
      /\ fst (mapper_spec Double.MAP_SIZE Double.CANVAS_SIZE x1 (int 200))
         = fst (mapper_spec Double.MAP_SIZE Double.CANVAS_SIZE x2 (int 200))).
Proof.
  split.
  - split; [reflexivity|]. split; [reflexivity|]. split; [reflexivity|].
    unfold mapped. intros (bp & E & _). vm_compute in E. discriminate.
  - cbn zeta. split; [vm_compute; reflexivity|vm_compute; reflexivity].
Qed.

(** C3, amended: a base whose [x] and [z] are both present and truthy (not
    0) is recorded at [canvasX = x * scale] and
    [canvasY = (mapSize - z) * scale] with [scale = canvasSize / mapSize],
    each operation rounded to the nearest double (unless its faction names
    a member of [Object.prototype], when the render throws).  On finite
    coordinates [canvasX] never falls as [x] grows and [canvasY] never
    grows as [z] grows.  On fixed-point coordinates, where no operation rounds, [canvasX] grows strictly with
    [x], [canvasY] falls strictly as [z] grows, and both are linear with
    slope [canvasSize / mapSize] in absolute value. *)
Theorem C3_coordinate_mapping :
  (forall st b bx bz,
      Double.Base.x b = Some bx -> Double.Base.z b = Some bz ->
      Double.falsy bx = false -> Double.falsy bz = false ->
      mapped st b bx bz)
  /\ (forall x1 z1 x2 z2,
         regular x1 -> regular z1 -> regular x2 -> regular z2 ->
         let p1 := mapper_spec Double.MAP_SIZE Double.CANVAS_SIZE x1 z1 in
         let p2 := mapper_spec Double.MAP_SIZE Double.CANVAS_SIZE x2 z2 in
         (val x1 <= val x2 -> val (fst p1) <= val (fst p2))
         /\ (val z1 <= val z2 -> val (snd p2) <= val (snd p1)))
  /\ (forall x1 z1 x2 z2,
         fixed_point x1 -> fixed_point z1 -> fixed_point x2 -> fixed_point z2 ->
         let p1 := mapper_spec Double.MAP_SIZE Double.CANVAS_SIZE x1 z1 in
         let p2 := mapper_spec Double.MAP_SIZE Double.CANVAS_SIZE x2 z2 in
         (val x1 < val x2 -> val (fst p1) < val (fst p2))
         /\ (val z1 < val z2 -> val (snd p2) < val (snd p1))
         /\ val (fst p2) - val (fst p1) == slope * (val x2 - val x1)
         /\ val (snd p2) - val (snd p1) == - slope * (val z2 - val z1)).
Proof.
  split; [|split].
  - intros st b bx bz Ex Ez Nx Nz. unfold mapped.
    pose proof (double_place_step_placed st b bx bz
                  (double_truthy_some _ _ Ex Nx) (double_truthy_some _ _ Ez Nz)) as P.
    destruct (Double.place_step st b) as [st'|e]; [|exact P].
    eexists. split; [exact P|]. split; reflexivity.
  - intros x1 z1 x2 z2 R1 C1 R2 C2. cbn zeta. unfold mapper_spec. cbn [fst snd].
    fold Double.SCALE. split.
    + apply mul_SCALE_le; assumption.
    + apply sub_mul_SCALE_le; assumption.
  - intros x1 z1 x2 z2 F1 G1 F2 G2. cbn zeta. unfold mapper_spec. cbn [fst snd].
    fold Double.SCALE.
    destruct (fixed_point_mapping x1 F1) as [X1 _], (fixed_point_mapping x2 F2) as [X2 _],
             (fixed_point_mapping z1 G1) as [_ Z1], (fixed_point_mapping z2 G2) as [_ Z2].
    rewrite X1, X2, Z1, Z2, slope_value.
    repeat split; intros; lra.
Qed.

Lemma int_fixed_point (n : Z) : (Z.abs n < 2 ^ 50)%Z -> fixed_point (int n).
Proof. intros B. exists 0%Z, n. split; [lia|]. split; [exact B|reflexivity]. Qed.

Lemma int_regular (n : Z) : (0 < Z.abs n < 2 ^ 53)%Z -> regular (int n).
Proof.
  intros B. assert (R : representable n 0) by (split; lia).
  unfold int. rewrite (dyadic_canon n 0 R), canon_finite by lia.
  destruct (canon_exponent_le n 0 ltac:(lia) R) as [L T].
  pose proof (canon_exponent_fix n 0 ltac:(lia) R) as F.
  unfold regular, bounded, canonical_mantissa.
  assert (P : (0 < 2 ^ (0 - canon_exponent n 0))%Z) by (apply Z.pow_pos_nonneg; lia).
  rewrite digits2_log2, Z2Pos.id by nia.
  fold (fexp (Z.log2 (Z.abs n * 2 ^ (0 - canon_exponent n 0)) + 1 + canon_exponent n 0)).
  rewrite F, Z.eqb_refl. cbn [andb]. apply Z.leb_le.
  unfold Double.emax, Double.prec. lia.
Qed.

Lemma C3_coordinate_mapping_witness :
  mapped Double.placement0 (fob_at 100 200) (int 100) (int 200)
  /\ (val (int 100) <= val (int 6400)
      /\ val (fst (mapper_spec Double.MAP_SIZE Double.CANVAS_SIZE (int 100) (int 200)))
         <= val (fst (mapper_spec Double.MAP_SIZE Double.CANVAS_SIZE (int 6400) (int 200))))
  /\ (val (int 100) < val (int 6400)
      /\ val (fst (mapper_spec Double.MAP_SIZE Double.CANVAS_SIZE (int 100) (int 200)))
         < val (fst (mapper_spec Double.MAP_SIZE Double.CANVAS_SIZE (int 6400) (int 200)))).
Proof.
  destruct C3_coordinate_mapping as [Formula [Order Line]]. split; [|split].
  - exact (Formula Double.placement0 (fob_at 100 200) (int 100) (int 200)
             eq_refl eq_refl eq_refl eq_refl).
  - assert (L : val (int 100) <= val (int 6400)) by (vm_compute; discriminate).
    split; [exact L|].
    exact (proj1 (Order (int 100) (int 200) (int 6400) (int 200)
                    (int_regular 100 ltac:(lia)) (int_regular 200 ltac:(lia))
                    (int_regular 6400 ltac:(lia)) (int_regular 200 ltac:(lia))) L).
  - assert (L : val (int 100) < val (int 6400)) by (vm_compute; reflexivity).
    split; [exact L|].
    exact (proj1 (Line (int 100) (int 200) (int 6400) (int 200)
                    (int_fixed_point 100 eq_refl) (int_fixed_point 200 eq_refl)
                    (int_fixed_point 6400 eq_refl) (int_fixed_point 200 eq_refl)) L).
Defined.

(** ** Borders *)

Lemma border_points_cons f b bases :
  border_points f (b :: bases) = (border_points f [b] ++ border_points f bases)%list.
Proof. unfold border_points. simpl. now rewrite app_nil_r. Qed.

Lemma double_place_step_factions st b st' u s f :
  Double.place_step st b = Return st' ->
  Double.factionBases st = border_lists u s f ->
  Double.factionBases st'
  = border_lists (u ++ border_points "US" [b]) (s ++ border_points "USSR" [b])
                 (f ++ border_points "FIA" [b]).
Proof.
  unfold Double.place_step, border_points, border_lists. simpl flat_map. intros E F.
  destruct (Double.truthy (Double.Base.x b)) as [bx|];
    [destruct (Double.truthy (Double.Base.z b)) as [bz|]|];
    try (injection E as <-; rewrite F, !app_nil_r; reflexivity).
  destruct (is_str (Double.Base.type b) "HQ") eqn:EH.
  { rewrite andb_false_r in E. injection E as <-. simpl.
    rewrite !andb_false_r. simpl. rewrite F, !app_nil_r. reflexivity. }
  change (negb false) with true in *. rewrite !andb_true_r in *.
  destruct (Double.Base.faction b) as [fs|]; simpl is_str in *;
    [|simpl in E; injection E as <-; simpl; rewrite F, !app_nil_r; reflexivity].
  rewrite F in E. cbn [own] in E.
  rewrite (String.eqb_sym "US" fs), (String.eqb_sym "USSR" fs),
          (String.eqb_sym "FIA" fs) in E.
  destruct (String.eqb fs "US") eqn:N1.
  { apply String.eqb_eq in N1. subst fs. simpl in E. injection E as <-. simpl.
    rewrite ?F, ?app_nil_r. reflexivity. }
  destruct (String.eqb fs "USSR") eqn:N2.
  { apply String.eqb_eq in N2. subst fs. simpl in E. injection E as <-. simpl.
    rewrite ?F, ?app_nil_r. reflexivity. }
  destruct (String.eqb fs "FIA") eqn:N3.
  { apply String.eqb_eq in N3. subst fs. simpl in E. injection E as <-. simpl.
    rewrite ?F, ?app_nil_r. reflexivity. }
  assert (R : Double.factionBases st' = Double.factionBases st).
  { destruct (String.eqb fs "Neutral"); simpl in E;
      [now injection E as <-|].
    destruct (inherited fs); [discriminate|now injection E as <-]. }
  rewrite R, F, !app_nil_r. reflexivity.
Qed.

Lemma double_place_all_factions bases : forall st st' u s f,
  Double.place_all st bases = Return st' ->
  Double.factionBases st = border_lists u s f ->
  Double.factionBases st'
  = border_lists (u ++ border_points "US" bases) (s ++ border_points "USSR" bases)
                 (f ++ border_points "FIA" bases).
Proof.
  induction bases as [|b bases IH]; intros st st' u s f E F; simpl in E.
  - injection E as <-. unfold border_points. simpl. now rewrite !app_nil_r.
  - destruct (Double.place_step st b) as [st1|] eqn:E1; [|discriminate].
    rewrite (IH _ _ _ _ _ E (double_place_step_factions _ _ _ _ _ _ E1 F)).
    rewrite !(border_points_cons _ b bases), !app_assoc. reflexivity.
Qed.

(** The canvas point of a base of the map lies on the grid of 1/16384. *)
Lemma MAP_SIZE_canon : Double.MAP_SIZE = canon 6553600 (-9).
Proof. vm_compute. reflexivity. Qed.

Lemma truthy_inv (v : option Double.number) (q : Double.number) :
  Double.truthy v = Some q -> v = Some q /\ Double.falsy q = false.
Proof.
  destruct v as [c|]; [|discriminate]. unfold Double.truthy.
  destruct (Double.falsy c) eqn:F; [discriminate|]. intros E. injection E as <-. auto.
Qed.

Lemma canvas_point_on_grid (bx bz : Double.number) :
  map_coordinate bx -> map_coordinate bz ->
  Double.falsy bx = false -> Double.falsy bz = false ->
  grid_point (-14)
    (Double.mkPoint (Double.mul bx Double.SCALE)
                    (Double.mul (Double.sub Double.MAP_SIZE bz) Double.SCALE)).
Proof.
  intros (n & Bn & ->) (m & Bm & ->) Fx Fz.
  assert (Nn : n <> 0%Z) by (intros ->; discriminate Fx).
  assert (Nm : m <> 0%Z) by (intros ->; discriminate Fz).
  assert (R3 : representable 3 (-5)) by (split; [reflexivity|lia]).
  assert (Rn : representable n (-9)) by (split; lia).
  assert (Rm : representable m (-9)) by (split; lia).
  assert (RM : representable 6553600 (-9)) by (split; [reflexivity|lia]).
  assert (Rd : representable (6553600 - m) (-9)) by (split; lia).
  assert (Rx : representable (n * 3) (-9 + -5)) by (split; lia).
  assert (Ry : representable ((6553600 - m) * 3) (-9 + -5)) by (split; lia).
  split; cbn [Double.x Double.y].
  - exists (n * 3)%Z. split; [lia|].
    rewrite (dyadic_canon n (-9) Rn), SCALE_canon.
    rewrite (mul_positive n 3 (-9) (-5)) by (try assumption; lia).
    symmetry. apply (dyadic_canon (n * 3) (-9 + -5) Rx).
  - exists ((6553600 - m) * 3)%Z. split; [lia|].
    rewrite (dyadic_canon m (-9) Rm), SCALE_canon, MAP_SIZE_canon.
    rewrite (sub_finite 6553600 m (-9)) by (try assumption; lia).
    rewrite (mul_positive (6553600 - m) 3 (-9) (-5)) by (try assumption; lia).
    symmetry. apply (dyadic_canon ((6553600 - m) * 3) (-9 + -5) Ry).
Qed.

Lemma border_points_grid (f : string) (bases : list Double.Base.t) :
  Forall on_the_map bases -> Forall (grid_point (-14)) (border_points f bases).
Proof.
  induction 1 as [|b bases [Hx Hz] Hb IH]; [constructor|].
  rewrite border_points_cons. apply Forall_app. split; [|exact IH].
  unfold border_points. cbn [flat_map]. rewrite app_nil_r.
  destruct (Double.truthy (Double.Base.x b)) as [bx|] eqn:Ex; [|constructor].
  destruct (Double.truthy (Double.Base.z b)) as [bz|] eqn:Ez; [|constructor].
  destruct (is_str (Double.Base.faction b) f && negb (is_str (Double.Base.type b) "HQ"));
    [|constructor].
  apply truthy_inv in Ex, Ez. destruct Ex as [Ex Fx], Ez as [Ez Fz].
  constructor; [|constructor].
  apply canvas_point_on_grid; auto.
Qed.

Lemma grid_exponent_14 : grid_exponent (-14).
Proof. unfold grid_exponent. lia. Qed.

Lemma double_border_Some (e : Z) (pts h : list Double.point) :
  grid_exponent e -> Forall (grid_point e) pts ->
  (Double.border pts = Some h <->
   (3 <= List.length pts)%nat /\ ~ collinear (map pointQ pts) /\ h = Double.convexHull pts).
Proof.
  intros He G. unfold Double.border.
  assert (S : List.length (Double.convexHull pts)
              = List.length (convexHull (map pointQ pts)))
    by (rewrite <- (convexHull_sim e He pts G); now rewrite length_map).
  destruct (Nat.ltb_spec (List.length pts) 3) as [L|L].
  - split; [discriminate|]. intros (H & _). lia.
  - rewrite S. destruct (Nat.ltb_spec (List.length (convexHull (map pointQ pts))) 3) as [K|K].
    + split; [discriminate|]. intros (_ & NC & _).
      pose proof (hp_size _ _ (hull_of_spread (map pointQ pts)
                                  ltac:(now rewrite length_map) NC)). lia.
    + split.
      * intros E. injection E as <-. split; [exact L|]. split; [|reflexivity].
        intros Hc. rewrite (hull_of_line (map pointQ pts)) in K;
          [lia|now rewrite length_map|exact Hc].
      * intros (_ & _ & ->). reflexivity.
Qed.

Lemma double_borders_In fb f h :
  In (f, h) (Double.borders fb) <->
  exists pts, In (f, pts) fb /\ Double.border pts = Some h.
Proof.
  unfold Double.borders. rewrite in_flat_map. split.
  - intros ([f0 pts] & H & K). cbn [fst snd] in K.
    destruct (Double.border pts) as [h0|] eqn:EB; [|destruct K].
    destruct K as [K|[]]. injection K as <- <-. eauto.
  - intros (pts & H & EB). exists (f, pts). split; [exact H|].
    cbn [fst snd]. rewrite EB. now left.
Qed.

(** For bases whose coordinates are coordinates of the map in steps of
    1/512, a faction's border is drawn exactly when the faction is US, USSR
    or FIA and has three or more bases that count for it (both coordinates
    truthy, type not HQ) whose canvas points are not all on one line; the
    border is then the hull of these points, a strictly convex polygon
    around them. *)
Theorem border_drawn_iff
  (bases : list Double.Base.t) (drawn : list (string * list Double.point))
  (faction : string) (hull : list Double.point) :
  Forall on_the_map bases ->
  Double.drawn_borders bases = Return drawn ->
  let points := border_points faction bases in
  (In (faction, hull) drawn <->
     In faction ["US"; "USSR"; "FIA"]%string
     /\ (3 <= List.length points)%nat /\ ~ collinear (map pointQ points)
     /\ hull = Double.convexHull points)
  /\ (In (faction, hull) drawn -> hull_polygon (map pointQ points) (map pointQ hull)).
Proof.
  intros M E points. subst points.
  unfold Double.drawn_borders in E.
  destruct (Double.place_all Double.placement0 bases) as [st|] eqn:EP; [|discriminate].
  injection E as <-.
  rewrite (double_place_all_factions bases _ _ [] [] [] EP eq_refl). cbn [app].
  assert (A : In (faction, hull)
                (Double.borders
                   (border_lists (border_points "US" bases)
                      (border_points "USSR" bases) (border_points "FIA" bases)))
              <-> In faction ["US"; "USSR"; "FIA"]%string
                  /\ Double.border (border_points faction bases) = Some hull).
  { rewrite double_borders_In. unfold border_lists. cbn [In]. split.
    - intros (pts & [H|[H|[H|[]]]] & EB); injection H as <- <-; tauto.
    - intros [[<-|[<-|[<-|[]]]] EB]; eexists; split; try exact EB; tauto. }
  pose proof (border_points_grid faction bases M) as G.
  rewrite A, (double_border_Some (-14) _ _ grid_exponent_14 G). split; [tauto|].
  intros (_ & L & NC & ->).
  rewrite (convexHull_sim (-14) grid_exponent_14 _ G).
  apply hull_of_spread; [now rewrite length_map|exact NC].
Qed.

Lemma int_map_coordinate (n : Z) : (0 <= n <= 12800)%Z -> map_coordinate (int n).
Proof.
  intros B. exists (n * 2 ^ 9)%Z. split; [lia|].
  unfold int. symmetry. apply (dyadic_shift n 0 9); [lia|]. split; lia.
Qed.

Lemma fob_on_the_map (bx bz : Z) :
  (0 <= bx <= 12800)%Z -> (0 <= bz <= 12800)%Z -> on_the_map (fob_at bx bz).
Proof.
  intros X Z. split; intros c E; injection E as <-; now apply int_map_coordinate.
Qed.

Lemma triangle_on_the_map : Forall on_the_map triangle_bases.
Proof. repeat (constructor; [apply fob_on_the_map; lia|]). constructor. Qed.

Lemma triangle_not_collinear : ~ collinear (map pointQ (border_points "US" triangle_bases)).
Proof.
  remember (map pointQ (border_points "US" triangle_bases)) as pts eqn:E.
  vm_compute in E. subst pts. intros H.
  pose proof (H _ _ _ (or_introl eq_refl) (or_intror (or_introl eq_refl))
                (or_intror (or_intror (or_introl eq_refl)))) as C.
  vm_compute in C. discriminate.
Qed.

Lemma border_drawn_iff_witness :
  let points := border_points "US" triangle_bases in
  match Double.drawn_borders triangle_bases with
  | Return drawn =>
      In ("US"%string, Double.convexHull points) drawn
      /\ hull_polygon (map pointQ points) (map pointQ (Double.convexHull points))
  | Throw _ => False
  end.
Proof.
  intros points.
  destruct (Double.drawn_borders triangle_bases) as [drawn|e] eqn:E; [|discriminate E].
  destruct (border_drawn_iff triangle_bases drawn "US"%string (Double.convexHull points)
              triangle_on_the_map E) as [D P].
  assert (I : In ("US"%string, Double.convexHull points) drawn).
  { apply D. split; [simpl; tauto|]. split; [simpl; lia|].
    split; [exact triangle_not_collinear|reflexivity]. }
  split; [exact I|exact (P I)].
Defined.

(** Off these coordinates the rounding decides here too: three bases whose
    canvas points are not on one line, and no border. *)
Example rounding_drops_a_border :
  ~ collinear (map pointQ (border_points "US" flat_bases))
  /\ Double.drawn_borders flat_bases = Return [].
Proof.
  split; [|vm_compute; reflexivity].
  remember (map pointQ (border_points "US" flat_bases)) as pts eqn:E.
  vm_compute in E. subst pts. intros H.
  pose proof (H _ _ _ (or_introl eq_refl) (or_intror (or_introl eq_refl))
                (or_intror (or_intror (or_introl eq_refl)))) as C.
  vm_compute in C. discriminate.
Qed.
